(** * Procedural geometry generators: superquadrics, fractal terrain, neutron transport

    A shallow embedding of the C++ generators of the portfolio repository:

    - [SuperQuadrics]  rd_view/assign4/superQuadrics.cc
                       ([REDirect::rd_sqsphere], [REDirect::rd_sqtorus]);
    - [Terrain]        the fractal terrain program ([FractalTerrain]);
    - [Static]         rd_view/assign4/static_neutron_scene_generator.cc
                       ([NeutronTrack], [NeutronTracks]);
    - [Dynamic]        rd_view/assign4/dynamic_neutron_scene_generator.cc
                       ([RandomGenerator], [Neutron], [NeutronSimulation]).

    The C++ computes on [float] and [double].  Every model is written against
    the interface [Scalar], so that one definition can be read in IEEE 754
    arithmetic (module [IEEE], on the Standard Library's [spec_float]) and in
    exact real arithmetic (instance [exact_scalar]).  The functions of <cmath>
    that IEEE 754 does not fix (exp, log, cos, sin, asin, pow) and the engines of
    <random> are not code of the repository: they enter as the record
    [IEEE.Libm] and the classes [Uniform] and [Normal]; [IEEE.libm_ref] and
    [MT19937] give one executable choice of each.

    Mutable objects are explicit state: a method is a function from the object
    (and the process-wide state it touches) to the updated object; a reference
    into a vector is the index of the element. *)

From Stdlib Require Import ZArith List Bool Lia Reals Lra.
From Stdlib Require Import Floats.SpecFloat.
From Stdlib Require String.
From stdpp Require Import base list.

Set Default Proof Using "Type".

(** ** Scalars *)

(** The arithmetic interface of [float] and [double].  [of_int] is the
    conversion from an integer, comparisons are the C++ operators (false on
    unordered operands in IEEE arithmetic).

    [M_PI] and [180.0] are [double] constants.  Where one of them meets a
    [float] operand, the usual arithmetic conversions make the expression
    [double], and its value is converted back where it is stored in a
    [float].  The three expressions of this kind in the sources are
    operations of their own: [s_mul_pi x] is [x * M_PI], [s_radians x] is
    [x * M_PI / 180.0] and [s_asin_degrees x] is [asin(x) * 180.0 / M_PI]. *)
Class Scalar (F : Type) : Type := {
  of_int : Z -> F;
  s_mul_pi : F -> F;
  s_radians : F -> F;
  s_asin_degrees : F -> F;
  s_add : F -> F -> F;
  s_sub : F -> F -> F;
  s_mul : F -> F -> F;
  s_div : F -> F -> F;
  s_neg : F -> F;
  s_fabs : F -> F;
  s_ltb : F -> F -> bool;
  s_leb : F -> F -> bool;
  s_eqb : F -> F -> bool;
  s_sqrt : F -> F;
  s_exp : F -> F;
  s_log : F -> F;
  s_cos : F -> F;
  s_sin : F -> F;
  s_pow : F -> F -> F;
  s_fmod : F -> F -> F
}.

Declare Scope scalar_scope.
Delimit Scope scalar_scope with S.
Notation "x + y" := (s_add x y) : scalar_scope.
Notation "x - y" := (s_sub x y) : scalar_scope.
Notation "x * y" := (s_mul x y) : scalar_scope.
Notation "x / y" := (s_div x y) : scalar_scope.
Notation "- x" := (s_neg x) : scalar_scope.
Notation "x <? y" := (s_ltb x y) : scalar_scope.
Notation "x <=? y" := (s_leb x y) : scalar_scope.
Notation "x >? y" := (s_ltb y x) : scalar_scope.
Notation "x >=? y" := (s_leb y x) : scalar_scope.
Notation "x =? y" := (s_eqb x y) : scalar_scope.

Section ScalarOps.
Context {F : Type} {SF : Scalar F}.
Local Open Scope scalar_scope.

(** A decimal literal [p/q] of the source.  Numerator and denominator of
    every literal used below are exactly representable, so in IEEE arithmetic
    the correctly rounded quotient is the value a compiler gives the
    literal. *)
Definition dec (p q : Z) : F := of_int p / of_int q.

(** [std::min] and [std::max]. *)
Definition s_min (a b : F) : F := if b <? a then b else a.
Definition s_max (a b : F) : F := if a <? b then b else a.

(** Three-component arrays [float v[3]]. *)
Definition vec3 : Type := F * F * F.
Definition vx (v : vec3) : F := fst (fst v).
Definition vy (v : vec3) : F := snd (fst v).
Definition vz (v : vec3) : F := snd v.
Definition vec3_zero : vec3 := (of_int 0, of_int 0, of_int 0).

(** [std::sqrt(v[0]*v[0] + v[1]*v[1] + v[2]*v[2])]. *)
Definition norm3 (v : vec3) : F :=
  s_sqrt (vx v * vx v + vy v * vy v + vz v * vz v).

End ScalarOps.

Arguments vec3 F : clear implicits.

(** ** IEEE 754 binary formats *)

Module IEEE.

Local Open Scope Z_scope.

Section Format.
Variables prec emax : Z.

Definition of_Z (z : Z) : spec_float := binary_normalize prec emax z 0 false.

(** [fmod] is exact: the remainder of the truncating division, with the sign
    of the dividend. *)
Definition fmod (x y : spec_float) : spec_float :=
  match x, y with
  | S754_nan, _ | _, S754_nan => S754_nan
  | S754_infinity _, _ => S754_nan
  | _, S754_zero _ => S754_nan
  | S754_zero _, _ => x
  | S754_finite _ _ _, S754_infinity _ => x
  | S754_finite sx mx ex, S754_finite _ my ey =>
      let e := Z.min ex ey in
      let X := Zpos (fst (shl_align mx ex e)) in
      let Y := Zpos (fst (shl_align my ey e)) in
      binary_normalize prec emax (cond_Zopp sx (Z.rem X Y)) e sx
  end.

(** The functions of <cmath> whose results IEEE 754 leaves to the library. *)
Record Libm : Type := {
  l_exp : spec_float -> spec_float;
  l_log : spec_float -> spec_float;
  l_cos : spec_float -> spec_float;
  l_sin : spec_float -> spec_float;
  (** [asin(x)] is only called inside a [double] expression: its value is
      a [double], whichever overload the call resolves to. *)
  l_asin : spec_float -> spec_float;
  l_pow : spec_float -> spec_float -> spec_float
}.

(** *** A reference libm

    Fixed-point evaluation with [fxP] fractional bits, rounded to the format
    at the end.  Only used to run the models on concrete inputs. *)
Definition fxP : Z := 80.
Definition fx_one : Z := Z.shiftl 1 fxP.
Definition fx_pi : Z := 3797952473636338580787993.
Definition fx_ln2 : Z := 837963523372001241319907.
Definition fx_mul (a b : Z) : Z := Z.shiftr (a * b) fxP.
Definition fx_div (a b : Z) : Z := Z.shiftl a fxP / b.
Definition fx_sqrt (a : Z) : Z := Z.sqrt (Z.shiftl a fxP).
Definition fx_of (s : bool) (m : positive) (e : Z) : Z :=
  cond_Zopp s (Z.shiftl (Zpos m) (e + fxP)).
Definition fx_to (v k : Z) : spec_float :=
  let k' := Z.max (- (2 * emax + 4 * fxP)) (Z.min k (2 * emax)) in
  binary_normalize prec emax v (k' - fxP) false.

Fixpoint exp_series (n : nat) (k r term acc : Z) : Z :=
  match n with
  | O => acc
  | S n' => let t := fx_mul term r / k in exp_series n' (k + 1) r t (acc + t)
  end.

Fixpoint trig_series (n : nat) (k r2 term acc : Z) : Z :=
  match n with
  | O => acc
  | S n' =>
      let t := - (fx_mul term r2 / (k * (k + 1))) in
      trig_series n' (k + 2) r2 t (acc + t)
  end.

Fixpoint odd_series (n : nat) (k t2 pw acc : Z) : Z :=
  match n with
  | O => acc
  | S n' =>
      let pw' := fx_mul pw t2 in
      odd_series n' (k + 2) t2 pw' (acc + pw' / k)
  end.

Definition fx_exp (r : Z) : Z := exp_series 40 1 r fx_one fx_one.
Definition fx_sin (r : Z) : Z := trig_series 30 2 (fx_mul r r) r r.
Definition fx_cos (r : Z) : Z := trig_series 30 1 (fx_mul r r) fx_one fx_one.

(** e^z as a float, by z = k ln 2 + r with |r| <= ln 2 / 2. *)
Definition exp_of_fx (z : Z) : spec_float :=
  let k := (z + fx_ln2 / 2) / fx_ln2 in
  fx_to (fx_exp (z - k * fx_ln2)) k.

(** ln (m * 2^e), by m * 2^e = m' * 2^k with 1 <= m' < 2 and
    ln m' = 2 atanh ((m' - 1) / (m' + 1)). *)
Definition fx_ln (m : positive) (e : Z) : Z :=
  let d := Zpos (digits2_pos m) in
  let m' := Z.shiftl (Zpos m) (fxP - (d - 1)) in
  let t := fx_div (m' - fx_one) (m' + fx_one) in
  (e + d - 1) * fx_ln2 + 2 * odd_series 40 3 (fx_mul t t) t t.

Definition fx_reduce (x : Z) : Z := (x + fx_pi) mod (2 * fx_pi) - fx_pi.

Definition fx_atan_small (t : Z) : Z := odd_series 40 3 (- fx_mul t t) t t.
Definition fx_halve (t : Z) : Z :=
  fx_div t (fx_one + fx_sqrt (fx_one + fx_mul t t)).
Definition fx_atan (t : Z) : Z :=
  if Z.abs t <=? fx_one
  then 4 * fx_atan_small (fx_halve (fx_halve t))
  else Z.sgn t * (fx_pi / 2)
       - 4 * fx_atan_small (fx_halve (fx_halve (fx_div fx_one t))).

Definition exp_ref (x : spec_float) : spec_float :=
  match x with
  | S754_nan => S754_nan
  | S754_infinity false => x
  | S754_infinity true => S754_zero false
  | S754_zero _ => of_Z 1
  | S754_finite s m e =>
      if 2 * emax <? Zpos (digits2_pos m) + e
      then (if s then S754_zero false else S754_infinity false)
      else exp_of_fx (fx_of s m e)
  end.

Definition log_ref (x : spec_float) : spec_float :=
  match x with
  | S754_nan => S754_nan
  | S754_zero _ => S754_infinity true
  | S754_infinity false => x
  | S754_infinity true | S754_finite true _ _ => S754_nan
  | S754_finite false m e => fx_to (fx_ln m e) 0
  end.

Definition sin_ref (x : spec_float) : spec_float :=
  match x with
  | S754_nan | S754_infinity _ => S754_nan
  | S754_zero _ => x
  | S754_finite s m e =>
      if Zpos (digits2_pos m) + e <? - 30 then x
      else fx_to (fx_sin (fx_reduce (fx_of s m e))) 0
  end.

Definition cos_ref (x : spec_float) : spec_float :=
  match x with
  | S754_nan | S754_infinity _ => S754_nan
  | S754_zero _ => of_Z 1
  | S754_finite s m e => fx_to (fx_cos (fx_reduce (fx_of s m e))) 0
  end.

Definition asin_ref (x : spec_float) : spec_float :=
  match x with
  | S754_nan | S754_infinity _ => S754_nan
  | S754_zero _ => x
  | S754_finite s m e =>
      if Zpos (digits2_pos m) + e <? - 30 then x
      else
        let v := fx_of s m e in
        if fx_one <? Z.abs v then S754_nan
        else if Z.abs v =? fx_one then fx_to (Z.sgn v * (fx_pi / 2)) 0
        else fx_to (fx_atan (fx_div v (fx_sqrt (fx_one - fx_mul v v)))) 0
  end.

(** The integer a float is, if it is one. *)
Definition as_integer (m : positive) (e : Z) : option Z :=
  if 0 <=? e then Some (Z.shiftl (Zpos m) e)
  else if Zpos m mod Z.shiftl 1 (- e) =? 0 then Some (Z.shiftr (Zpos m) (- e))
  else None.

Definition pow_pos (mx : positive) (ex : Z) (y : spec_float) : spec_float :=
  match y with
  | S754_finite sy my ey =>
      if 2 * emax <? Zpos (digits2_pos my) + ey
      then (if Bool.eqb sy (0 <=? fx_ln mx ex) then S754_zero false
            else S754_infinity false)
      else exp_of_fx (fx_mul (fx_of sy my ey) (fx_ln mx ex))
  | _ => S754_nan
  end.

Definition pow_ref (x y : spec_float) : spec_float :=
  if SFeqb y (of_Z 0) then of_Z 1
  else if SFeqb x (of_Z 1) then of_Z 1
  else if SFeqb y (of_Z 1) then x
  else match x, y with
  | S754_nan, _ | _, S754_nan => S754_nan
  | S754_zero _, _ =>
      if SFltb y (of_Z 0) then S754_infinity false else S754_zero false
  | S754_infinity _, _ =>
      if SFltb y (of_Z 0) then S754_zero false else S754_infinity false
  | _, S754_infinity sy =>
      if Bool.eqb sy (SFltb (SFabs x) (of_Z 1))
      then S754_infinity false else S754_zero false
  | S754_finite false mx ex, _ => pow_pos mx ex y
  | S754_finite true mx ex, S754_finite _ my ey =>
      match as_integer my ey with
      | Some k => if Z.even k then pow_pos mx ex y else SFopp (pow_pos mx ex y)
      | None => S754_nan
      end
  | _, _ => S754_nan
  end.

End Format.

Definition libm_ref (prec emax : Z) : Libm :=
  {| l_exp := exp_ref prec emax; l_log := log_ref prec emax;
     l_cos := cos_ref prec emax; l_sin := sin_ref prec emax;
     l_asin := asin_ref 53 1024; l_pow := pow_ref prec emax |}.

(** *** Expressions evaluated in [double] *)

(** The [double] nearest to pi: the constant [M_PI]. *)
Definition M_PI : spec_float := fx_to 53 1024 fx_pi 0.

(** The conversion of a [double] to the format (the identity on the floats
    of the format). *)
Definition of_double (prec emax : Z) (x : spec_float) : spec_float :=
  match x with
  | S754_finite s m e => binary_normalize prec emax (cond_Zopp s (Zpos m)) e s
  | _ => x
  end.

(** [x * M_PI] *)
Definition mul_pi (prec emax : Z) (x : spec_float) : spec_float :=
  of_double prec emax (SFmul 53 1024 x M_PI).

(** [x * M_PI / 180.0] *)
Definition radians (prec emax : Z) (x : spec_float) : spec_float :=
  of_double prec emax (SFdiv 53 1024 (SFmul 53 1024 x M_PI) (of_Z 53 1024 180)).

(** [asin(x) * 180.0 / M_PI] *)
Definition asin_degrees (prec emax : Z) (L : Libm) (x : spec_float) : spec_float :=
  of_double prec emax
    (SFdiv 53 1024 (SFmul 53 1024 (l_asin L x) (of_Z 53 1024 180)) M_PI).

(** *** The scalar instance of a format, over a libm *)
Definition scalar (prec emax : Z) (L : Libm) : Scalar spec_float :=
  {| of_int := of_Z prec emax;
     s_mul_pi := mul_pi prec emax;
     s_radians := radians prec emax;
     s_asin_degrees := asin_degrees prec emax L;
     s_add := SFadd prec emax;
     s_sub := SFsub prec emax;
     s_mul := SFmul prec emax;
     s_div := SFdiv prec emax;
     s_neg := SFopp;
     s_fabs := SFabs;
     s_ltb := SFltb;
     s_leb := SFleb;
     s_eqb := SFeqb;
     s_sqrt := SFsqrt prec emax;
     s_exp := l_exp L;
     s_log := l_log L;
     s_cos := l_cos L;
     s_sin := l_sin L;
     s_pow := l_pow L;
     s_fmod := fmod prec emax |}.

Definition is_nan (x : spec_float) : bool :=
  match x with S754_nan => true | _ => false end.

Definition is_finite (x : spec_float) : bool :=
  match x with S754_zero _ | S754_finite _ _ _ => true | _ => false end.

(** [float] and [double]. *)
Definition binary32 (L : Libm) : Scalar spec_float := scalar 24 128 L.
Definition binary64 (L : Libm) : Scalar spec_float := scalar 53 1024 L.
Definition float_ref : Scalar spec_float := binary32 (libm_ref 24 128).
Definition double_ref : Scalar spec_float := binary64 (libm_ref 53 1024).

End IEEE.

(** ** Exact real arithmetic

    A scalar is a real number, or [None] where the operation has no real
    value: a division by zero, the square root or the logarithm of a
    negative number, an arc sine outside [-1, 1].  [None] behaves as a NaN
    does: every operation on it gives [None] and every comparison with it
    is false. *)
Module Exact.

(** [fmod]: the remainder of the truncating division. *)
Definition trunc (r : R) : Z :=
  if Rle_dec 0 r then Int_part r else (- Int_part (- r))%Z.

Definition ltb (x y : R) : bool := if Rlt_dec x y then true else false.
Definition leb (x y : R) : bool := if Rle_dec x y then true else false.
Definition eqb (x y : R) : bool := if Req_EM_T x y then true else false.

Definition lift1 (f : R -> R) (x : option R) : option R :=
  match x with Some a => Some (f a) | None => None end.

Definition lift2 (f : R -> R -> R) (x y : option R) : option R :=
  match x, y with Some a, Some b => Some (f a b) | _, _ => None end.

Definition compare (f : R -> R -> bool) (x y : option R) : bool :=
  match x, y with Some a, Some b => f a b | _, _ => false end.

Definition div (x y : option R) : option R :=
  match x, y with
  | Some a, Some b => if Req_EM_T b 0 then None else Some (a / b)%R
  | _, _ => None
  end.

Definition sqrt (x : option R) : option R :=
  match x with
  | Some a => if Rlt_dec a 0 then None else Some (R_sqrt.sqrt a)
  | None => None
  end.

Definition log (x : option R) : option R :=
  match x with
  | Some a => if Rle_dec a 0 then None else Some (ln a)
  | None => None
  end.

(** [asin(x) * 180.0 / M_PI] *)
Definition asin_degrees (x : option R) : option R :=
  match x with
  | Some a => if Rlt_dec 1 (Rabs a) then None else Some (asin a * 180 / PI)%R
  | None => None
  end.

(** [pow]: x^0 = 1 and 1^y = 1; a positive base by exp and ln; 0^y for a
    positive y is 0; a negative base has a value for an integer exponent
    only. *)
Definition pow (x y : option R) : option R :=
  match x, y with
  | Some a, Some b =>
      if Req_EM_T b 0 then Some 1%R
      else if Rlt_dec 0 a then Some (Rpower a b)
      else if Req_EM_T a 0 then (if Rlt_dec 0 b then Some 0%R else None)
      else if Req_EM_T b (IZR (Int_part b)) then Some (powerRZ a (Int_part b))
      else None
  | _, _ => None
  end.

Definition fmod (x y : option R) : option R :=
  match x, y with
  | Some a, Some b => if Req_EM_T b 0 then None else Some (a - b * IZR (trunc (a / b)))%R
  | _, _ => None
  end.

End Exact.

#[export] Instance exact_scalar : Scalar (option R) :=
  {| of_int := fun z => Some (IZR z);
     s_mul_pi := Exact.lift1 (fun x => x * PI)%R;
     s_radians := Exact.lift1 (fun x => x * PI / 180)%R;
     s_asin_degrees := Exact.asin_degrees;
     s_add := Exact.lift2 Rplus;
     s_sub := Exact.lift2 Rminus;
     s_mul := Exact.lift2 Rmult;
     s_div := Exact.div;
     s_neg := Exact.lift1 Ropp;
     s_fabs := Exact.lift1 Rabs;
     s_ltb := Exact.compare Exact.ltb;
     s_leb := Exact.compare Exact.leb;
     s_eqb := Exact.compare Exact.eqb;
     s_sqrt := Exact.sqrt;
     s_exp := Exact.lift1 exp;
     s_log := Exact.log;
     s_cos := Exact.lift1 cos;
     s_sin := Exact.lift1 sin;
     s_pow := Exact.pow;
     s_fmod := Exact.fmod |}.

(** ** Random engines *)

(** [std::mt19937 gen(seed)] with [std::uniform_real_distribution<float>
    uniform_dist(0.0f, 1.0f)]: [seed_engine] constructs (or re-seeds) the
    engine, [uniform_dist] is the call [uniform_dist(gen)], which returns the
    draw and advances the engine. *)
Class Uniform (F G : Type) : Type := {
  seed_engine : Z -> G;
  uniform_dist : G -> F * G
}.

(** [std::mt19937 rng] with [std::normal_distribution<double> gauss]:
    [seed_normal s] is [rng.seed(s)] followed by a fresh distribution object,
    [normal_dist] is the call [gauss(rng)]. *)
Class Normal (F G : Type) : Type := {
  seed_normal : Z -> G;
  normal_dist : G -> F * G
}.

(** The 32-bit Mersenne Twister of the C++ standard, and the uniform
    distribution on it as libstdc++ computes it (one engine word per draw,
    scaled by 2^-32 and kept below 1). *)
Module MT19937.

Local Open Scope Z_scope.

Definition word (z : Z) : Z := Z.land z 4294967295.

Record state : Type := { mt : list Z; mti : nat }.

Fixpoint init_words (n : nat) (i prev : Z) : list Z :=
  match n with
  | O => []
  | S n' =>
      let x := word (1812433253 * Z.lxor prev (Z.shiftr prev 30) + i) in
      x :: init_words n' (i + 1) x
  end.

Definition seed (s : Z) : state :=
  let x0 := word s in
  {| mt := x0 :: init_words 623 1 x0; mti := 624 |}.

Definition twist_at (x : list Z) (i : nat) : list Z :=
  let y := Z.lor (Z.land (x !!! i) 2147483648)
                 (Z.land (x !!! ((i + 1) mod 624)%nat) 2147483647) in
  let v := Z.lxor (x !!! ((i + 397) mod 624)%nat)
             (Z.lxor (Z.shiftr y 1) (if Z.odd y then 2567483615 else 0)) in
  <[i := v]> x.

Definition twist (x : list Z) : list Z := foldl twist_at x (seq 0 624).

Definition temper (y : Z) : Z :=
  let y := Z.lxor y (Z.shiftr y 11) in
  let y := Z.lxor y (Z.land (Z.shiftl y 7) 2636928640) in
  let y := Z.lxor y (Z.land (Z.shiftl y 15) 4022730752) in
  Z.lxor y (Z.shiftr y 18).

(** [gen()], a 32-bit unsigned word *)
Definition next (g : state) : Z * state :=
  let g' := if (624 <=? mti g)%nat then {| mt := twist (mt g); mti := 0 |} else g in
  (word (temper (mt g' !!! mti g')), {| mt := mt g'; mti := S (mti g') |}).

Section Canonical.
Context {F : Type} {SF : Scalar F}.
Local Open Scope scalar_scope.

Definition below_one : F := of_int 1 - dec 1 16777216.

Definition canonical (w : Z) : F :=
  let r := of_int w / of_int 4294967296 in
  if r >=? of_int 1 then below_one else r.

Definition uniform01 (g : state) : F * state :=
  (canonical (fst (next g)) * (of_int 1 - of_int 0) + of_int 0, snd (next g)).

#[export] Instance uniform : Uniform F state :=
  {| seed_engine := seed; uniform_dist := uniform01 |}.

(** [std::normal_distribution<double>] as libstdc++ computes it: the polar
    method on pairs of draws that take two engine words each, the second
    value of a pair saved for the next call.  The rejection loop runs at
    most [fuel] times. *)
Definition canonical2 (g : state) : F * state :=
  let w1 := fst (next g) in
  let w2 := fst (next (snd (next g))) in
  let r := (of_int w1 + of_int w2 * of_int 4294967296)
           / (of_int 4294967296 * of_int 4294967296) in
  (if r >=? of_int 1 then of_int 1 - dec 1 9007199254740992 else r,
   snd (next (snd (next g)))).

Fixpoint polar (fuel : nat) (g : state) : F * F * state :=
  match fuel with
  | O => (of_int 0, of_int 0, g)
  | S fuel' =>
      let x := of_int 2 * fst (canonical2 g) - of_int 1 in
      let g1 := snd (canonical2 g) in
      let y := of_int 2 * fst (canonical2 g1) - of_int 1 in
      let g2 := snd (canonical2 g1) in
      let r2 := x * x + y * y in
      if (r2 >? of_int 1) || (r2 =? of_int 0) then polar fuel' g2
      else
        let mult := s_sqrt (of_int (-2) * s_log r2 / r2) in
        (x * mult, y * mult, g2)
  end.

Record normal_state : Type := { engine : state; saved : option F }.

Definition normal01 (g : normal_state) : F * normal_state :=
  match saved g with
  | Some v => (v * of_int 1 + of_int 0, {| engine := engine g; saved := None |})
  | None =>
      let r := polar 64 (engine g) in
      (snd (fst r) * of_int 1 + of_int 0,
       {| engine := snd r; saved := Some (fst (fst r)) |})
  end.

#[export] Instance normal : Normal F normal_state :=
  {| seed_normal := fun s => {| engine := seed s; saved := None |};
     normal_dist := normal01 |}.

End Canonical.

Arguments normal_state F : clear implicits.

End MT19937.

(** ** Dynamic-mode neutron transport
    (rd_view/assign4/dynamic_neutron_scene_generator.cc) *)

Module Dynamic.

Section Model.
Context {F G : Type} {SF : Scalar F} {UG : Uniform F G}.
Local Open Scope scalar_scope.

(** *** struct RandomGenerator *)

(** [RandomGenerator() : gen(rd()), uniform_dist(0.0f, 1.0f)].  The value
    [rd] that [std::random_device] delivers is an input from the
    environment; the constructor takes no seed. *)
Definition RandomGenerator_new (rd : Z) : G := seed_engine rd.

Definition getFloat (g : G) : F * G := uniform_dist g.

Definition getFloat_range (min max : F) (g : G) : F * G :=
  let '(u, g1) := uniform_dist g in (min + (max - min) * u, g1).

Definition randomDirection (g : G) : vec3 F * G :=
  let '(u1, g1) := uniform_dist g in
  let phi := s_mul_pi (u1 * of_int 2) in
  let '(u2, g2) := uniform_dist g1 in
  let costheta := of_int 2 * u2 - of_int 1 in
  let sintheta := s_sqrt (of_int 1 - costheta * costheta) in
  ((sintheta * s_cos phi, sintheta * s_sin phi, costheta), g2).

(** *** The module-level simulation parameters *)
Record Params : Type := {
  num_neutrons : Z;
  max_lifetime : F;
  absorption_probability : F;
  fission_probability : F;
  mean_free_path : F;
  source_radius : F;
  max_distance : F;
  timestep : F;
  num_frames : Z
}.

Definition default_params : Params :=
  {| num_neutrons := 250;
     max_lifetime := of_int 100;
     absorption_probability := dec 1 10;
     fission_probability := dec 15 100;
     mean_free_path := of_int 2;
     source_radius := dec 1 2;
     max_distance := of_int 10;
     timestep := dec 1 2;
     num_frames := 50 |}.

Definition NUM_ENERGY_GROUPS : nat := 3.

Definition GROUP_ENERGIES : list F := [of_int 10; of_int 5; of_int 1].

Definition GROUP_COLORS : list (vec3 F) :=
  [ (of_int 1, dec 2 10, of_int 0);
    (of_int 1, dec 8 10, of_int 0);
    (of_int 0, dec 5 10, of_int 1) ].

Definition SCATTERING_PROBABILITIES : list (list F) :=
  [ [dec 5 10; dec 4 10; dec 1 10];
    [of_int 0; dec 6 10; dec 4 10];
    [of_int 0; of_int 0; of_int 1] ].

(** [GROUP_ENERGIES[g]] *)
Definition group_energy (g : nat) : F := nth g GROUP_ENERGIES (of_int 0).

Record FissionEvent : Type := {
  fe_position : vec3 F;
  fe_time : F
}.

(** *** class Neutron *)
Record Neutron : Type := {
  position : vec3 F;
  velocity : vec3 F;
  energy_group : nat;
  lifetime : F;
  active : bool
}.

(** [Neutron()] *)
Definition Neutron_new : Neutron :=
  {| position := vec3_zero; velocity := vec3_zero;
     energy_group := 0; lifetime := of_int 0; active := false |}.

Definition set_active (b : bool) (n : Neutron) : Neutron :=
  {| position := position n; velocity := velocity n;
     energy_group := energy_group n; lifetime := lifetime n; active := b |}.

Definition set_lifetime (l : F) (n : Neutron) : Neutron :=
  {| position := position n; velocity := velocity n;
     energy_group := energy_group n; lifetime := l; active := active n |}.

Definition set_position (q : vec3 F) (n : Neutron) : Neutron :=
  {| position := q; velocity := velocity n;
     energy_group := energy_group n; lifetime := lifetime n; active := active n |}.

Definition set_scatter (v : vec3 F) (g : nat) (n : Neutron) : Neutron :=
  {| position := position n; velocity := v;
     energy_group := g; lifetime := lifetime n; active := active n |}.

Variable P : Params.

(** [Neutron::init] *)
Definition Neutron_init (n : Neutron) (g : G) : Neutron * G :=
  let '(u1, g1) := getFloat g in
  let phi := s_mul_pi (u1 * of_int 2) in
  let '(u2, g2) := getFloat g1 in
  let costheta := of_int 2 * u2 - of_int 1 in
  let sintheta := s_sqrt (of_int 1 - costheta * costheta) in
  let '(u3, g3) := getFloat g2 in
  let r := source_radius P * s_pow u3 (of_int 1 / of_int 3) in
  let '(v, g4) := randomDirection g3 in
  ({| position := (r * sintheta * s_cos phi, r * sintheta * s_sin phi, r * costheta);
      velocity := v; energy_group := 0; lifetime := of_int 0; active := true |}, g4).

(** [Neutron::initFromFission] *)
Definition Neutron_initFromFission (pos : vec3 F) (n : Neutron) (g : G) : Neutron * G :=
  let '(v, g1) := randomDirection g in
  ({| position := pos; velocity := v;
      energy_group := 0; lifetime := of_int 0; active := true |}, g1).

(** The range-for loops over the pool that re-initialise inactive slots:
    [for (auto& n : neutrons) if (!n.active) { init(n); count++;
    if (count >= limit) break; }]. *)
Fixpoint activate_loop (init : Neutron -> G -> Neutron * G) (limit count : Z)
    (ns : list Neutron) (g : G) : list Neutron * G :=
  match ns with
  | [] => ([], g)
  | n :: rest =>
      if negb (active n) then
        let '(n', g1) := init n g in
        if (limit <=? count + 1)%Z then (n' :: rest, g1)
        else let '(rest', g2) := activate_loop init limit (count + 1) rest g1 in
             (n' :: rest', g2)
      else
        let '(rest', g1) := activate_loop init limit count rest g in
        (n :: rest', g1)
  end.

(** The scattering loop over the target groups, on the row of the current
    group. *)
Fixpoint scatter_loop (row : list F) (target_group : nat) (cumulative_prob scatter_r : F)
    (current : nat) : nat :=
  match row with
  | [] => current
  | p :: row' =>
      let c := cumulative_prob + p in
      if scatter_r <? c then target_group
      else scatter_loop row' (S target_group) c scatter_r current
  end.

Definition scatter_group (g : nat) (scatter_r : F) : nat :=
  scatter_loop (nth g SCATTERING_PROBABILITIES []) 0 (of_int 0) scatter_r g.

(** The state of a [NeutronSimulation]. *)
Record Sim : Type := {
  neutrons : list Neutron;
  fission_events : list FissionEvent;
  simulation_time : F;
  random_gen : G
}.

Definition set_neutron (i : nat) (n : Neutron) (s : Sim) (g : G) : Sim :=
  {| neutrons := <[i := n]> (neutrons s);
     fission_events := fission_events s;
     simulation_time := simulation_time s;
     random_gen := g |}.

(** Which [return] of [Neutron::update] a call reaches. *)
Inductive Outcome : Type :=
  | NotActive
  | LifetimeExceeded
  | Absorbed
  | Fission (new_neutrons : Z)
  | Flight (scattered escaped : bool).

(** [std::sqrt(GROUP_ENERGIES[energy_group]) * 2.0f] *)
Definition speed (g : nat) : F := s_sqrt (group_energy g) * of_int 2.

(** The tail of [Neutron::update]: the position update and the boundary
    check. *)
Definition advance (dt : F) (n : Neutron) : Neutron :=
  let sp := speed (energy_group n) in
  let q := (vx (position n) + vx (velocity n) * sp * dt,
            vy (position n) + vy (velocity n) * sp * dt,
            vz (position n) + vz (velocity n) * sp * dt) in
  let n1 := set_position q n in
  if norm3 q >? max_distance P then set_active false n1 else n1.

Definition push_event (e : FissionEvent) (es : list FissionEvent) : list FissionEvent :=
  let es1 := es ++ [e] in
  if (20 <? length es1)%nat then tail es1 else es1.

(** [Neutron::update], called on [neutrons[i]] with the simulation's own
    vector, event queue, clock and generator. *)
Definition Neutron_update (i : nat) (dt : F) (s : Sim) : Sim * Outcome :=
  match neutrons s !! i with
  | None => (s, NotActive)
  | Some n =>
      if negb (active n) then (s, NotActive)
      else
        let n1 := set_lifetime (lifetime n + dt) n in
        if lifetime n1 >? max_lifetime P
        then (set_neutron i (set_active false n1) s (random_gen s), LifetimeExceeded)
        else
          let mean_free_path_energy :=
            mean_free_path P * (of_int 1 + group_energy (energy_group n1) * dec 1 10) in
          let interaction_prob := of_int 1 - s_exp (- dt / mean_free_path_energy) in
          let '(u, g1) := getFloat (random_gen s) in
          if u <? interaction_prob then
            let '(r, g2) := getFloat g1 in
            if r <? of_int 1 - absorption_probability P - fission_probability P then
              let '(v, g3) := randomDirection g2 in
              let '(scatter_r, g4) := getFloat g3 in
              let n2 := set_scatter v (scatter_group (energy_group n1) scatter_r) n1 in
              let n3 := advance dt n2 in
              (set_neutron i n3 s g4, Flight true (negb (active n3)))
            else if r <? of_int 1 - fission_probability P then
              (set_neutron i (set_active false n1) s g2, Absorbed)
            else
              let n2 := set_active false n1 in
              let '(u3, g3) := getFloat g2 in
              let new_neutrons := if u3 <? dec 5 10 then 3%Z else 2%Z in
              let events :=
                push_event {| fe_position := position n2; fe_time := simulation_time s |}
                           (fission_events s) in
              let '(ns, g4) :=
                activate_loop (Neutron_initFromFission (position n2)) new_neutrons 0
                              (<[i := n2]> (neutrons s)) g3 in
              ({| neutrons := ns; fission_events := events;
                  simulation_time := simulation_time s; random_gen := g4 |},
               Fission new_neutrons)
          else
            let n3 := advance dt n1 in
            (set_neutron i n3 s g1, Flight false (negb (active n3)))
  end.

(** *** class NeutronSimulation *)

(** [neutrons[i].init(random_gen)] for [i < initial_count]. *)
Fixpoint init_first (k : nat) (ns : list Neutron) (g : G) : list Neutron * G :=
  match k, ns with
  | S k', n :: rest =>
      let '(n', g1) := Neutron_init n g in
      let '(rest', g2) := init_first k' rest g1 in
      (n' :: rest', g2)
  | _, _ => (ns, g)
  end.

(** [NeutronSimulation()], with the value [rd] of the random device, for a
    count [num_neutrons] that is not negative.  ([neutrons.resize] converts a
    negative count to a size above [max_size()] and throws: then no
    simulation exists, see [main].) *)
Definition NeutronSimulation_new (rd : Z) : Sim :=
  let pool := replicate (Z.to_nat (num_neutrons P)) Neutron_new in
  let initial_count := (num_neutrons P ÷ 3)%Z in
  let '(ns, g) := init_first (Z.to_nat initial_count) pool (RandomGenerator_new rd) in
  {| neutrons := ns; fission_events := []; simulation_time := of_int 0; random_gen := g |}.

(** The periodic source of [NeutronSimulation::update]. *)
Definition respawn (s : Sim) : Sim :=
  if s_fmod (simulation_time s) (of_int 10) <? timestep P then
    let '(ns, g) :=
      activate_loop Neutron_init (num_neutrons P ÷ 10)%Z 0 (neutrons s) (random_gen s) in
    {| neutrons := ns; fission_events := fission_events s;
       simulation_time := simulation_time s; random_gen := g |}
  else s.

Definition tick (s : Sim) : Sim :=
  {| neutrons := neutrons s; fission_events := fission_events s;
     simulation_time := simulation_time s + timestep P; random_gen := random_gen s |}.

(** [for (auto& neutron : neutrons) neutron.update(...)] *)
Definition update_each (s : Sim) : Sim :=
  foldl (fun s i => fst (Neutron_update i (timestep P) s)) s (seq 0 (length (neutrons s))).

(** [NeutronSimulation::update] *)
Definition NeutronSimulation_update (s : Sim) : Sim :=
  update_each (respawn (tick s)).

(** What [generateFrame] writes of the simulation: per energy group the
    positions of the active neutrons, the fission events younger than 5 with
    their age, and the direction segments of the first 30 active neutrons. *)
Record Frame : Type := {
  fr_groups : list (list (vec3 F));
  fr_fission : list (vec3 F * F);
  fr_lines : list (vec3 F * vec3 F)
}.

Definition direction_line (n : Neutron) : vec3 F * vec3 F :=
  let sp := s_sqrt (group_energy (energy_group n)) * dec 5 10 in
  (position n,
   (vx (position n) + vx (velocity n) * sp,
    vy (position n) + vy (velocity n) * sp,
    vz (position n) + vz (velocity n) * sp)).

Definition generateFrame (s : Sim) : Frame :=
  {| fr_groups :=
       map (fun g => map position
              (filter (fun n => active n = true /\ energy_group n = g) (neutrons s)))
           (seq 0 NUM_ENERGY_GROUPS);
     fr_fission :=
       map (fun e => (fe_position e, simulation_time s - fe_time e))
           (filter (fun e => (simulation_time s - fe_time e <? of_int 5) = true)
                   (fission_events s));
     fr_lines :=
       map direction_line (take 30 (filter (fun n => active n = true) (neutrons s))) |}.

(** The frame loop of [main]. *)
Fixpoint frames (k : nat) (s : Sim) : list Frame :=
  match k with
  | O => []
  | S k' => let s1 := NeutronSimulation_update s in generateFrame s1 :: frames k' s1
  end.

(** [main] after the argument loop, with the value [rd] of the random
    device: the frames written, or [None] when the constructor of the
    simulation throws. *)
Definition main (rd : Z) : option (list Frame) :=
  if (num_neutrons P <? 0)%Z then None
  else Some (frames (Z.to_nat (num_frames P)) (NeutronSimulation_new rd)).

(** *** [NeutronSimulation::renderDirections] *)

Definition MAX_DIRECTIONS : Z := 30.

(** [GROUP_COLORS[g]] *)
Definition group_color (g : nat) : vec3 F := nth g GROUP_COLORS vec3_zero.

(** The first loop: [if (n.active) active_count++;
    if (active_count >= MAX_DIRECTIONS) break;]. *)
Fixpoint count_directions (ns : list Neutron) (active_count : Z) : Z :=
  match ns with
  | [] => active_count
  | n :: rest =>
      let c := if active n then (active_count + 1)%Z else active_count in
      if (MAX_DIRECTIONS <=? c)%Z then c else count_directions rest c
  end.

(** The second loop: for an active neutron the two vertex records of its
    segment, each with the colour of its group; then [count++;
    if (count >= MAX_DIRECTIONS) break;].  Returns the records and
    [count]. *)
Fixpoint direction_vertices (ns : list Neutron) (count : Z)
    : list (vec3 F * vec3 F) * Z :=
  match ns with
  | [] => ([], count)
  | n :: rest =>
      if active n then
        let c := group_color (energy_group n) in
        let vs := [(fst (direction_line n), c); (snd (direction_line n), c)] in
        if (MAX_DIRECTIONS <=? count + 1)%Z then (vs, (count + 1)%Z)
        else let '(ws, k) := direction_vertices rest (count + 1)%Z in (vs ++ ws, k)
      else direction_vertices rest count
  end.

(** What follows [LineSet "PC"]: the two counts of the header line, the
    vertex records (position, colour) and the index records [2i 2i+1 -1]. *)
Record LineSet : Type := {
  ls_header : Z * Z;
  ls_vertices : list (vec3 F * vec3 F);
  ls_segments : list (Z * Z)
}.

Definition renderDirections (s : Sim) : LineSet :=
  let active_count := count_directions (neutrons s) 0 in
  if (active_count =? 0)%Z
  then {| ls_header := (0, 0)%Z; ls_vertices := []; ls_segments := [] |}
  else
    let '(vs, count) := direction_vertices (neutrons s) 0 in
    {| ls_header := (active_count * 2, active_count)%Z;
       ls_vertices := vs;
       ls_segments :=
         map (fun i => (Z.of_nat i * 2, Z.of_nat i * 2 + 1)%Z) (seq 0 (Z.to_nat count)) |}.

End Model.

(** *** The command line of [main] *)

Section CommandLine.
Context {F G : Type} {SF : Scalar F} {UG : Uniform F G}.
Import String.
Local Open Scope string_scope.

(** [std::stoi] and [std::stof] are library code: the value they return, or
    [None] when they throw. *)
Variable stoi : string -> option Z.
Variable stof : string -> option F.

Definition set_num_frames (k : Z) (P : Params (F := F)) : Params :=
  {| num_neutrons := num_neutrons P; max_lifetime := max_lifetime P;
     absorption_probability := absorption_probability P;
     fission_probability := fission_probability P;
     mean_free_path := mean_free_path P; source_radius := source_radius P;
     max_distance := max_distance P; timestep := timestep P; num_frames := k |}.

Definition set_num_neutrons (k : Z) (P : Params (F := F)) : Params :=
  {| num_neutrons := k; max_lifetime := max_lifetime P;
     absorption_probability := absorption_probability P;
     fission_probability := fission_probability P;
     mean_free_path := mean_free_path P; source_radius := source_radius P;
     max_distance := max_distance P; timestep := timestep P; num_frames := num_frames P |}.

Definition set_timestep (dt : F) (P : Params (F := F)) : Params :=
  {| num_neutrons := num_neutrons P; max_lifetime := max_lifetime P;
     absorption_probability := absorption_probability P;
     fission_probability := fission_probability P;
     mean_free_path := mean_free_path P; source_radius := source_radius P;
     max_distance := max_distance P; timestep := dt; num_frames := num_frames P |}.

(** How the argument loop of [main] ends: it runs through, with the
    parameters and [use_pnm] it has set; or it prints the usage and returns
    [code]; or [stoi] or [stof] throws. *)
Inductive Parsed : Type :=
  | Proceed (P : Params (F := F)) (use_pnm : bool)
  | Usage (code : Z)
  | Thrown.

(** [for (int i = 1; i < argc; i++)] on the arguments from [argv[i]] on.
    An option is taken with its value only if a further argument exists
    ([i + 1 < argc]); the warning for fewer than 200 neutrons goes to
    [std::cerr] and changes nothing. *)
Fixpoint parse_args (args : list string) (P : Params (F := F)) (use_pnm : bool) : Parsed :=
  match args with
  | [] => Proceed P use_pnm
  | arg :: rest =>
      match rest with
      | value :: rest' =>
          if arg =? "--frames" then
            match stoi value with
            | Some k => parse_args rest' (set_num_frames k P) use_pnm
            | None => Thrown
            end
          else if arg =? "--neutrons" then
            match stoi value with
            | Some k => parse_args rest' (set_num_neutrons k P) use_pnm
            | None => Thrown
            end
          else if arg =? "--time" then
            match stof value with
            | Some dt => parse_args rest' (set_timestep dt P) use_pnm
            | None => Thrown
            end
          else if arg =? "--pnm" then parse_args rest P true
          else if (arg =? "--help") || (arg =? "-h") then Usage 0
          else Usage 1
      | [] =>
          if arg =? "--pnm" then Proceed P true
          else if (arg =? "--help") || (arg =? "-h") then Usage 0
          else Usage 1
      end
  end.

(** [main(argc, argv)] with the value [rd] of the random device: the frames
    written, whether they go to PNM files, and the exit code, [None] when an
    exception leaves [main]. *)
Definition main_argv (argv : list string) (rd : Z) : list Frame * bool * option Z :=
  match parse_args (tail argv) default_params false with
  | Proceed P use_pnm =>
      match main P rd with
      | Some written => (written, use_pnm, Some 0%Z)
      | None => ([], use_pnm, None)
      end
  | Usage code => ([], false, Some code)
  | Thrown => ([], false, None)
  end.

End CommandLine.

End Dynamic.

(** ** Static-mode neutron tracks
    (rd_view/assign4/static_neutron_scene_generator.cc) *)

Module Static.

Section Model.
Context {F G : Type} {SF : Scalar F} {UG : Uniform F G}.
Local Open Scope scalar_scope.

Definition NUM_TRACKS : nat := 250.
Definition POINTS_PER_TRACK : nat := 20.
Definition MAX_TRACK_LENGTH : F := of_int 15.
Definition SOURCE_RADIUS : F := dec 5 10.
Definition CORE_RADIUS : F := of_int 3.
Definition REFLECTOR_RADIUS : F := of_int 6.
Definition CURVATURE_FACTOR : F := dec 4 10.
Definition CORE_ABSORPTION : F := dec 1 10.
Definition REFLECTOR_ABSORPTION : F := dec 4 10.
Definition OUTER_ABSORPTION : F := dec 8 10.

Definition CORE_COLOR : vec3 F := (of_int 1, dec 3 10, dec 3 10).
Definition REFLECTOR_COLOR : vec3 F := (dec 3 10, dec 7 10, of_int 1).
Definition OUTER_COLOR : vec3 F := (of_int 1, of_int 1, dec 3 10).

Definition LINE_THICKNESS : F := dec 15 10.

(** The global [std::mt19937 gen(rd())]: seeded from the random device when
    the program starts; there is no other way to seed it. *)
Definition gen_new (rd : Z) : G := seed_engine rd.

Record TrackPoint : Type := {
  position : vec3 F;
  color : vec3 F;
  active : bool
}.

Definition set_active (b : bool) (p : TrackPoint) : TrackPoint :=
  {| position := position p; color := color p; active := b |}.

(** A [NeutronTrack] is its vector [points]. *)
Abbreviation NeutronTrack := (list TrackPoint).

(** [NeutronTrack() : points(POINTS_PER_TRACK)], every point inactive. *)
Definition NeutronTrack_new : NeutronTrack :=
  replicate POINTS_PER_TRACK
    {| position := vec3_zero; color := vec3_zero; active := false |}.

(** [points[i].active], for an index of the vector. *)
Definition active_at (i : nat) (points : list TrackPoint) : bool :=
  match points !! i with Some p => active p | None => false end.

(** The region of a radial distance: its colour and its absorption
    probability. *)
Definition region (dist : F) : vec3 F * F :=
  if dist <? CORE_RADIUS then (CORE_COLOR, CORE_ABSORPTION)
  else if dist <? REFLECTOR_RADIUS then (REFLECTOR_COLOR, REFLECTOR_ABSORPTION)
  else (OUTER_COLOR, OUTER_ABSORPTION).

(** [dir[k] /= length] with [length] the norm of [dir]. *)
Definition normalize (dir : vec3 F) : vec3 F :=
  let length := norm3 dir in
  (vx dir / length, vy dir / length, vz dir / length).

(** The perturbed direction of one step, before it is normalised. *)
Definition perturbed (dir : vec3 F) (u1 u2 u3 : F) : vec3 F :=
  (vx dir + (u1 * of_int 2 - of_int 1) * CURVATURE_FACTOR,
   vy dir + (u2 * of_int 2 - of_int 1) * CURVATURE_FACTOR,
   vz dir + (u3 * of_int 2 - of_int 1) * CURVATURE_FACTOR).

(** "Perturb direction randomly" and "Renormalize direction" of the loop
    body. *)
Definition perturb_direction (dir : vec3 F) (g : G) : vec3 F * G :=
  let '(u1, g1) := uniform_dist g in
  let '(u2, g2) := uniform_dist g1 in
  let '(u3, g3) := uniform_dist g2 in
  (normalize (perturbed dir u1 u2 u3), g3).

Definition step_length : F := MAX_TRACK_LENGTH / of_int (Z.of_nat POINTS_PER_TRACK).

(** "Update position" of the loop body. *)
Definition step_position (pos dir : vec3 F) : vec3 F :=
  (vx pos + vx dir * step_length,
   vy pos + vy dir * step_length,
   vz pos + vz dir * step_length).

(** [for (int j = from; j < POINTS_PER_TRACK; j++) points[j].active = false] *)
Fixpoint deactivate_from (k from : nat) (points : list TrackPoint) : NeutronTrack :=
  match k with
  | O => points
  | S k' =>
      deactivate_from k' (S from)
        (match points !! from with
         | Some p => <[from := set_active false p]> points
         | None => points
         end)
  end.

(** The loop [for (int i = 1; i < POINTS_PER_TRACK; i++)] of [generate],
    from index [i] with [k] iterations left. *)
Fixpoint generate_loop (k i : nat) (pos dir : vec3 F) (points : list TrackPoint) (g : G)
    : NeutronTrack * G :=
  match k with
  | O => (points, g)
  | S k' =>
      match points !! i with
      | None => (points, g)
      | Some p =>
          if negb (active_at (i - 1) points) then
            generate_loop k' (S i) pos dir (<[i := set_active false p]> points) g
          else
            let '(dir1, g1) := perturb_direction dir g in
            let pos1 := step_position pos dir1 in
            let dist := norm3 pos1 in
            let '(col, absorption_prob) := region dist in
            let '(u, g2) := uniform_dist g1 in
            let points1 := <[i := {| position := pos1; color := col; active := true |}]> points in
            if u <? absorption_prob then
              (deactivate_from (POINTS_PER_TRACK - S i) (S i) points1, g2)
            else
              generate_loop k' (S i) pos1 dir1 points1 g2
      end
  end.

(** [NeutronTrack::generate] *)
Definition generate (points : list TrackPoint) (g : G) : NeutronTrack * G :=
  let '(u1, g1) := uniform_dist g in
  let phi := s_mul_pi (u1 * of_int 2) in
  let '(u2, g2) := uniform_dist g1 in
  let costheta := of_int 2 * u2 - of_int 1 in
  let sintheta := s_sqrt (of_int 1 - costheta * costheta) in
  let '(u3, g3) := uniform_dist g2 in
  let r := SOURCE_RADIUS * s_pow u3 (of_int 1 / of_int 3) in
  let pos := (r * sintheta * s_cos phi, r * sintheta * s_sin phi, r * costheta) in
  let dir := (sintheta * s_cos phi, sintheta * s_sin phi, costheta) in
  let '(u4, g4) := uniform_dist g3 in
  let '(u5, g5) := uniform_dist g4 in
  let '(u6, g6) := uniform_dist g5 in
  let dir := (vx dir + (u4 - dec 5 10) * dec 5 10,
              vy dir + (u5 - dec 5 10) * dec 5 10,
              vz dir + (u6 - dec 5 10) * dec 5 10) in
  let dir := normalize dir in
  let dist := norm3 pos in
  let points0 :=
    match points !! 0%nat with
    | Some _ => <[0%nat := {| position := pos; color := fst (region dist); active := true |}]> points
    | None => points
    end in
  generate_loop (POINTS_PER_TRACK - 1) 1 pos dir points0 g6.

(** [NeutronTracks()]: [NUM_TRACKS] tracks generated in turn on the global
    generator. *)
Fixpoint generate_all (tracks : list NeutronTrack) (g : G) : list NeutronTrack * G :=
  match tracks with
  | [] => ([], g)
  | t :: rest =>
      let '(t', g1) := generate t g in
      let '(rest', g2) := generate_all rest g1 in
      (t' :: rest', g2)
  end.

Definition NeutronTracks_new (g : G) : list NeutronTrack * G :=
  generate_all (replicate NUM_TRACKS NeutronTrack_new) g.

(** The tubes [generateRDScene] writes for one track: a segment from the
    previous point to the current one whenever both are active, in the
    colour of the current point. *)
Fixpoint tubes (prev : option TrackPoint) (points : list TrackPoint)
    : list (vec3 F * vec3 F * vec3 F) :=
  match points with
  | [] => []
  | p :: rest =>
      if active p then
        match prev with
        | Some q => (position q, position p, color p) :: tubes (Some p) rest
        | None => tubes (Some p) rest
        end
      else tubes None rest
  end.

(** [main], with the value [rd] of the random device: the tubes of every
    track. *)
Definition main (rd : Z) : list (list (vec3 F * vec3 F * vec3 F)) :=
  map (tubes None) (fst (NeutronTracks_new (gen_new rd))).

(** *** [NeutronTracks::generateRDScene] *)

(** The counting loop over the points of one track, on
    ([total_active_points], [total_line_segments]). *)
Fixpoint count_points (has_prev : bool) (points : list TrackPoint) (totals : Z * Z) : Z * Z :=
  match points with
  | [] => totals
  | p :: rest =>
      if active p then
        count_points true rest
          ((fst totals + 1)%Z, if has_prev then (snd totals + 1)%Z else snd totals)
      else count_points false rest totals
  end.

Definition count_tracks (tracks : list NeutronTrack) : Z * Z :=
  foldl (fun totals track => count_points false track totals) (0, 0)%Z tracks.

(** What [generateRDScene] writes of the tracks: the number of tube segments
    it announces in the comment line, and then the tubes, track by track. *)
Record Scene : Type := {
  announced_segments : Z;
  track_tubes : list (list (vec3 F * vec3 F * vec3 F))
}.

Definition generateRDScene (tracks : list NeutronTrack) : Scene :=
  {| announced_segments := snd (count_tracks tracks);
     track_tubes := map (tubes None) tracks |}.

End Model.

End Static.

(** ** Fractal terrain (class FractalTerrain) *)

Module Terrain.

Section Model.
Context {F G : Type} {SF : Scalar F} {NG : Normal F G}.
Local Open Scope scalar_scope.

(** The members of a [FractalTerrain].  [rng] stands for the engine together
    with the distribution object [gauss]. *)
Record FractalTerrain : Type := {
  n : nat;
  D : F;
  H : F;
  seed : Z;
  sigma : F;
  grid : list (list F);
  rng : G
}.

(** *** Grid accesses

    [generateTerrain] runs on the pair of the grid and the generator.  An
    index outside the vector is undefined behaviour in C++: the model stops
    with [None]. *)
Record St : Type := { st_grid : list (list F); st_rng : G }.

Definition M (A : Type) : Type := St -> option (A * St).

Definition ret {A : Type} (a : A) : M A := fun s => Some (a, s).

Definition bind {A B : Type} (m : M A) (k : A -> M B) : M B :=
  fun s => match m s with Some (a, s1) => k a s1 | None => None end.

Notation "x <- m ;; k" := (bind m (fun x => k))
  (at level 100, m at next level, right associativity).
Notation "m ;;; k" := (bind m (fun _ => k))
  (at level 100, right associativity).

(** [grid[x][y]] as a value *)
Definition get (x y : nat) : M F :=
  fun s => match st_grid s !! x with
           | Some row => match row !! y with Some v => Some (v, s) | None => None end
           | None => None
           end.

(** [grid[x][y] = v] *)
Definition put (x y : nat) (v : F) : M unit :=
  fun s => match st_grid s !! x with
           | Some row =>
               if (y <? length row)%nat
               then Some (tt, {| st_grid := <[x := <[y := v]> row]> (st_grid s);
                                 st_rng := st_rng s |})
               else None
           | None => None
           end.

(** [Gauss()] *)
Definition Gauss : M F :=
  fun s => Some (fst (normal_dist (st_rng s)),
                 {| st_grid := st_grid s; st_rng := snd (normal_dist (st_rng s)) |}).

(** [InitGauss(seed)] *)
Definition InitGauss (seed : Z) : M unit :=
  fun s => Some (tt, {| st_grid := st_grid s; st_rng := seed_normal seed |}).

Definition f3 (delta x0 x1 x2 : F) : M F :=
  g <- Gauss ;; ret ((x0 + x1 + x2) / of_int 3 + delta * g).

Definition f4 (delta x0 x1 x2 x3 : F) : M F :=
  g <- Gauss ;; ret ((x0 + x1 + x2 + x3) / of_int 4 + delta * g).

(** The values [lo, lo + step, ...] below [hi] that a loop
    [for (x = lo; x < hi; x += step)] visits. *)
Fixpoint range_fuel (fuel lo hi step : nat) : list nat :=
  match fuel with
  | O => []
  | S fuel' => if (lo <? hi)%nat then lo :: range_fuel fuel' (lo + step) hi step else []
  end.

Definition range (lo hi step : nat) : list nat := range_fuel hi lo hi step.

Fixpoint for_each (xs : list nat) (body : nat -> M unit) : M unit :=
  match xs with
  | [] => ret tt
  | x :: rest => body x ;;; for_each rest body
  end.

(** [grid[x][y] = grid[x][y] + delta * Gauss()] *)
Definition jitter (delta : F) (x y : nat) : M unit :=
  v <- get x y ;; g <- Gauss ;; put x y (v + delta * g).

(** [grid[x][y] = f4(delta, grid[x+d][y+d], grid[x+d][y-d],
                     grid[x-d][y+d], grid[x-d][y-d])] *)
Definition diamond (delta : F) (d x y : nat) : M unit :=
  a <- get (x + d) (y + d) ;; b <- get (x + d) (y - d) ;;
  c <- get (x - d) (y + d) ;; e <- get (x - d) (y - d) ;;
  v <- f4 delta a b c e ;; put x y v.

(** [grid[x][y] = f4(delta, grid[x][y+d], grid[x][y-d],
                     grid[x+d][y], grid[x-d][y])] *)
Definition square (delta : F) (d x y : nat) : M unit :=
  a <- get x (y + d) ;; b <- get x (y - d) ;;
  c <- get (x + d) y ;; e <- get (x - d) y ;;
  v <- f4 delta a b c e ;; put x y v.

(** The four boundary edges at offset [x]. *)
Definition edges (delta : F) (N d x : nat) : M unit :=
  a <- get (x + d) 0 ;; b <- get (x - d) 0 ;; c <- get x d ;;
  v <- f3 delta a b c ;; put x 0 v ;;;
  a <- get (x + d) N ;; b <- get (x - d) N ;; c <- get x (N - d) ;;
  v <- f3 delta a b c ;; put x N v ;;;
  a <- get 0 (x + d) ;; b <- get 0 (x - d) ;; c <- get d x ;;
  v <- f3 delta a b c ;; put 0 x v ;;;
  a <- get N (x + d) ;; b <- get N (x - d) ;; c <- get (N - d) x ;;
  v <- f3 delta a b c ;; put N x v.

(** [pow(0.5, 0.5 * H)] *)
Definition shrink (Hurst : F) : F := s_pow (dec 5 10) (dec 5 10 * Hurst).

(** One iteration of the stage loop, with step sizes [D] and [d]; returns the
    reduced [delta]. *)
Definition stage (Hurst : F) (N Dstep d : nat) (delta : F) : M F :=
  let delta1 := delta * shrink Hurst in
  for_each (range d N Dstep) (fun x =>
    for_each (range d N Dstep) (fun y => diamond delta1 d x y)) ;;;
  for_each (range 0 (S N) Dstep) (fun x =>
    for_each (range 0 (S N) Dstep) (fun y => jitter delta1 x y)) ;;;
  let delta2 := delta1 * shrink Hurst in
  for_each (range d N Dstep) (fun x => edges delta2 N d x) ;;;
  for_each (range d N Dstep) (fun x =>
    for_each (range Dstep N Dstep) (fun y => square delta2 d x y)) ;;;
  for_each (range Dstep N Dstep) (fun x =>
    for_each (range d N Dstep) (fun y => square delta2 d x y)) ;;;
  for_each (range 0 (S N) Dstep) (fun x =>
    for_each (range 0 (S N) Dstep) (fun y => jitter delta2 x y)) ;;;
  for_each (range d N Dstep) (fun x =>
    for_each (range d N Dstep) (fun y => jitter delta2 x y)) ;;;
  ret delta2.

(** [for (int stage = 1; stage <= n; stage++)], with [k] stages left. *)
Fixpoint stages (k : nat) (Hurst : F) (N Dstep d : nat) (delta : F) : M unit :=
  match k with
  | O => ret tt
  | S k' =>
      delta' <- stage Hurst N Dstep d delta ;;
      stages k' Hurst N (Dstep / 2) (d / 2) delta'
  end.

(** The body of [generateTerrain] on the grid and the generator.  [N] and
    the loop variables are [int].  For n <= 29 no value exceeds
    2 N <= 2^30, and [1 << n] is 2^n.  With n = 30 the increment [x += D]
    that ends the loop [for (x = 0; x <= N; x += D)] of the first stage
    reaches 2^31, and from n = 31 on the shift [1 << n] leaves [int]: the
    behaviour is undefined and the model stops with [None]. *)
Definition generate (n : nat) (Hurst : F) (seed : Z) (sigma : F) : M unit :=
  if (29 <? n)%nat then fun _ => None
  else
    let N := (2 ^ n)%nat in
    InitGauss seed ;;;
    let delta := sigma in
    g <- Gauss ;; put 0 0 (delta * g) ;;;
    g <- Gauss ;; put 0 N (delta * g) ;;;
    g <- Gauss ;; put N 0 (delta * g) ;;;
    g <- Gauss ;; put N N (delta * g) ;;;
    stages n Hurst N N (N / 2) delta.

(** [FractalTerrain::generateTerrain] *)
Definition generateTerrain (t : FractalTerrain) : option FractalTerrain :=
  match generate (n t) (H t) (seed t) (sigma t) {| st_grid := grid t; st_rng := rng t |} with
  | Some (_, s) =>
      Some {| n := n t; D := D t; H := H t; seed := seed t; sigma := sigma t;
              grid := st_grid s; rng := st_rng s |}
  | None => None
  end.

(** [FractalTerrain(n_val, D_val, seed_val, sigma_val)]; [rng0] is the state
    of the default-constructed members [rng] and [gauss].  [n_val] is an
    [int]: the shift in [int size = (1 << n) + 1] is undefined for a
    negative [n_val] and from 32 on, and it gives a negative size, on which
    [resize] throws, for 31.  In these cases no object is constructed:
    [None]. *)
Definition FractalTerrain_new (rng0 : G) (n_val : Z) (D_val : F) (seed_val : Z)
    (sigma_val : F) : option FractalTerrain :=
  if (n_val <? 0)%Z || (30 <? n_val)%Z then None
  else
    let size := (2 ^ Z.to_nat n_val + 1)%nat in
    generateTerrain
      {| n := Z.to_nat n_val; D := D_val; H := of_int 3 - D_val; seed := seed_val;
         sigma := sigma_val;
         grid := replicate size (replicate size (of_int 0)); rng := rng0 |}.

(** *** Colour mapping *)

(** The function-local statics of [getColor]: one copy for the process. *)
Record HeightCache : Type := {
  minHeight : F;
  maxHeight : F;
  heightsCalculated : bool
}.

Definition HeightCache_init : HeightCache :=
  {| minHeight := of_int 0; maxHeight := of_int 0; heightsCalculated := false |}.

(** The scan [for row : grid, for val : row] that lowers [minHeight] and
    raises [maxHeight]. *)
Definition scan_heights (g : list (list F)) (mn mx : F) : F * F :=
  foldl (fun acc row =>
           foldl (fun acc val => (s_min (fst acc) val, s_max (snd acc) val)) acc row)
        (mn, mx) g.

Definition lerp (t a b : F) : F := a + t * (b - a).

Definition colorLerp (t : F) (a b : vec3 F) : vec3 F :=
  (lerp t (vx a) (vx b), lerp t (vy a) (vy b), lerp t (vz a) (vz b)).

Definition blendWidth : F := dec 3 100.
Definition deepWaterThresh : F := dec 20 100.
Definition shallowWaterThresh : F := dec 30 100.
Definition sandThresh : F := dec 40 100.
Definition grassThresh : F := dec 60 100.
Definition mountainThresh : F := dec 80 100.

Definition deepWaterColor : vec3 F := (of_int 0, of_int 0, dec 5 10).
Definition shallowWaterColor : vec3 F := (of_int 0, of_int 0, dec 8 10).
Definition sandColor : vec3 F := (dec 76 100, dec 7 10, dec 5 10).
Definition grassColor : vec3 F := (of_int 0, dec 6 10, of_int 0).
Definition mountainColor : vec3 F := (dec 5 10, dec 35 100, dec 5 100).
Definition snowColor : vec3 F := (of_int 1, of_int 1, of_int 1).

Definition blend (h thresh : F) (a b : vec3 F) : vec3 F :=
  colorLerp ((h - (thresh - blendWidth)) / (of_int 2 * blendWidth)) a b.

(** The if-else ladder of [getColor] on the normalised height. *)
Definition band_color (h : F) : vec3 F :=
  if h <? deepWaterThresh - blendWidth then deepWaterColor
  else if h <? deepWaterThresh + blendWidth then blend h deepWaterThresh deepWaterColor shallowWaterColor
  else if h <? shallowWaterThresh - blendWidth then shallowWaterColor
  else if h <? shallowWaterThresh + blendWidth then blend h shallowWaterThresh shallowWaterColor sandColor
  else if h <? sandThresh - blendWidth then sandColor
  else if h <? sandThresh + blendWidth then blend h sandThresh sandColor grassColor
  else if h <? grassThresh - blendWidth then grassColor
  else if h <? grassThresh + blendWidth then blend h grassThresh grassColor mountainColor
  else if h <? mountainThresh - blendWidth then mountainColor
  else if h <? mountainThresh + blendWidth then blend h mountainThresh mountainColor snowColor
  else snowColor.

(** [(height - minHeight) / (maxHeight - minHeight)] *)
Definition normalized (c : HeightCache) (height : F) : F :=
  (height - minHeight c) / (maxHeight c - minHeight c).

(** [FractalTerrain::getColor], on the terrain and the process-wide statics;
    [None] when [grid[0][0]] is read outside the grid. *)
Definition getColor (t : FractalTerrain) (height : F) (c : HeightCache)
    : option (vec3 F * HeightCache) :=
  if heightsCalculated c then Some (band_color (normalized c height), c)
  else
    match grid t !! 0%nat with
    | Some row0 =>
        match row0 !! 0%nat with
        | Some v =>
            let '(mn, mx) := scan_heights (grid t) v v in
            let c1 := {| minHeight := mn; maxHeight := mx; heightsCalculated := true |} in
            Some (band_color (normalized c1 height), c1)
        | None => None
        end
    | None => None
    end.

(** The vertex records of [exportToRD]: position and colour of every cell,
    row by row, with the statics threaded through the calls of
    [getColor]. *)
Fixpoint export_row (t : FractalTerrain) (scale : F) (y x : nat) (row : list F)
    (c : HeightCache) : option (list (vec3 F * vec3 F) * HeightCache) :=
  match row with
  | [] => Some ([], c)
  | zPos :: rest =>
      match getColor t zPos c with
      | Some (col, c1) =>
          match export_row t scale y (S x) rest c1 with
          | Some (vs, c2) =>
              Some (((of_int (Z.of_nat x) * scale, of_int (Z.of_nat y) * scale, zPos), col) :: vs, c2)
          | None => None
          end
      | None => None
      end
  end.

Fixpoint export_rows (t : FractalTerrain) (scale : F) (y : nat) (rows : list (list F))
    (c : HeightCache) : option (list (vec3 F * vec3 F) * HeightCache) :=
  match rows with
  | [] => Some ([], c)
  | row :: rest =>
      match export_row t scale y 0 row c with
      | Some (vs, c1) =>
          match export_rows t scale (S y) rest c1 with
          | Some (ws, c2) => Some (vs ++ ws, c2)
          | None => None
          end
      | None => None
      end
  end.

(** The two triangles of the cell at [(x, y)]. *)
Definition cell_faces (size y x : nat) : list (nat * nat * nat) :=
  let v0 := (y * size + x)%nat in
  let v1 := (y * size + (x + 1))%nat in
  let v2 := ((y + 1) * size + x)%nat in
  let v3 := ((y + 1) * size + (x + 1))%nat in
  [(v0, v1, v2); (v1, v3, v2)].

Record PolySet : Type := {
  vertices : list (vec3 F * vec3 F);
  faces : list (nat * nat * nat)
}.

(** The value of an [int] expression, two's-complement on 32 bits. *)
Definition int32 (z : Z) : Z := ((z + 2147483648) mod 4294967296 - 2147483648)%Z.

(** The two counts [exportToRD] writes after [PolySet "PC"]:
    [size * size] and [(size-1) * (size-1) * 2], computed on [int]. *)
Definition polyset_header (t : FractalTerrain) : Z * Z :=
  let size := int32 (Z.of_nat (length (grid t))) in
  (int32 (size * size), int32 (int32 (int32 (size - 1) * int32 (size - 1)) * 2)).

(** [FractalTerrain::exportToRD]; [opened] is the answer of
    [outFile.is_open()].  When the file could not be opened, the function
    returns after the message: nothing is written and the statics of
    [getColor] are left as they are.  Otherwise it returns the PolySet it
    writes; [None] when [grid[0][0]] is read outside the grid. *)
Definition exportToRD (opened : bool) (t : FractalTerrain) (c : HeightCache)
    : option (option PolySet * HeightCache) :=
  if negb opened then Some (None, c)
  else
    let size := length (grid t) in
    let scale := of_int 100 / of_int (Z.of_nat size - 1) in
    match grid t !! 0%nat with
    | Some row0 =>
        match row0 !! 0%nat with
        | Some _ =>
            match export_rows t scale 0 (grid t) c with
            | Some (vs, c1) =>
                Some (Some {| vertices := vs;
                              faces := concat (map (fun y => concat (map (cell_faces size y)
                                                                         (seq 0 (size - 1))))
                                                   (seq 0 (size - 1))) |}, c1)
            | None => None
            end
        | None => None
        end
    | None => None
    end.

End Model.

End Terrain.

(** ** Superquadric surfaces (rd_view/assign4/superQuadrics.cc) *)

Module SuperQuadrics.

Section Model.
Context {F : Type} {SF : Scalar F}.
Local Open Scope scalar_scope.

(** Modelled from the spec: the header cs630.h ([attr_point],
    [render_m_attr], [poly_pipeline], [n_divisions]) is not among the
    sources.  Per the data model a vertex carries a homogeneous position and
    a normal: [coord0] to [coord4] are [coord[0]] to [coord[4]] and [normal]
    is [coord[render_m_attr.normal]] and its two successors, a slot apart
    from the geometry. *)
Record attr_point : Type := {
  coord0 : F;
  coord1 : F;
  coord2 : F;
  coord3 : F;
  coord4 : F;
  normal : vec3 F
}.

Definition set_normal (v : vec3 F) (p : attr_point) : attr_point :=
  {| coord0 := coord0 p; coord1 := coord1 p; coord2 := coord2 p;
     coord3 := coord3 p; coord4 := coord4 p; normal := v |}.

(** [memset(&p, 0, sizeof(attr_point))] *)
Definition attr_point_zero : attr_point :=
  {| coord0 := of_int 0; coord1 := of_int 0; coord2 := of_int 0;
     coord3 := of_int 0; coord4 := of_int 0; normal := vec3_zero |}.

Inductive draw_flag : Type := MOVE | DRAW.

(** The fields of [render_m_attr] that [clear], [add_geometry], [add_normal]
    and [add_shading_offset] decide. *)
Record attr_layout : Type := {
  has_geometry : bool;
  has_normal : bool;
  has_shading_offset : bool
}.

(** Modelled from the spec: the members of [REDirect] the two functions
    touch.  [pipeline] is the stream of vertex records handed to
    [poly_pipeline], oldest first. *)
Record REDirect : Type := {
  n_divisions : nat;
  obj_normal_flag : bool;
  render_m_attr : attr_layout;
  poly_normal : vec3 F;
  pipeline : list (attr_point * draw_flag)
}.

(** The first five statements of both functions. *)
Definition enable_normals (st : REDirect) : REDirect :=
  {| n_divisions := n_divisions st;
     obj_normal_flag := true;
     render_m_attr := {| has_geometry := true; has_normal := true; has_shading_offset := true |};
     poly_normal := poly_normal st;
     pipeline := pipeline st |}.

(** [(v >= 0) ? 1.0f : -1.0f] *)
Definition sgn (v : F) : F := if v >=? of_int 0 then of_int 1 else of_int (-1).

(** [sgn(v) * pow(fabs(v), e)] *)
Definition pow_term (v e : F) : F := sgn v * s_pow (s_fabs v) e.

(** [(float)i / n_divisions] *)
Definition fraction (i n : nat) : F := of_int (Z.of_nat i) / of_int (Z.of_nat n).

(** The body of the evaluation loops of [rd_sqsphere]. *)
Definition sphere_point (radius north east phimin phimax thetamax : F) (n ui vi : nat)
    : attr_point :=
  let theta := s_radians (fraction ui n * thetamax) in
  let cos_theta := s_cos theta in
  let sin_theta := s_sin theta in
  let phi := phimin + fraction vi n * (phimax - phimin) in
  let phi := s_radians phi in
  let cos_phi := s_cos phi in
  let sin_phi := s_sin phi in
  let pow_cos_theta := pow_term cos_theta east in
  let pow_sin_theta := pow_term sin_theta east in
  let pow_cos_phi := pow_term cos_phi north in
  let pow_sin_phi := pow_term sin_phi north in
  {| coord0 := radius * pow_cos_theta * pow_cos_phi;
     coord1 := radius * pow_sin_theta * pow_cos_phi;
     coord2 := radius * pow_sin_phi;
     coord3 := of_int 1;
     coord4 := of_int 1;
     normal := vec3_zero |}.

(** The body of the evaluation loops of [rd_sqtorus]. *)
Definition torus_point (radius1 radius2 north east phimin phimax thetamax : F) (n ui vi : nat)
    : attr_point :=
  let theta := s_radians (fraction ui n * thetamax) in
  let cos_theta := s_cos theta in
  let sin_theta := s_sin theta in
  let pow_cos_theta := pow_term cos_theta east in
  let pow_sin_theta := pow_term sin_theta east in
  let phi := phimin + fraction vi n * (phimax - phimin) in
  let phi := s_radians phi in
  let cos_phi := s_cos phi in
  let sin_phi := s_sin phi in
  let pow_cos_phi := pow_term cos_phi north in
  let pow_sin_phi := pow_term sin_phi north in
  {| coord0 := pow_cos_theta * (radius1 + radius2 * pow_cos_phi);
     coord1 := pow_sin_theta * (radius1 + radius2 * pow_cos_phi);
     coord2 := radius2 * pow_sin_phi;
     coord3 := of_int 1;
     coord4 := of_int 1;
     normal := vec3_zero |}.

(** The grid [grid[ui][vi]] for [ui, vi <= n_divisions]. *)
Definition build_grid (n : nat) (point : nat -> nat -> attr_point) : list (list attr_point) :=
  map (fun ui => map (fun vi => point ui vi) (seq 0 (S n))) (seq 0 (S n)).

(** [grid[ui][vi]] *)
Definition grid_at (g : list (list attr_point)) (ui vi : nat) : attr_point :=
  match g !! ui with
  | Some row => match row !! vi with Some p => p | None => attr_point_zero end
  | None => attr_point_zero
  end.

(** The cross product of the edges [grid[ui+1][vi] - grid[ui][vi]] and
    [grid[ui][vi+1] - grid[ui][vi]]. *)
Definition face_cross (g : list (list attr_point)) (ui vi : nat) : vec3 F :=
  let p := grid_at g ui vi in
  let q := grid_at g (ui + 1) vi in
  let r := grid_at g ui (vi + 1) in
  let v1 := (coord0 q - coord0 p, coord1 q - coord1 p, coord2 q - coord2 p) in
  let v2 := (coord0 r - coord0 p, coord1 r - coord1 p, coord2 r - coord2 p) in
  (vy v1 * vz v2 - vz v1 * vy v2,
   vz v1 * vx v2 - vx v1 * vz v2,
   vx v1 * vy v2 - vy v1 * vx v2).

(** [if (length > 0.0001f) { v[0] /= length; ... }] *)
Definition normalize_guarded (v : vec3 F) : vec3 F :=
  let length := norm3 v in
  if length >? dec 1 10000 then (vx v / length, vy v / length, vz v / length) else v.

(** [accumulated_normals] and [normal_counts], one pair per grid vertex. *)
Definition accumulator : Type := list (list (vec3 F * Z)).

Definition acc_add (nrm : vec3 F) (a : accumulator) (u v : nat) : accumulator :=
  match a !! u with
  | Some row =>
      match row !! v with
      | Some (s, c) =>
          <[u := <[v := ((vx s + vx nrm, vy s + vy nrm, vz s + vz nrm), (c + 1)%Z)]> row]> a
      | None => a
      end
  | None => a
  end.

Definition accumulate_face (g : list (list attr_point)) (a : accumulator) (ui vi : nat)
    : accumulator :=
  let nrm := normalize_guarded (face_cross g ui vi) in
  foldl (fun a i => foldl (fun a j => acc_add nrm a (ui + i) (vi + j)) a [0; 1]%nat) a [0; 1]%nat.

(** The quads [(ui, vi)] for [ui, vi < n_divisions], [ui] outermost. *)
Definition quads (n : nat) : list (nat * nat) :=
  flat_map (fun ui => map (pair ui) (seq 0 n)) (seq 0 n).

Definition accumulate (n : nat) (g : list (list attr_point)) : accumulator :=
  foldl (fun a '(ui, vi) => accumulate_face g a ui vi)
        (replicate (S n) (replicate (S n) (vec3_zero, 0%Z))) (quads n).

(** The averaged and normalised normal of one vertex. *)
Definition average_normal (s : vec3 F) (c : Z) : vec3 F :=
  normalize_guarded (vx s / of_int c, vy s / of_int c, vz s / of_int c).

Definition store_normals (a : accumulator) (g : list (list attr_point))
    : list (list attr_point) :=
  imap (fun ui row =>
          imap (fun vi p =>
                  match a !! ui with
                  | Some arow =>
                      match arow !! vi with
                      | Some (s, c) => if (0 <? c)%Z then set_normal (average_normal s c) p else p
                      | None => p
                      end
                  | None => p
                  end) row) g.

(** One iteration of the rendering loops: the flat normal into
    [poly_normal], the four corners into the pipeline. *)
Definition emit_quad (g : list (list attr_point)) (st : REDirect) (q : nat * nat) : REDirect :=
  let '(ui, vi) := q in
  {| n_divisions := n_divisions st;
     obj_normal_flag := obj_normal_flag st;
     render_m_attr := render_m_attr st;
     poly_normal := normalize_guarded (face_cross g ui vi);
     pipeline := pipeline st ++
       [ (grid_at g ui vi, MOVE); (grid_at g (ui + 1) vi, MOVE);
         (grid_at g (ui + 1) (vi + 1), MOVE); (grid_at g ui (vi + 1), DRAW) ] |}.

(** Everything after the evaluation of the grid, common to both
    functions. *)
Definition render_grid (g : list (list attr_point)) (st : REDirect) : REDirect :=
  let n := n_divisions st in
  let g1 := store_normals (accumulate n g) g in
  foldl (emit_quad g1) st (quads n).

(** The grid of [rd_sqsphere] once the parameters are validated and
    clamped. *)
Definition sqsphere_grid (n : nat) (radius north east zmin zmax thetamax : F)
    : list (list attr_point) :=
  let zmin := if zmin <? - radius then - radius else zmin in
  let zmax := if zmax >? radius then radius else zmax in
  let phimin := s_asin_degrees (zmin / radius) in
  let phimax := s_asin_degrees (zmax / radius) in
  build_grid n (sphere_point radius north east phimin phimax thetamax n).

(** [REDirect::rd_sqsphere] *)
Definition rd_sqsphere (radius north east zmin zmax thetamax : F) (st : REDirect)
    : Z * REDirect :=
  let st := enable_normals st in
  if zmin >? zmax then ((-1)%Z, st)
  else if radius <=? of_int 0 then ((-1)%Z, st)
  else if (thetamax <=? of_int 0) || (thetamax >? of_int 360) then ((-1)%Z, st)
  else if zmin =? zmax then ((-1)%Z, st)
  else
    (0%Z, render_grid (sqsphere_grid (n_divisions st) radius north east zmin zmax thetamax) st).

Definition sqtorus_grid (n : nat) (radius1 radius2 north east phimin phimax thetamax : F)
    : list (list attr_point) :=
  let phimin := if phimin <? of_int (-180) then of_int (-180) else phimin in
  let phimax := if phimax >? of_int 180 then of_int 180 else phimax in
  build_grid n (torus_point radius1 radius2 north east phimin phimax thetamax n).

(** [REDirect::rd_sqtorus] *)
Definition rd_sqtorus (radius1 radius2 north east phimin phimax thetamax : F) (st : REDirect)
    : Z * REDirect :=
  let st := enable_normals st in
  if (radius1 <=? of_int 0) || (radius2 <=? of_int 0) then ((-1)%Z, st)
  else if (thetamax <=? of_int 0) || (thetamax >? of_int 360) then ((-1)%Z, st)
  else if phimin >=? phimax then ((-1)%Z, st)
  else
    (0%Z, render_grid (sqtorus_grid (n_divisions st) radius1 radius2 north east
                                    phimin phimax thetamax) st).

End Model.

Arguments attr_point F : clear implicits.
Arguments REDirect F : clear implicits.

End SuperQuadrics.

(** ** A replay engine

    The draws are given in advance and handed out in order: any sequence of
    draws is a behaviour of [uniform_dist(gen)] the models can be run on. *)

Module Replay.

Section Tape.
Context {F : Type} {SF : Scalar F}.

Definition draw (g : list F) : F * list F :=
  match g with
  | [] => (of_int 0, [])
  | u :: rest => (u, rest)
  end.

Definition uniform : Uniform F (list F) :=
  {| seed_engine := fun _ => []; uniform_dist := draw |}.

End Tape.

End Replay.

(** * Specification terms *)

(** ** Superquadric evaluator *)

Section SuperQuadricsTerms.
Context {F : Type} {SF : Scalar F}.
Local Open Scope scalar_scope.

(** [t] lies in the interval (lo, hi]. *)
Definition within (lo hi t : F) : bool := (lo <? t) && (t <=? hi).

(** The invalid parameter sets of the sphere: radius <= 0, zmin > zmax,
    zmin == zmax, thetamax outside (0, 360]. *)
Definition sphere_invalid (radius zmin zmax thetamax : F) : Prop :=
  (radius <=? of_int 0) = true \/ (zmin >? zmax) = true \/ (zmin =? zmax) = true \/
  within (of_int 0) (of_int 360) thetamax = false.

(** The invalid parameter sets of the torus: radius1 <= 0 or radius2 <= 0,
    phimin >= phimax, thetamax outside (0, 360]. *)
Definition torus_invalid (radius1 radius2 phimin phimax thetamax : F) : Prop :=
  (radius1 <=? of_int 0) = true \/ (radius2 <=? of_int 0) = true \/
  (phimin >=? phimax) = true \/
  within (of_int 0) (of_int 360) thetamax = false.

(** The parameter sets on which one of the tests of [rd_sqsphere] holds. *)
Definition sphere_refused (radius zmin zmax thetamax : F) : Prop :=
  (radius <=? of_int 0) = true \/ (zmin >? zmax) = true \/ (zmin =? zmax) = true \/
  (thetamax <=? of_int 0) = true \/ (thetamax >? of_int 360) = true.

(** The parameter sets on which one of the tests of [rd_sqtorus] holds. *)
Definition torus_refused (radius1 radius2 phimin phimax thetamax : F) : Prop :=
  (radius1 <=? of_int 0) = true \/ (radius2 <=? of_int 0) = true \/
  (phimin >=? phimax) = true \/
  (thetamax <=? of_int 0) = true \/ (thetamax >? of_int 360) = true.

End SuperQuadricsTerms.

Section SuperQuadricsExactTerms.
Import SuperQuadrics.
Local Open Scope R_scope.

(** The position of a vertex has a real value, and
    [x^2 + y^2 + z^2 = radius^2]. *)
Definition on_sphere (radius : R) (p : attr_point (option R)) : Prop :=
  exists x y z,
    coord0 p = Some x /\ coord1 p = Some y /\ coord2 p = Some z /\
    x * x + y * y + z * z = radius * radius.

End SuperQuadricsExactTerms.

(** ** Static-mode tracks *)

Section StaticTerms.
Context {F : Type}.
Import Static.

(** Among the points below index [m], an inactive point is followed by
    inactive points only. *)
Definition prefix_active (m : nat) (points : list (TrackPoint (F := F))) : Prop :=
  forall a b, a < b -> b < m -> active_at a points = false -> active_at b points = false.

End StaticTerms.

Definition is_zero (x : spec_float) : bool :=
  match x with S754_zero _ => true | _ => false end.

Definition zero_vec (v : vec3 spec_float) : bool :=
  is_zero (vx v) && is_zero (vy v) && is_zero (vz v).

Definition nan_vec : vec3 spec_float := (S754_nan, S754_nan, S754_nan).

(** A track whose first point is active, at the iteration [i = 1] with the
    direction (0.4, 0.4, 0.4) and the draws 0, 0, 0 for the perturbation. *)
Definition zero_direction_track : list (Static.TrackPoint (F := spec_float)) :=
  <[0 := {| Static.position := vec3_zero (SF := IEEE.float_ref);
            Static.color := Static.CORE_COLOR (SF := IEEE.float_ref);
            Static.active := true |}]>
    (Static.NeutronTrack_new (SF := IEEE.float_ref)).

Definition zero_direction_dir : vec3 spec_float :=
  (dec (SF := IEEE.float_ref) 4 10, dec (SF := IEEE.float_ref) 4 10,
   dec (SF := IEEE.float_ref) 4 10).

Definition zero_direction_draws : list spec_float :=
  [IEEE.of_Z 24 128 0; IEEE.of_Z 24 128 0; IEEE.of_Z 24 128 0;
   dec (SF := IEEE.float_ref) 99 100].

(** ** Dynamic-mode simulation *)

(** A float that is not below zero: NaN, or a zero, finite number or
    infinity with the sign bit clear. *)
Definition nonneg (x : spec_float) : Prop :=
  match x with
  | S754_zero s | S754_infinity s | S754_finite s _ _ => s = false
  | S754_nan => True
  end.

Section DynamicTerms.
Context {F G : Type} {SF : Scalar F} {UG : Uniform F G}.
Local Open Scope scalar_scope.
Import Dynamic.

Variable P : Params (F := F).

(** [q + v * speed * dt], component by component. *)
Definition displaced (q v : vec3 F) (sp dt : F) : vec3 F :=
  (vx q + vx v * sp * dt, vy q + vy v * sp * dt, vz q + vz v * sp * dt).

(** The four ways [Neutron::update] removes a neutron. *)
Inductive Cause : Type :=
  | LifetimeCause
  | DistanceCause
  | AbsorptionCause
  | FissionCause.

Definition cause_of (o : Outcome) : option Cause :=
  match o with
  | LifetimeExceeded => Some LifetimeCause
  | Absorbed => Some AbsorptionCause
  | Fission _ => Some FissionCause
  | Flight _ true => Some DistanceCause
  | _ => None
  end.

(** The simulation after the constructor and [k] calls of [update]. *)
Fixpoint simulation_after (k : nat) (rd : Z) : Sim (F := F) (G := G) :=
  match k with
  | O => NeutronSimulation_new P rd
  | S k' => NeutronSimulation_update P (simulation_after k' rd)
  end.

(** The probability of an interaction within [dt] for a neutron of group
    [g]: [1.0f - std::exp(-dt / mean_free_path_energy)]. *)
Definition interaction_probability (dt : F) (g : nat) : F :=
  of_int 1 - s_exp (- dt / (mean_free_path P * (of_int 1 + group_energy g * dec 1 10))).

(** The calls [neutron.update(...)] of one pass over the pool: the slot of
    each call and the simulation it finds. *)
Fixpoint update_calls (dt : F) (s : Sim (F := F) (G := G)) (idx : list nat)
    : list (nat * Sim (F := F) (G := G)) :=
  match idx with
  | [] => []
  | i :: rest => (i, s) :: update_calls dt (fst (Neutron_update P i dt s)) rest
  end.

(** The calls of one [NeutronSimulation::update]. *)
Definition step_calls (s : Sim (F := F) (G := G)) : list (nat * Sim (F := F) (G := G)) :=
  let s1 := respawn P (tick P s) in
  update_calls (timestep P) s1 (seq 0 (length (neutrons s1))).

(** The calls of [Neutron::update] in the first [k] calls of
    [NeutronSimulation::update] after the constructor. *)
Fixpoint run_calls (k : nat) (rd : Z) : list (nat * Sim (F := F) (G := G)) :=
  match k with
  | O => []
  | S k' => run_calls k' rd ++ step_calls (simulation_after k' rd)
  end.

(** The call of [update] on slot [i] of the simulation [s0] removes the
    neutron for the cause [c] and leaves it as [n] in its slot:
    - lifetime: the call returns at the lifetime test, and the lifetime of
      [n] exceeds [max_lifetime];
    - distance: the call ends at the boundary test, and the distance of [n]
      from the origin exceeds [max_distance];
    - absorption: the first draw is below the interaction probability and the
      second falls in the absorption band;
    - fission: the first draw is below the interaction probability, the
      second falls in the fission band, and the last entry of
      [fission_events] after the call is the event at the position of [n]
      and the time of the simulation. *)
Definition removed_by (c : Cause) (i : nat) (s0 : Sim (F := F) (G := G))
    (n : Neutron (F := F)) : Prop :=
  let r := Neutron_update P i (timestep P) s0 in
  let u := fst (getFloat (random_gen s0)) in
  let v := fst (getFloat (snd (getFloat (random_gen s0)))) in
  (exists m, neutrons s0 !! i = Some m /\ active m = true) /\
  neutrons (fst r) !! i = Some n /\ active n = false /\
  cause_of (snd r) = Some c /\
  match c with
  | LifetimeCause => (lifetime n >? max_lifetime P) = true
  | DistanceCause => (norm3 (position n) >? max_distance P) = true
  | AbsorptionCause =>
      (u <? interaction_probability (timestep P) (energy_group n)) = true /\
      (v <? of_int 1 - absorption_probability P - fission_probability P) = false /\
      (v <? of_int 1 - fission_probability P) = true
  | FissionCause =>
      (u <? interaction_probability (timestep P) (energy_group n)) = true /\
      (v <? of_int 1 - absorption_probability P - fission_probability P) = false /\
      (v <? of_int 1 - fission_probability P) = false /\
      last (fission_events (fst r))
      = Some {| fe_position := position n; fe_time := simulation_time s0 |}
  end.

(** The slot has never held an initialised neutron: it is as the default
    constructor left it, and so it was at every call of [update] on it. *)
Definition never_initialised (calls : list (nat * Sim (F := F) (G := G))) (j : nat)
    (n : Neutron (F := F)) : Prop :=
  n = Neutron_new /\
  forall s0, In (j, s0) calls -> neutrons s0 !! j = Some Neutron_new.

(** An inactive neutron in slot [j] is accounted for by the calls made. *)
Definition accounted (calls : list (nat * Sim (F := F) (G := G))) (j : nat)
    (n : Neutron (F := F)) : Prop :=
  never_initialised calls j n \/
  exists c s0, In (j, s0) calls /\ removed_by c j s0 n.

(** Every inactive neutron of the pool is accounted for. *)
Definition all_accounted (calls : list (nat * Sim (F := F) (G := G)))
    (s : Sim (F := F) (G := G)) : Prop :=
  forall j n, neutrons s !! j = Some n -> active n = false -> accounted calls j n.

End DynamicTerms.

(** A thermal neutron alone in its pool, in binary32 on the Mersenne Twister
    seeded with 7: with the default parameters and the time step 0.5 its
    update draws an interaction and a scattering. *)
Definition thermal_neutron : Dynamic.Neutron (F := spec_float) :=
  {| Dynamic.position := vec3_zero (SF := IEEE.float_ref);
     Dynamic.velocity := (IEEE.of_Z 24 128 1, IEEE.of_Z 24 128 0, IEEE.of_Z 24 128 0);
     Dynamic.energy_group := 2;
     Dynamic.lifetime := IEEE.of_Z 24 128 0;
     Dynamic.active := true |}.

Definition thermal_pool : Dynamic.Sim (F := spec_float) (G := MT19937.state) :=
  {| Dynamic.neutrons := [thermal_neutron];
     Dynamic.fission_events := [];
     Dynamic.simulation_time := IEEE.of_Z 24 128 0;
     Dynamic.random_gen := MT19937.seed 7 |}.

(** A fast neutron at the origin, alone in its pool, with the draws 0 for the
    interaction test, 0 for the outcome, 0 and 0 for the new direction and 0
    for the new group. *)
Definition fast_neutron : Dynamic.Neutron (F := spec_float) :=
  {| Dynamic.position := vec3_zero (SF := IEEE.float_ref);
     Dynamic.velocity := (IEEE.of_Z 24 128 1, IEEE.of_Z 24 128 0, IEEE.of_Z 24 128 0);
     Dynamic.energy_group := 0;
     Dynamic.lifetime := IEEE.of_Z 24 128 0;
     Dynamic.active := true |}.

Definition scatter_pool : Dynamic.Sim (F := spec_float) (G := list spec_float) :=
  {| Dynamic.neutrons := [fast_neutron];
     Dynamic.fission_events := [];
     Dynamic.simulation_time := IEEE.of_Z 24 128 0;
     Dynamic.random_gen := replicate 5 (IEEE.of_Z 24 128 0) |}.

(** ** Fractal terrain *)

Section TerrainTerms.
Context {F G : Type}.
Import Terrain.

(** The grid is a square of side [size]. *)
Definition dims (size : nat) (g : list (list F)) : Prop :=
  length g = size /\ Forall (fun row => length row = size) g.

(** On a square grid of side [size] the action returns, and leaves a square
    grid of that side. *)
Definition runs {A : Type} (size : nat) (m : @M F G A) : Prop :=
  forall s, dims size (st_grid s) ->
    exists a s', m s = Some (a, s') /\ dims size (st_grid s').

(** A set of grid cells. *)
Definition Cells : Type := nat -> nat -> Prop.

Definition no_cell : Cells := fun _ _ => False.

Definition single (x y : nat) : Cells := fun a b => a = x /\ b = y.

(** The four cells that [edges] writes at offset [x]. *)
Definition rim (N x : nat) : Cells :=
  fun a b => single x 0 a b \/ single x N a b \/ single 0 x a b \/ single N x a b.

(** The cells of [0, N] x [0, N] whose coordinates are multiples of [D]. *)
Definition lattice (N D : nat) : Cells :=
  fun x y => x <= N /\ y <= N /\ (exists i, x = i * D) /\ (exists j, y = j * D).

(** [grid[x][y]], if the cell exists. *)
Definition cell (g : list (list F)) (x y : nat) : option F :=
  match g !! x with Some row => row !! y | None => None end.

(** Two states hold the same generator and square grids of side [size] that
    agree on the cells of [K]. *)
Definition agree (size : nat) (K : Cells) (s1 s2 : @St F G) : Prop :=
  st_rng s1 = st_rng s2 /\ dims size (st_grid s1) /\ dims size (st_grid s2) /\
  forall x y, K x y -> cell (st_grid s1) x y = cell (st_grid s2) x y.

(** Run from two states that agree on a set of cells containing [R], the
    action returns the same value in both and leaves states that agree on
    that set and on [W]: it reads no cell outside [R], and it writes the
    cells of [W]. *)
Definition overwrites {A : Type} (size : nat) (R W : Cells) (m : @M F G A) : Prop :=
  forall (K : Cells) s1 s2, (forall x y, R x y -> K x y) -> agree size K s1 s2 ->
    exists a s1' s2', m s1 = Some (a, s1') /\ m s2 = Some (a, s2') /\
      agree size (fun x y => K x y \/ W x y) s1' s2'.


End TerrainTerms.

(** Two terrains in one process, in binary64: heights 1 to 4 and heights 10
    to 40. *)
Definition low_terrain : Terrain.FractalTerrain (F := spec_float) (G := unit) :=
  {| Terrain.n := 0; Terrain.D := dec (SF := IEEE.double_ref) 25 10;
     Terrain.H := dec (SF := IEEE.double_ref) 5 10; Terrain.seed := 1;
     Terrain.sigma := IEEE.of_Z 53 1024 1;
     Terrain.grid := [ [IEEE.of_Z 53 1024 1; IEEE.of_Z 53 1024 2];
                       [IEEE.of_Z 53 1024 3; IEEE.of_Z 53 1024 4] ];
     Terrain.rng := tt |}.

Definition high_terrain : Terrain.FractalTerrain (F := spec_float) (G := unit) :=
  {| Terrain.n := 0; Terrain.D := dec (SF := IEEE.double_ref) 25 10;
     Terrain.H := dec (SF := IEEE.double_ref) 5 10; Terrain.seed := 2;
     Terrain.sigma := IEEE.of_Z 53 1024 1;
     Terrain.grid := [ [IEEE.of_Z 53 1024 10; IEEE.of_Z 53 1024 20];
                       [IEEE.of_Z 53 1024 30; IEEE.of_Z 53 1024 40] ];
     Terrain.rng := tt |}.

(** ** Superquadric output *)

Section SuperQuadricsOutputTerms.
Context {F : Type} {SF : Scalar F}.
Import SuperQuadrics.

(** The four vertex records of the quad [(ui, vi)], in the order of the
    calls of [poly_pipeline]. *)
Definition quad_records (g : list (list (attr_point F))) (q : nat * nat)
    : list (attr_point F * draw_flag) :=
  [ (grid_at g (fst q) (snd q), MOVE); (grid_at g (fst q + 1) (snd q), MOVE);
    (grid_at g (fst q + 1) (snd q + 1), MOVE); (grid_at g (fst q) (snd q + 1), DRAW) ].

(** [normal_counts[u][v]] *)
Definition count_at (a : accumulator (F := F)) (u v : nat) : Z :=
  match a !! u with
  | Some row => match row !! v with Some (_, c) => c | None => 0%Z end
  | None => 0%Z
  end.

(** [accumulated_normals[u][3v .. 3v+2]] *)
Definition sum_at (a : accumulator (F := F)) (u v : nat) : vec3 F :=
  match a !! u with
  | Some row => match row !! v with Some (s, _) => s | None => vec3_zero end
  | None => vec3_zero
  end.

(** The number of quads along one direction that have the grid line [u] as
    a side: one at the border, two inside. *)
Definition sides (n u : nat) : Z :=
  ((if (u <? n)%nat then 1 else 0) + (if (0 <? u)%nat then 1 else 0))%Z.

(** The accumulator is a square of side [size]. *)
Definition acc_dims (size : nat) (a : accumulator (F := F)) : Prop :=
  length a = size /\ Forall (fun row => length row = size) a.

(** Whether the quad [q] has the vertex [(u, v)] as a corner. *)
Definition touches (u v : nat) (q : nat * nat) : bool :=
  ((fst q =? u)%nat || (fst q + 1 =? u)%nat) && ((snd q =? v)%nat || (snd q + 1 =? v)%nat).

End SuperQuadricsOutputTerms.

(** A renderer state with one division and nothing in the pipeline. *)
Definition one_division : SuperQuadrics.REDirect spec_float :=
  {| SuperQuadrics.n_divisions := 1;
     SuperQuadrics.obj_normal_flag := false;
     SuperQuadrics.render_m_attr :=
       {| SuperQuadrics.has_geometry := false; SuperQuadrics.has_normal := false;
          SuperQuadrics.has_shading_offset := false |};
     SuperQuadrics.poly_normal := vec3_zero (SF := IEEE.float_ref);
     SuperQuadrics.pipeline := [] |}.

(** The same with four divisions. *)
Definition four_divisions : SuperQuadrics.REDirect spec_float :=
  {| SuperQuadrics.n_divisions := 4;
     SuperQuadrics.obj_normal_flag := false;
     SuperQuadrics.render_m_attr :=
       {| SuperQuadrics.has_geometry := false; SuperQuadrics.has_normal := false;
          SuperQuadrics.has_shading_offset := false |};
     SuperQuadrics.poly_normal := vec3_zero (SF := IEEE.float_ref);
     SuperQuadrics.pipeline := [] |}.

(** The three coordinates of the position are NaN. *)
Definition nan_position (p : SuperQuadrics.attr_point spec_float) : bool :=
  IEEE.is_nan (SuperQuadrics.coord0 p) && IEEE.is_nan (SuperQuadrics.coord1 p)
  && IEEE.is_nan (SuperQuadrics.coord2 p).

(** ** Static-mode scene *)

Section StaticSceneTerms.
Context {F : Type}.
Import Static.

(** The number of active points at the head of a track. *)
Fixpoint leading (points : list (TrackPoint (F := F))) : nat :=
  match points with
  | p :: rest => if active p then S (leading rest) else 0
  | [] => 0
  end.

End StaticSceneTerms.

(** ** Dynamic-mode pool *)

Section DynamicPoolTerms.
Context {F : Type}.
Import Dynamic.

(** The number of active neutrons of a pool. *)
Definition actives (ns : list (Neutron (F := F))) : nat :=
  length (filter (fun n => active n = true) ns).

(** The energy group indexes the three-element tables. *)
Definition group_in_range (n : Neutron (F := F)) : Prop := energy_group n < NUM_ENERGY_GROUPS.

(** The pool keeps its size, every energy group stays below
    [NUM_ENERGY_GROUPS], and the queue of fission events holds at most 20. *)
Definition pool_invariant {G : Type} (size : nat) (s : Sim (F := F) (G := G)) : Prop :=
  length (neutrons s) = size /\
  Forall group_in_range (neutrons s) /\
  (length (fission_events s) <= 20)%nat.

End DynamicPoolTerms.

(** A fast neutron followed by two free slots, with the draws 0 for the
    interaction test, 0.9 for the outcome, 0 for the number of new neutrons
    and zeros for their directions. *)
Definition fission_pool : Dynamic.Sim (F := spec_float) (G := list spec_float) :=
  {| Dynamic.neutrons := [fast_neutron; Dynamic.Neutron_new (SF := IEEE.float_ref);
                          Dynamic.Neutron_new (SF := IEEE.float_ref)];
     Dynamic.fission_events := [];
     Dynamic.simulation_time := IEEE.of_Z 24 128 0;
     Dynamic.random_gen :=
       [IEEE.of_Z 24 128 0; dec (SF := IEEE.float_ref) 9 10; IEEE.of_Z 24 128 0] |}.

(** Two fast neutrons and a free slot, with the draws of [fission_pool]. *)
Definition crowded_pool : Dynamic.Sim (F := spec_float) (G := list spec_float) :=
  {| Dynamic.neutrons := [fast_neutron; fast_neutron;
                          Dynamic.Neutron_new (SF := IEEE.float_ref)];
     Dynamic.fission_events := [];
     Dynamic.simulation_time := IEEE.of_Z 24 128 0;
     Dynamic.random_gen :=
       [IEEE.of_Z 24 128 0; dec (SF := IEEE.float_ref) 9 10; IEEE.of_Z 24 128 0] |}.

(** ** Fractal terrain: export *)

Section TerrainExportTerms.
Context {F G : Type} {SF : Scalar F}.
Import Terrain.

(** The statics of [getColor] once it has been called on [t]. *)
Definition settled (t : FractalTerrain (F := F) (G := G)) (c : HeightCache) : HeightCache :=
  if heightsCalculated c then c
  else
    match grid t !! 0%nat with
    | Some row0 =>
        match row0 !! 0%nat with
        | Some v =>
            {| minHeight := fst (scan_heights (grid t) v v);
               maxHeight := snd (scan_heights (grid t) v v);
               heightsCalculated := true |}
        | None => c
        end
    | None => c
    end.

(** The three indices of a face are indices of vertices. *)
Definition face_closed (nv : nat) (f : nat * nat * nat) : Prop :=
  fst (fst f) < nv /\ snd (fst f) < nv /\ snd f < nv.

End TerrainExportTerms.

(** The heights [z] that a terrain flat at the finite height [v] may hold:
    [v] itself, or a zero of either sign when [v] is a zero. *)
Definition level (v z : spec_float) : Prop :=
  IEEE.is_finite v = true /\ (z = v \/ (is_zero v = true /\ is_zero z = true)).

(** A flat 2 by 2 terrain in binary64, as [sigma = 0] leaves it: zeros of
    both signs. *)
Definition flat_terrain : Terrain.FractalTerrain (F := spec_float) (G := unit) :=
  {| Terrain.n := 0; Terrain.D := dec (SF := IEEE.double_ref) 25 10;
     Terrain.H := dec (SF := IEEE.double_ref) 5 10; Terrain.seed := 1;
     Terrain.sigma := S754_zero false;
     Terrain.grid := [ [S754_zero false; S754_zero true];
                       [S754_zero true; S754_zero false] ];
     Terrain.rng := tt |}.

(** Two terrain objects in binary64 on the Mersenne Twister, with the same
    parameters, different heights in their 2 by 2 grids and generators in
    different states. *)
Definition used_terrain (h : Z) (s : Z)
    : Terrain.FractalTerrain (F := spec_float) (G := MT19937.normal_state spec_float) :=
  {| Terrain.n := 0; Terrain.D := dec (SF := IEEE.double_ref) 25 10;
     Terrain.H := dec (SF := IEEE.double_ref) 5 10; Terrain.seed := 42;
     Terrain.sigma := IEEE.of_Z 53 1024 1;
     Terrain.grid := [ [IEEE.of_Z 53 1024 h; IEEE.of_Z 53 1024 (2 * h)];
                       [IEEE.of_Z 53 1024 (3 * h); IEEE.of_Z 53 1024 (4 * h)] ];
     Terrain.rng := {| MT19937.engine := MT19937.seed s; MT19937.saved := None |} |}.

(** * Properties *)

(** Name the components of every pair the goal takes apart. *)
Ltac destruct_pairs :=
  repeat match goal with
         | |- context [let '(_, _) := ?e in _] =>
             let a := fresh "a" in let b := fresh "b" in destruct e as [a b]
         end.

(** ** Superquadric evaluator: validation *)

Section SuperQuadricsValidation.
Context {F : Type} {SF : Scalar F}.
Local Open Scope scalar_scope.
Import SuperQuadrics.

Lemma sqsphere_rejects (radius north east zmin zmax thetamax : F) (st : REDirect F) :
  sphere_refused radius zmin zmax thetamax ->
  rd_sqsphere radius north east zmin zmax thetamax st = ((-1)%Z, enable_normals st).
Proof.
  unfold sphere_refused, rd_sqsphere.
  intros Hbad.
  destruct (zmin >? zmax) eqn:E1; [reflexivity|].
  destruct (radius <=? of_int 0) eqn:E2; [reflexivity|].
  destruct (thetamax <=? of_int 0) eqn:E3; [reflexivity|].
  destruct (thetamax >? of_int 360) eqn:E4; [reflexivity|].
  destruct (zmin =? zmax) eqn:E5; [reflexivity|].
  simpl. destruct Hbad as [Hb|[Hb|[Hb|[Hb|Hb]]]]; discriminate Hb.
Qed.

Lemma sqtorus_rejects (radius1 radius2 north east phimin phimax thetamax : F)
    (st : REDirect F) :
  torus_refused radius1 radius2 phimin phimax thetamax ->
  rd_sqtorus radius1 radius2 north east phimin phimax thetamax st
  = ((-1)%Z, enable_normals st).
Proof.
  unfold torus_refused, rd_sqtorus.
  intros Hbad.
  destruct (radius1 <=? of_int 0) eqn:E1; [reflexivity|].
  destruct (radius2 <=? of_int 0) eqn:E2; [reflexivity|].
  destruct (thetamax <=? of_int 0) eqn:E3; [reflexivity|].
  destruct (thetamax >? of_int 360) eqn:E4; [reflexivity|].
  destruct (phimin >=? phimax) eqn:E5; [reflexivity|].
  simpl. destruct Hbad as [Hb|[Hb|[Hb|[Hb|Hb]]]]; discriminate Hb.
Qed.

End SuperQuadricsValidation.

Section SuperQuadricsValidationIEEE.
Context (L : IEEE.Libm).
Local Open Scope scalar_scope.
Import SuperQuadrics.

Let SF32 : Scalar spec_float := IEEE.binary32 L.
#[local] Existing Instance SF32.

(** Two positive finite numbers are ordered one way or the other. *)
Lemma SFcompare_positive_antisym (m1 m2 : positive) (e1 e2 : Z) (c : comparison) :
  SFcompare (S754_finite false m1 e1) (S754_finite false m2 e2) = Some c ->
  SFcompare (S754_finite false m2 e2) (S754_finite false m1 e1) = Some (CompOpp c).
Proof.
  cbn [SFcompare]. rewrite (Z.compare_antisym e1 e2).
  destruct (e1 ?= e2)%Z; cbn [CompOpp]; intros [= <-]; [|reflexivity..].
  rewrite (Pos.compare_cont_antisym m1 m2 Eq). reflexivity.
Qed.

(** A number outside (0, 360] is below or at 0, or above 360. *)
Lemma outside_refused (t : spec_float) :
  IEEE.is_nan t = false -> within (of_int 0) (of_int 360) t = false ->
  (t <=? of_int 0) = true \/ (t >? of_int 360) = true.
Proof.
  intros Hnan. unfold within.
  change (of_int 0) with (S754_zero false).
  change (of_int 360) with (S754_finite false 11796480 (-15)).
  change (s_ltb (Scalar := SF32)) with SFltb. change (s_leb (Scalar := SF32)) with SFleb.
  generalize 11796480%positive (-15)%Z. intros m360 e360.
  destruct t as [s|s| |s m e]; [| | discriminate |].
  - intros _. left. reflexivity.
  - intros _. destruct s; [left | right]; reflexivity.
  - destruct s; [intros _; left; reflexivity|].
    change (SFltb (S754_zero false) (S754_finite false m e)) with true. cbn [andb].
    unfold SFltb, SFleb.
    destruct (SFcompare (S754_finite false m e) (S754_finite false m360 e360))
      as [c|] eqn:E; [|cbn in E; destruct (e ?= e360)%Z; discriminate].
    rewrite (SFcompare_positive_antisym _ _ _ _ _ E).
    destruct c; cbn [CompOpp]; intros H; try discriminate H. right. reflexivity.
Qed.

Lemma invalid_refused (radius radius2 zmin zmax thetamax : spec_float) :
  IEEE.is_nan thetamax = false ->
  (sphere_invalid radius zmin zmax thetamax -> sphere_refused radius zmin zmax thetamax) /\
  (torus_invalid radius radius2 zmin zmax thetamax ->
   torus_refused radius radius2 zmin zmax thetamax).
Proof.
  intros Hnan. unfold sphere_invalid, sphere_refused, torus_invalid, torus_refused.
  split.
  - intros [H|[H|[H|H]]]; [tauto | tauto | tauto |].
    destruct (outside_refused thetamax Hnan H); tauto.
  - intros [H|[H|[H|H]]]; [tauto | tauto | tauto |].
    destruct (outside_refused thetamax Hnan H); tauto.
Qed.


End SuperQuadricsValidationIEEE.



(** ** Static-mode tracks: the active points form a prefix *)

Section StaticTracks.
Context {F G : Type} {SF : Scalar F} {UG : Uniform F G}.
Import Static.

Lemma active_at_insert (i j : nat) (p : TrackPoint (F := F)) (points : list TrackPoint) :
  i < length points ->
  active_at j (<[i := p]> points) = if decide (j = i) then active p else active_at j points.
Proof.
  intros Hi. unfold active_at. destruct (decide (j = i)) as [->|Hne].
  - rewrite list_lookup_insert_eq by exact Hi. reflexivity.
  - rewrite list_lookup_insert_ne by congruence. reflexivity.
Qed.

Lemma active_at_beyond (j : nat) (points : list (TrackPoint (F := F))) :
  length points <= j -> active_at j points = false.
Proof.
  intros Hj. unfold active_at. rewrite lookup_ge_None_2 by exact Hj. reflexivity.
Qed.

Lemma deactivate_from_length (k from : nat) (points : list (TrackPoint (F := F))) :
  length (deactivate_from k from points) = length points.
Proof.
  revert from points. induction k as [|k IH]; intros from points; simpl; [reflexivity|].
  rewrite IH. destruct (points !! from); [apply length_insert | reflexivity].
Qed.

Lemma deactivate_from_active (k from j : nat) (points : list (TrackPoint (F := F))) :
  active_at j (deactivate_from k from points)
  = if decide (from <= j < from + k) then false else active_at j points.
Proof.
  revert from points. induction k as [|k IH]; intros from points; simpl.
  - destruct (decide (from <= j < from + 0)); [lia | reflexivity].
  - rewrite IH.
    assert (Hone : active_at j (match points !! from with
                                | Some p => <[from := set_active false p]> points
                                | None => points
                                end)
                   = if decide (j = from) then false else active_at j points).
    { destruct (points !! from) as [p|] eqn:Ep.
      - rewrite active_at_insert by (eapply lookup_lt_Some; exact Ep). reflexivity.
      - destruct (decide (j = from)) as [->|]; [|reflexivity].
        unfold active_at. rewrite Ep. reflexivity. }
    rewrite Hone.
    destruct (decide (S from <= j < S from + k)), (decide (from <= j < from + S k)),
      (decide (j = from)); try reflexivity; lia.
Qed.

Lemma generate_loop_prefix (k i : nat) (pos dir : vec3 F) (points : list TrackPoint) (g : G) :
  length points = POINTS_PER_TRACK -> 1 <= i -> i + k = POINTS_PER_TRACK ->
  prefix_active i points ->
  length (fst (generate_loop k i pos dir points g)) = POINTS_PER_TRACK /\
  prefix_active POINTS_PER_TRACK (fst (generate_loop k i pos dir points g)) /\
  active_at 0 (fst (generate_loop k i pos dir points g)) = active_at 0 points.
Proof.
  revert i pos dir points g.
  induction k as [|k IH]; intros i pos dir points g Hlen Hi Hik Hpre.
  - cbn [generate_loop fst]. replace i with POINTS_PER_TRACK in Hpre by lia. auto.
  - cbn [generate_loop].
    destruct (points !! i) as [p|] eqn:Ep.
    2:{ apply lookup_ge_None_1 in Ep. lia. }
    assert (Hlt : i < length points) by (eapply lookup_lt_Some; exact Ep).
    destruct (active_at (i - 1) points) eqn:Eprev; cbn [negb].
    + destruct (perturb_direction dir g) as [dir1 g1].
      destruct (region (norm3 (step_position pos dir1))) as [col absorption_prob].
      destruct (uniform_dist g1) as [u g2].
      set (points1 := <[i := {| position := step_position pos dir1; color := col;
                                active := true |}]> points).
      assert (Hlen1 : length points1 = POINTS_PER_TRACK).
      { unfold points1. rewrite length_insert. exact Hlen. }
      assert (Hpre1 : prefix_active (S i) points1).
      { intros a b Hab Hb Ha. unfold points1 in *.
        rewrite active_at_insert in Ha by exact Hlt.
        rewrite active_at_insert by exact Hlt.
        destruct (decide (a = i)) as [->|Hai]; [lia|].
        destruct (decide (b = i)) as [->|Hbi].
        - exfalso. destruct (decide (a = i - 1)) as [->|Ha1]; [congruence|].
          assert (active_at (i - 1) points = false) by (apply (Hpre a); [lia | lia | exact Ha]).
          congruence.
        - apply (Hpre a); [lia | lia | exact Ha]. }
      assert (H0 : active_at 0 points1 = active_at 0 points).
      { unfold points1. rewrite active_at_insert by exact Hlt.
        destruct (decide (0 = i)); [lia | reflexivity]. }
      destruct (s_ltb u absorption_prob); cbn [fst].
      * split; [|split].
        -- rewrite deactivate_from_length. exact Hlen1.
        -- intros a b Hab Hb Ha.
           rewrite deactivate_from_active in Ha. rewrite deactivate_from_active.
           destruct (decide (S i <= b < S i + (POINTS_PER_TRACK - S i))); [reflexivity|].
           destruct (decide (S i <= a < S i + (POINTS_PER_TRACK - S i))); [lia|].
           apply (Hpre1 a); [lia | lia | exact Ha].
        -- rewrite deactivate_from_active.
           destruct (decide (S i <= 0 < S i + (POINTS_PER_TRACK - S i))); [lia | exact H0].
      * destruct (IH (S i) (step_position pos dir1) dir1 points1 g2) as (IH1 & IH2 & IH3);
          [exact Hlen1 | lia | lia | exact Hpre1 |].
        split; [exact IH1 | split; [exact IH2 | congruence]].
    + set (points1 := <[i := set_active false p]> points).
      assert (Hlen1 : length points1 = POINTS_PER_TRACK).
      { unfold points1. rewrite length_insert. exact Hlen. }
      assert (Hpre1 : prefix_active (S i) points1).
      { intros a b Hab Hb Ha. unfold points1 in *.
        rewrite active_at_insert in Ha by exact Hlt.
        rewrite active_at_insert by exact Hlt.
        destruct (decide (b = i)) as [->|Hbi]; [reflexivity|].
        destruct (decide (a = i)) as [->|Hai]; [lia|].
        apply (Hpre a); [lia | lia | exact Ha]. }
      destruct (IH (S i) pos dir points1 g) as (IH1 & IH2 & IH3);
        [exact Hlen1 | lia | lia | exact Hpre1 |].
      split; [exact IH1 | split; [exact IH2 |]].
      rewrite IH3. unfold points1. rewrite active_at_insert by exact Hlt.
      destruct (decide (0 = i)); [lia | reflexivity].
Qed.

(** C10.  After [NeutronTrack::generate], on a track of [POINTS_PER_TRACK]
    points whatever their previous content and whatever the generator draws,
    [points[0]] is active and the active points are a contiguous prefix: once
    a point is inactive, every point with a larger index is inactive. *)
Theorem generate_active_prefix (points : list (TrackPoint (F := F))) (g : G) :
  length points = POINTS_PER_TRACK ->
  length (fst (generate points g)) = POINTS_PER_TRACK /\
  active_at 0 (fst (generate points g)) = true /\
  forall i j, i < j -> j < POINTS_PER_TRACK ->
    active_at i (fst (generate points g)) = false ->
    active_at j (fst (generate points g)) = false.
Proof.
  intros Hlen. unfold generate.
  destruct_pairs.
  destruct (points !! 0) as [p0|] eqn:E0.
  2:{ apply lookup_ge_None_1 in E0. unfold POINTS_PER_TRACK in Hlen. lia. }
  match goal with
  | |- context [generate_loop ?k ?i ?pos ?dir ?pts ?gg] =>
      destruct (generate_loop_prefix k i pos dir pts gg) as (H1 & H2 & H3)
  end.
  - rewrite length_insert. exact Hlen.
  - lia.
  - reflexivity.
  - intros x y Hxy Hy. lia.
  - split; [exact H1 | split].
    + rewrite H3. rewrite active_at_insert by (unfold POINTS_PER_TRACK in Hlen; lia).
      reflexivity.
    + exact H2.
Qed.

End StaticTracks.

(** The freshly constructed track, generated in binary32 on the Mersenne
    Twister seeded with 7. *)
Lemma generate_active_prefix_witness :
  let points := Static.NeutronTrack_new (SF := IEEE.float_ref) in
  let r := fst (Static.generate (SF := IEEE.float_ref) (UG := MT19937.uniform (SF := IEEE.float_ref)) points
                                (MT19937.seed 7)) in
  length points = Static.POINTS_PER_TRACK /\
  length r = Static.POINTS_PER_TRACK /\
  Static.active_at 0 r = true /\
  forall i j, i < j -> j < Static.POINTS_PER_TRACK ->
    Static.active_at i r = false -> Static.active_at j r = false.
Proof.
  intros points r. split; [reflexivity|].
  apply (generate_active_prefix (SF := IEEE.float_ref) (UG := MT19937.uniform (SF := IEEE.float_ref))
           points (MT19937.seed 7)).
  reflexivity.
Defined.

(** ** Static-mode tracks: renormalising a zero direction *)

Section StaticRenormalisation.
Context {G : Type} (L : IEEE.Libm) {UG : Uniform spec_float G}.
Import Static.

Let SF32 : Scalar spec_float := IEEE.binary32 L.
#[local] Existing Instance SF32.

Lemma normalize_zero_vec (v : vec3 spec_float) :
  zero_vec v = true -> normalize v = nan_vec.
Proof.
  destruct v as [[x y] z]. unfold zero_vec. simpl.
  destruct x as [sx| | |]; try discriminate.
  destruct y as [sy| | |]; try discriminate.
  destruct z as [sz| | |]; try discriminate.
  intros _. destruct sx, sy, sz; vm_compute; reflexivity.
Qed.

Lemma step_position_nan (pos : vec3 spec_float) :
  step_position pos nan_vec = nan_vec.
Proof.
  destruct pos as [[x y] z]. unfold step_position, nan_vec. simpl.
  destruct x, y, z; reflexivity.
Qed.

Lemma deactivate_from_below (k from j : nat) (points : list (TrackPoint (F := spec_float))) :
  j < from -> deactivate_from k from points !! j = points !! j.
Proof.
  revert from points. induction k as [|k IH]; intros from points Hj; simpl; [reflexivity|].
  rewrite IH by lia.
  destruct (points !! from); [|reflexivity].
  apply list_lookup_insert_ne. lia.
Qed.

Lemma generate_loop_below (k i j : nat) (pos dir : vec3 spec_float)
    (points : list (TrackPoint (F := spec_float))) (g : G) :
  j < i -> fst (generate_loop k i pos dir points g) !! j = points !! j.
Proof.
  revert i pos dir points g.
  induction k as [|k IH]; intros i pos dir points g Hj; cbn [generate_loop]; [reflexivity|].
  destruct (points !! i) as [p|]; [|reflexivity].
  destruct (negb (active_at (i - 1) points)).
  - rewrite IH by lia. apply list_lookup_insert_ne. lia.
  - destruct_pairs.
    match goal with |- context [if ?c then _ else _] => destruct c end; cbn [fst].
    + rewrite deactivate_from_below by lia. apply list_lookup_insert_ne. lia.
    + rewrite IH by lia. apply list_lookup_insert_ne. lia.
Qed.


End StaticRenormalisation.



(** ** The draws of the reference engine are not negative *)

Section DrawSign.
Variables prec emax : Z.

Lemma nonneg_not_below_zero (x : spec_float) :
  nonneg x -> SFltb x (S754_zero false) = false.
Proof.
  destruct x as [s|s| |s m e]; simpl; intros Hs; try subst s; reflexivity.
Qed.

Lemma binary_round_aux_nonneg (m e : Z) (l : location) :
  nonneg (binary_round_aux prec emax false m e l).
Proof.
  unfold binary_round_aux.
  destruct (shr_fexp prec emax m e l) as [mrs e1].
  destruct (shr_fexp prec emax _ e1 loc_Exact) as [mrs2 e2].
  destruct (shr_m mrs2); simpl; try reflexivity.
  destruct (Z.leb e2 (emax - prec)); reflexivity.
Qed.

Lemma of_Z_nonneg (w : Z) : (0 <= w)%Z -> nonneg (IEEE.of_Z prec emax w).
Proof.
  intros Hw. unfold IEEE.of_Z, binary_normalize.
  destruct w as [|p|p]; [reflexivity| |lia].
  unfold binary_round.
  destruct (shl_align p 0 _) as [mz ez]. apply binary_round_aux_nonneg.
Qed.

Lemma SFdiv_nonneg (x : spec_float) (m : positive) (e : Z) :
  nonneg x -> nonneg (SFdiv prec emax x (S754_finite false m e)).
Proof.
  destruct x as [s|s| |s mx ex]; simpl; intros Hs; try subst s; try reflexivity.
  destruct (SFdiv_core_binary prec emax (Z.pos mx) ex (Z.pos m) e) as [[mz ez] lz].
  apply binary_round_aux_nonneg.
Qed.

Lemma SFmul_nonneg (x : spec_float) (m : positive) (e : Z) :
  nonneg x -> nonneg (SFmul prec emax x (S754_finite false m e)).
Proof.
  destruct x as [s|s| |s mx ex]; simpl; intros Hs; try subst s; try reflexivity.
  apply binary_round_aux_nonneg.
Qed.

Lemma SFadd_zero_nonneg (x : spec_float) :
  nonneg x -> nonneg (SFadd prec emax x (S754_zero false)).
Proof.
  destruct x as [s|s| |s mx ex]; simpl; intros Hs; try subst s; reflexivity.
Qed.

End DrawSign.

Lemma word_nonneg (z : Z) : (0 <= MT19937.word z)%Z.
Proof. unfold MT19937.word. apply Z.land_nonneg. right. lia. Qed.

Lemma mt_uniform_nonneg (L : IEEE.Libm) (g : MT19937.state) :
  SFltb (fst (uniform_dist (Uniform := MT19937.uniform (SF := IEEE.binary32 L)) g))
        (S754_zero false) = false.
Proof.
  apply nonneg_not_below_zero.
  cbn [uniform_dist MT19937.uniform MT19937.uniform01 fst].
  unfold MT19937.canonical.
  set (w := fst (MT19937.next g)).
  assert (Hw : (0 <= w)%Z) by (unfold w, MT19937.next; cbn [fst]; apply word_nonneg).
  apply (SFadd_zero_nonneg 24 128).
  apply (SFmul_nonneg 24 128 _ 8388608 (-23)).
  match goal with |- context [if ?c then _ else _] => destruct c end.
  - reflexivity.
  - apply (SFdiv_nonneg 24 128 _ 8388608 9). apply of_Z_nonneg. exact Hw.
Qed.

(** ** Dynamic mode: scattering never raises the energy *)

Section DynamicScattering.
Context {G : Type} (L : IEEE.Libm) {UG : Uniform spec_float G}.
Import Dynamic.

Let SF32 : Scalar spec_float := IEEE.binary32 L.
#[local] Existing Instance SF32.

Variable P : Params (F := spec_float).

Lemma advance_energy_group (dt : spec_float) (n : Neutron) :
  energy_group (advance P dt n) = energy_group n.
Proof.
  unfold advance. destruct (s_ltb _ _); reflexivity.
Qed.

Lemma group_energy_le_refl (g : nat) :
  g < NUM_ENERGY_GROUPS -> SFleb (group_energy g) (group_energy g) = true.
Proof.
  unfold NUM_ENERGY_GROUPS. intros Hg.
  destruct g as [|[|[|g]]]; [reflexivity | reflexivity | reflexivity | lia].
Qed.

(** The scattering loop on the rows of the transition matrix, for a draw
    that is not below zero. *)
Lemma scatter_group_down (g : nat) (scatter_r : spec_float) :
  g < NUM_ENERGY_GROUPS ->
  SFltb scatter_r (S754_zero false) = false ->
  g <= scatter_group g scatter_r < NUM_ENERGY_GROUPS /\
  SFleb (group_energy (scatter_group g scatter_r)) (group_energy g) = true /\
  (g = 2 -> scatter_group g scatter_r = 2).
Proof.
  unfold NUM_ENERGY_GROUPS. intros Hg Hr.
  destruct g as [|[|[|g]]]; [| | |lia];
    unfold scatter_group; cbn [nth SCATTERING_PROBABILITIES scatter_loop].
  - repeat match goal with |- context [if ?c then _ else _] => destruct c end;
      (split; [lia | split; [reflexivity | intros; lia]]).
  - change (s_add (of_int 0) (of_int 0)) with (S754_zero false).
    change (s_ltb scatter_r (S754_zero false)) with (SFltb scatter_r (S754_zero false)).
    rewrite Hr.
    repeat match goal with |- context [if ?c then _ else _] => destruct c end;
      (split; [lia | split; [reflexivity | intros; lia]]).
  - change (s_add (s_add (of_int 0) (of_int 0)) (of_int 0)) with (S754_zero false).
    change (s_add (of_int 0) (of_int 0)) with (S754_zero false).
    change (s_ltb scatter_r (S754_zero false)) with (SFltb scatter_r (S754_zero false)).
    rewrite Hr.
    repeat match goal with |- context [if ?c then _ else _] => destruct c end;
      (split; [lia | split; [reflexivity | intros; lia]]).
Qed.

(** C7.  With draws that are not below zero, as [uniform_dist(gen)] gives
    them, a call of [Neutron::update] that does not end in a fission leaves
    the neutron in its group or moves it to a group of lower energy: the
    group index does not decrease, the group energy does not increase, and a
    thermal neutron (group 2) stays thermal. *)
Theorem scattering_never_gains_energy (i : nat) (dt : spec_float) (s : Sim) (n : Neutron) :
  (forall g : G, SFltb (fst (uniform_dist g)) (S754_zero false) = false) ->
  neutrons s !! i = Some n ->
  energy_group n < NUM_ENERGY_GROUPS ->
  (forall k, snd (Neutron_update P i dt s) <> Fission k) ->
  exists n', neutrons (fst (Neutron_update P i dt s)) !! i = Some n' /\
    energy_group n <= energy_group n' < NUM_ENERGY_GROUPS /\
    SFleb (group_energy (energy_group n')) (group_energy (energy_group n)) = true /\
    (energy_group n = 2 -> energy_group n' = 2).
Proof.
  intros Hdraw Hn Hg Hnofission.
  assert (Hlt : i < length (neutrons s)) by (eapply lookup_lt_Some; exact Hn).
  assert (Hsame : forall n' : Neutron (F := spec_float), energy_group n' = energy_group n ->
            energy_group n <= energy_group n' < NUM_ENERGY_GROUPS /\
            SFleb (group_energy (energy_group n')) (group_energy (energy_group n)) = true /\
            (energy_group n = 2 -> energy_group n' = 2)).
  { intros n' ->. split; [lia | split; [apply group_energy_le_refl; exact Hg | auto]]. }
  revert Hnofission. unfold Neutron_update. rewrite Hn.
  destruct (active n); cbn [negb].
  2:{ intros _. exists n. split; [exact Hn | apply Hsame; reflexivity]. }
  destruct (s_ltb (max_lifetime P) _).
  { intros _. eexists. split; [apply list_lookup_insert_eq; exact Hlt | apply Hsame; reflexivity]. }
  unfold getFloat.
  destruct (uniform_dist (random_gen s)) as [u g1].
  destruct (s_ltb u _).
  2:{ intros _. eexists. split; [apply list_lookup_insert_eq; exact Hlt |].
      apply Hsame. rewrite advance_energy_group. reflexivity. }
  destruct (uniform_dist g1) as [r g2].
  destruct (s_ltb r _).
  { destruct (randomDirection g2) as [v g3].
    pose proof (Hdraw g3) as Hr.
    destruct (uniform_dist g3) as [scatter_r g4]. cbn [fst] in Hr.
    intros _. eexists. split; [apply list_lookup_insert_eq; exact Hlt |].
    rewrite advance_energy_group. cbn [set_scatter energy_group set_lifetime].
    apply scatter_group_down; assumption. }
  destruct (s_ltb r _).
  { intros _. eexists. split; [apply list_lookup_insert_eq; exact Hlt | apply Hsame; reflexivity]. }
  destruct (uniform_dist g2) as [u3 g3].
  destruct (activate_loop _ _ _ _ _) as [ns g4].
  cbn [snd]. intros Hnofission. exfalso. eapply Hnofission. reflexivity.
Qed.

End DynamicScattering.

Lemma scattering_never_gains_energy_witness :
  let P := Dynamic.default_params (SF := IEEE.float_ref) in
  let r := Dynamic.Neutron_update (SF := IEEE.float_ref)
             (UG := MT19937.uniform (SF := IEEE.float_ref)) P 0
             (dec (SF := IEEE.float_ref) 1 2) thermal_pool in
  snd r = Dynamic.Flight true false /\
  exists n', Dynamic.neutrons (fst r) !! 0 = Some n' /\
    Dynamic.energy_group thermal_neutron <= Dynamic.energy_group n'
      < Dynamic.NUM_ENERGY_GROUPS /\
    SFleb (Dynamic.group_energy (SF := IEEE.float_ref) (Dynamic.energy_group n'))
          (Dynamic.group_energy (SF := IEEE.float_ref)
             (Dynamic.energy_group thermal_neutron)) = true /\
    (Dynamic.energy_group thermal_neutron = 2 -> Dynamic.energy_group n' = 2).
Proof.
  intros P r. split; [vm_compute; reflexivity|].
  apply (scattering_never_gains_energy (IEEE.libm_ref 24 128)
           (UG := MT19937.uniform (SF := IEEE.float_ref)) P 0
           (dec (SF := IEEE.float_ref) 1 2) thermal_pool thermal_neutron).
  - intros g. apply mt_uniform_nonneg.
  - reflexivity.
  - unfold Dynamic.NUM_ENERGY_GROUPS. simpl. lia.
  - intros k. vm_compute. discriminate.
Defined.

(** ** Dynamic mode: when the position is advanced *)

Section DynamicAdvance.
Context {F G : Type} {SF : Scalar F} {UG : Uniform F G}.
Local Open Scope scalar_scope.
Import Dynamic.

Variable P : Params (F := F).

Lemma advance_position (dt : F) (n : Neutron) :
  position (advance P dt n)
  = displaced (position n) (velocity n) (speed (energy_group n)) dt.
Proof.
  unfold advance. destruct (s_ltb _ _); reflexivity.
Qed.

Lemma advance_velocity (dt : F) (n : Neutron) :
  velocity (advance P dt n) = velocity n.
Proof.
  unfold advance. destruct (s_ltb _ _); reflexivity.
Qed.

Lemma advance_group (dt : F) (n : Neutron) :
  energy_group (advance P dt n) = energy_group n.
Proof.
  unfold advance. destruct (s_ltb _ _); reflexivity.
Qed.

Lemma advance_lifetime (dt : F) (n : Neutron) :
  lifetime (advance P dt n) = lifetime n.
Proof.
  unfold advance. destruct (s_ltb _ _); reflexivity.
Qed.

Lemma activate_loop_length (init : Neutron (F := F) -> G -> Neutron (F := F) * G) (limit count : Z)
    (ns : list Neutron) (g : G) :
  length (fst (activate_loop init limit count ns g)) = length ns.
Proof.
  revert count g. induction ns as [|n rest IH]; intros count g; simpl; [reflexivity|].
  destruct (active n); cbn [negb].
  - specialize (IH count g). destruct (activate_loop init limit count rest g) as [rest' g1].
    simpl in *. congruence.
  - destruct (init n g) as [n' g1].
    destruct (limit <=? count + 1)%Z; [reflexivity|].
    specialize (IH (count + 1)%Z g1).
    destruct (activate_loop init limit (count + 1) rest g1) as [rest' g2].
    simpl in *. congruence.
Qed.

(** A slot after the loop is the slot before it, or an inactive slot that
    the loop re-initialised. *)
Lemma activate_loop_lookup (init : Neutron (F := F) -> G -> Neutron (F := F) * G) (limit count : Z)
    (ns : list Neutron) (g : G) (j : nat) (n : Neutron) :
  ns !! j = Some n ->
  fst (activate_loop init limit count ns g) !! j = Some n \/
  (active n = false /\
   exists g', fst (activate_loop init limit count ns g) !! j = Some (fst (init n g'))).
Proof.
  revert count g j. induction ns as [|m rest IH]; intros count g j Hj; [discriminate|].
  simpl. destruct (active m) eqn:Em; cbn [negb].
  - specialize (IH count g).
    destruct (activate_loop init limit count rest g) as [rest' g1]. cbn [fst] in *.
    destruct j as [|j]; [left; exact Hj|].
    apply (IH j). exact Hj.
  - destruct (init m g) as [m' g1] eqn:Einit.
    destruct (limit <=? count + 1)%Z.
    + cbn [fst]. destruct j as [|j]; [|left; exact Hj].
      injection Hj as <-. right. split; [exact Em|].
      exists g. rewrite Einit. reflexivity.
    + specialize (IH (count + 1)%Z g1).
      destruct (activate_loop init limit (count + 1) rest g1) as [rest' g2]. cbn [fst] in *.
      destruct j as [|j]; [|apply (IH j); exact Hj].
      injection Hj as <-. right. split; [exact Em|].
      exists g. rewrite Einit. reflexivity.
Qed.

Lemma initFromFission_position (pos : vec3 F) (n : Neutron) (g : G) :
  position (fst (Neutron_initFromFission pos n g)) = pos.
Proof.
  unfold Neutron_initFromFission. destruct (randomDirection g). reflexivity.
Qed.

(** C1, as the code has it.  A call of [Neutron::update] on an active neutron
    advances the position exactly when it falls through to the position
    update, which it does after no interaction and after a scattering alike:
    the position then moves by velocity * speed * dt for the velocity and
    the group the neutron has after the call.  When the lifetime is
    exceeded, and after an absorption or a fission, the position is the one
    before the call. *)
Theorem position_advance (i : nat) (dt : F) (s : Sim) (n : Neutron) :
  neutrons s !! i = Some n ->
  active n = true ->
  exists n', neutrons (fst (Neutron_update P i dt s)) !! i = Some n' /\
    match snd (Neutron_update P i dt s) with
    | Flight _ _ =>
        position n' = displaced (position n) (velocity n') (speed (energy_group n')) dt
    | _ => position n' = position n
    end.
Proof.
  intros Hn Hact.
  assert (Hlt : i < length (neutrons s)) by (eapply lookup_lt_Some; exact Hn).
  unfold Neutron_update. rewrite Hn, Hact. cbn [negb].
  destruct (s_ltb (max_lifetime P) _).
  { eexists. split; [apply list_lookup_insert_eq; exact Hlt | reflexivity]. }
  unfold getFloat.
  destruct (uniform_dist (random_gen s)) as [u g1].
  destruct (s_ltb u _).
  2:{ eexists. split; [apply list_lookup_insert_eq; exact Hlt |]. cbn [snd].
      rewrite advance_position, advance_velocity, advance_group. reflexivity. }
  destruct (uniform_dist g1) as [r g2].
  destruct (s_ltb r _).
  { destruct (randomDirection g2) as [v g3].
    destruct (uniform_dist g3) as [scatter_r g4].
    eexists. split; [apply list_lookup_insert_eq; exact Hlt |]. cbn [snd].
    rewrite advance_position, advance_velocity, advance_group. reflexivity. }
  destruct (s_ltb r _).
  { eexists. split; [apply list_lookup_insert_eq; exact Hlt | reflexivity]. }
  destruct (uniform_dist g2) as [u3 g3].
  set (n2 := set_active false (set_lifetime (lifetime n + dt)%S n)).
  set (limit := if s_ltb u3 (dec 5 10) then 3%Z else 2%Z).
  pose proof (activate_loop_lookup (Neutron_initFromFission (position n2)) limit 0
                (<[i := n2]> (neutrons s)) g3 i n2) as Hloop.
  destruct (activate_loop _ limit 0 _ g3) as [ns g4]. cbn [fst snd neutrons] in *.
  destruct Hloop as [Hsame | [_ [g' Hre]]].
  - apply list_lookup_insert_eq. exact Hlt.
  - exists n2. split; [exact Hsame | reflexivity].
  - eexists. split; [exact Hre |]. apply initFromFission_position.
Qed.

End DynamicAdvance.

Lemma position_advance_witness :
  let P := Dynamic.default_params (SF := IEEE.float_ref) in
  let r := Dynamic.Neutron_update (SF := IEEE.float_ref)
             (UG := Replay.uniform (SF := IEEE.float_ref)) P 0
             (dec (SF := IEEE.float_ref) 1 2) scatter_pool in
  exists n', Dynamic.neutrons (fst r) !! 0 = Some n' /\
    match snd r with
    | Dynamic.Flight _ _ =>
        Dynamic.position n'
        = displaced (SF := IEEE.float_ref) (Dynamic.position fast_neutron)
            (Dynamic.velocity n')
            (Dynamic.speed (SF := IEEE.float_ref) (Dynamic.energy_group n'))
            (dec (SF := IEEE.float_ref) 1 2)
    | _ => Dynamic.position n' = Dynamic.position fast_neutron
    end.
Proof.
  intros P r.
  apply (position_advance (SF := IEEE.float_ref)
           (UG := Replay.uniform (SF := IEEE.float_ref)) P 0
           (dec (SF := IEEE.float_ref) 1 2) scatter_pool fast_neutron).
  - reflexivity.
  - reflexivity.
Defined.

(** C1, counterexample.  With the default parameters and the time step 0.5
    the neutron of [scatter_pool] interacts and scatters, and in the same
    call its position moves from the origin to (0, 0, -sqrt 10). *)
Lemma scattering_advances_position :
  let P := Dynamic.default_params (SF := IEEE.float_ref) in
  let r := Dynamic.Neutron_update (SF := IEEE.float_ref)
             (UG := Replay.uniform (SF := IEEE.float_ref)) P 0
             (dec (SF := IEEE.float_ref) 1 2) scatter_pool in
  snd r = Dynamic.Flight true false /\
  Dynamic.position fast_neutron = (S754_zero false, S754_zero false, S754_zero false) /\
  option_map Dynamic.position (Dynamic.neutrons (fst r) !! 0)
  = Some (S754_zero false, S754_zero false, S754_finite true 13263554 (-22)).
Proof.
  vm_compute. repeat split; reflexivity.
Qed.

(** ** Fractal terrain: every grid access is in range *)

Section TerrainRuns.
Context {F G : Type} {SF : Scalar F} {NG : Normal F G}.
Import Terrain.

Local Abbreviation runs := (@runs F G _).

Lemma runs_ret {A : Type} (size : nat) (a : A) : runs size (@ret F G A a).
Proof. intros s Hs. exists a, s. split; [reflexivity | exact Hs]. Qed.

Lemma runs_bind {A B : Type} (size : nat) (m : @M F G A) (k : A -> @M F G B) :
  runs size m -> (forall a, runs size (k a)) -> runs size (bind m k).
Proof.
  intros Hm Hk s Hs. destruct (Hm s Hs) as (a & s1 & E1 & H1).
  destruct (Hk a s1 H1) as (b & s2 & E2 & H2).
  exists b, s2. unfold bind. rewrite E1. split; [exact E2 | exact H2].
Qed.

Lemma runs_get (size x y : nat) : x < size -> y < size -> runs size (get x y).
Proof.
  intros Hx Hy s [Hlen Hrows]. unfold get.
  destruct (st_grid s !! x) as [row|] eqn:Ex.
  2:{ apply lookup_ge_None_1 in Ex. lia. }
  assert (Hrow : length row = size).
  { rewrite Forall_lookup in Hrows. exact (Hrows x row Ex). }
  destruct (row !! y) as [v|] eqn:Ey.
  2:{ apply lookup_ge_None_1 in Ey. lia. }
  exists v, s. split; [reflexivity | split; assumption].
Qed.

Lemma runs_put (size x y : nat) (v : F) : x < size -> y < size -> runs size (put x y v).
Proof.
  intros Hx Hy s [Hlen Hrows]. unfold put.
  destruct (st_grid s !! x) as [row|] eqn:Ex.
  2:{ apply lookup_ge_None_1 in Ex. lia. }
  assert (Hrow : length row = size).
  { rewrite Forall_lookup in Hrows. exact (Hrows x row Ex). }
  destruct (Nat.ltb_spec y (length row)) as [_|Hge]; [|lia].
  eexists tt, _. split; [reflexivity|]. cbn [st_grid]. split.
  - rewrite length_insert. exact Hlen.
  - apply Forall_insert; [exact Hrows|]. rewrite length_insert. exact Hrow.
Qed.

Lemma runs_Gauss (size : nat) : runs size Gauss.
Proof. intros s Hs. eexists _, _. split; [reflexivity | exact Hs]. Qed.

Lemma runs_InitGauss (size : nat) (seed : Z) : runs size (InitGauss seed).
Proof. intros s Hs. eexists _, _. split; [reflexivity | exact Hs]. Qed.

Lemma runs_for_each (size : nat) (xs : list nat) (body : nat -> @M F G unit) :
  (forall x, In x xs -> runs size (body x)) -> runs size (for_each xs body).
Proof.
  induction xs as [|x rest IH]; intros Hbody; simpl.
  - apply runs_ret.
  - apply runs_bind; [apply Hbody; left; reflexivity|].
    intros _. apply IH. intros y Hy. apply Hbody. right. exact Hy.
Qed.

Lemma In_range_fuel (fuel lo hi step x : nat) :
  In x (range_fuel fuel lo hi step) -> lo <= x < hi /\ exists k, x = lo + k * step.
Proof.
  revert lo. induction fuel as [|fuel IH]; intros lo; simpl; [tauto|].
  destruct (Nat.ltb_spec lo hi) as [Hlt|Hge]; [|simpl; tauto].
  intros [<-|Hin].
  - split; [lia | exists 0; lia].
  - destruct (IH _ Hin) as [Hb [k ->]]. split; [lia | exists (S k); lia].
Qed.

Lemma In_range (lo hi step x : nat) :
  In x (range lo hi step) -> lo <= x < hi /\ exists k, x = lo + k * step.
Proof. apply In_range_fuel. Qed.

(** A point at offset [d] on the lattice of step [2 d] has both neighbours
    at distance [d] inside [0, N]. *)
Lemma range_centre (N d m x : nat) :
  1 <= d -> N = m * (2 * d) -> In x (range d N (2 * d)) -> d <= x /\ x + d <= N.
Proof.
  intros Hd HN Hin. destruct (In_range _ _ _ _ Hin) as [[Hlo Hhi] [k ->]].
  split; [lia|]. subst N.
  assert (k < m) by nia. nia.
Qed.

Lemma range_lattice (N d m y : nat) :
  1 <= d -> N = m * (2 * d) -> In y (range (2 * d) N (2 * d)) -> d <= y /\ y + d <= N.
Proof.
  intros Hd HN Hin. destruct (In_range _ _ _ _ Hin) as [[Hlo Hhi] [k ->]].
  split; [lia|]. subst N.
  assert (k + 1 < m) by nia. nia.
Qed.

Lemma range_closed (N step x : nat) : In x (range 0 (S N) step) -> x <= N.
Proof. intros Hin. destruct (In_range _ _ _ _ Hin) as [[_ Hhi] _]. lia. Qed.

Ltac runs_steps :=
  repeat first
    [ apply runs_ret
    | apply runs_Gauss
    | apply runs_get; [lia | lia]
    | apply runs_put; [lia | lia]
    | apply runs_bind; [|intros ?] ].

Lemma runs_jitter (size : nat) (delta : F) (x y : nat) :
  x < size -> y < size -> runs size (jitter delta x y).
Proof. intros Hx Hy. unfold jitter. runs_steps. Qed.

Lemma runs_diamond (size : nat) (delta : F) (d x y : nat) :
  x + d < size -> y + d < size -> runs size (diamond delta d x y).
Proof. intros Hx Hy. unfold diamond, f4. runs_steps. Qed.

Lemma runs_square (size : nat) (delta : F) (d x y : nat) :
  x + d < size -> y + d < size -> runs size (square delta d x y).
Proof. intros Hx Hy. unfold square, f4. runs_steps. Qed.

Lemma runs_edges (N : nat) (delta : F) (d x : nat) :
  x + d <= N -> runs (S N) (edges delta N d x).
Proof. intros Hx. unfold edges, f3. runs_steps. Qed.

Lemma runs_stage (Hurst : F) (N d m : nat) (delta : F) :
  1 <= d -> N = m * (2 * d) -> runs (S N) (stage Hurst N (2 * d) d delta).
Proof.
  intros Hd HN. unfold stage.
  apply runs_bind; [apply runs_for_each; intros x Hx; apply runs_for_each; intros y Hy
                   | intros _].
  { destruct (range_centre N d m x Hd HN Hx), (range_centre N d m y Hd HN Hy).
    apply runs_diamond; lia. }
  apply runs_bind; [apply runs_for_each; intros x Hx; apply runs_for_each; intros y Hy
                   | intros _].
  { pose proof (range_closed _ _ _ Hx). pose proof (range_closed _ _ _ Hy).
    apply runs_jitter; lia. }
  apply runs_bind; [apply runs_for_each; intros x Hx | intros _].
  { destruct (range_centre N d m x Hd HN Hx). apply runs_edges. lia. }
  apply runs_bind; [apply runs_for_each; intros x Hx; apply runs_for_each; intros y Hy
                   | intros _].
  { destruct (range_centre N d m x Hd HN Hx), (range_lattice N d m y Hd HN Hy).
    apply runs_square; lia. }
  apply runs_bind; [apply runs_for_each; intros x Hx; apply runs_for_each; intros y Hy
                   | intros _].
  { destruct (range_lattice N d m x Hd HN Hx), (range_centre N d m y Hd HN Hy).
    apply runs_square; lia. }
  apply runs_bind; [apply runs_for_each; intros x Hx; apply runs_for_each; intros y Hy
                   | intros _].
  { pose proof (range_closed _ _ _ Hx). pose proof (range_closed _ _ _ Hy).
    apply runs_jitter; lia. }
  apply runs_bind; [apply runs_for_each; intros x Hx; apply runs_for_each; intros y Hy
                   | intros _].
  { destruct (range_centre N d m x Hd HN Hx), (range_centre N d m y Hd HN Hy).
    apply runs_jitter; lia. }
  apply runs_ret.
Qed.

Lemma runs_stages (Hurst : F) (n k Dstep d : nat) (delta : F) :
  k <= n -> Dstep = 2 ^ k -> d = Dstep / 2 ->
  runs (S (2 ^ n)) (stages k Hurst (2 ^ n) Dstep d delta).
Proof.
  revert Dstep d delta. induction k as [|k IH]; intros Dstep d delta Hk HD Hd; cbn [stages].
  - apply runs_ret.
  - assert (HD2 : Dstep = 2 * 2 ^ k) by (rewrite HD; apply Nat.pow_succ_r').
    assert (Hd2 : d = 2 ^ k).
    { rewrite Hd, HD2. rewrite Nat.mul_comm. apply Nat.div_mul. lia. }
    apply runs_bind.
    + rewrite HD2, Hd2. apply (runs_stage Hurst (2 ^ n) (2 ^ k) (2 ^ (n - S k))).
      * pose proof (Nat.pow_nonzero 2 k). lia.
      * rewrite <- Nat.pow_succ_r', <- Nat.pow_add_r. f_equal. lia.
    + intros delta'. apply IH; [lia | |].
      * rewrite HD2, Nat.mul_comm. apply Nat.div_mul. lia.
      * rewrite Hd, HD2. f_equal.
Qed.

Lemma runs_generate (n : nat) (Hurst : F) (seed : Z) (sigma : F) :
  n <= 29 -> runs (S (2 ^ n)) (generate n Hurst seed sigma).
Proof.
  intros Hn. unfold generate. destruct (Nat.ltb_spec 29 n) as [Hbig|_]; [lia|].
  apply runs_bind; [apply runs_InitGauss | intros _].
  repeat (apply runs_bind; [apply runs_Gauss | intros ?];
          apply runs_bind; [apply runs_put; lia | intros _]).
  apply runs_stages; [lia | reflexivity | reflexivity].
Qed.

End TerrainRuns.

(** ** Fractal terrain: every cell is written before it is read *)

Section TerrainOverwrite.
Context {F G : Type} {SF : Scalar F} {NG : Normal F G}.
Import Terrain.

Local Abbreviation overwrites := (@overwrites F G _).
Local Abbreviation agree := (@agree F G).

Lemma agree_mono (size : nat) (K K' : Cells) (s1 s2 : St) :
  (forall x y, K' x y -> K x y) -> agree size K s1 s2 -> agree size K' s1 s2.
Proof.
  intros Hsub (Hr & H1 & H2 & Hc). repeat split; try assumption; try apply H1; try apply H2.
  intros x y Hxy. apply Hc, Hsub, Hxy.
Qed.

Lemma ow_conseq {A : Type} (size : nat) (R W R' W' : Cells) (m : @M F G A) :
  overwrites size R W m ->
  (forall x y, R x y -> R' x y) ->
  (forall x y, W' x y -> W x y \/ R' x y) ->
  overwrites size R' W' m.
Proof.
  intros Hm HR HW K s1 s2 HK Hag.
  destruct (Hm K s1 s2) as (a & s1' & s2' & E1 & E2 & Hag'); [auto | exact Hag |].
  exists a, s1', s2'. split; [exact E1 | split; [exact E2 |]].
  eapply agree_mono; [|exact Hag']. cbv beta. intros x y [Hk|Hw]; [left; exact Hk|].
  destruct (HW x y Hw) as [Hw'|Hr]; [right; exact Hw' | left; apply HK, Hr].
Qed.

Lemma ow_ret {A : Type} (size : nat) (R : Cells) (a : A) :
  overwrites size R no_cell (@ret F G A a).
Proof.
  intros K s1 s2 HK Hag. exists a, s1, s2. split; [reflexivity | split; [reflexivity|]].
  eapply agree_mono; [|exact Hag]. cbv beta. unfold no_cell. tauto.
Qed.

Lemma ow_bind {A B : Type} (size : nat) (R W1 W2 : Cells) (m : @M F G A) (k : A -> @M F G B) :
  overwrites size R W1 m ->
  (forall a, overwrites size (fun x y => R x y \/ W1 x y) W2 (k a)) ->
  overwrites size R (fun x y => W1 x y \/ W2 x y) (bind m k).
Proof.
  intros Hm Hk K s1 s2 HK Hag.
  destruct (Hm K s1 s2 HK Hag) as (a & t1 & t2 & E1 & E2 & Hag1).
  destruct (Hk a _ t1 t2 (fun x y H => match H with
                                       | or_introl r => or_introl (HK x y r)
                                       | or_intror w => or_intror w end) Hag1)
    as (b & u1 & u2 & E3 & E4 & Hag2).
  exists b, u1, u2. unfold bind. rewrite E1, E2. split; [exact E3 | split; [exact E4|]].
  eapply agree_mono; [|exact Hag2]. cbv beta. tauto.
Qed.

(** The continuation reads what the first action read. *)
Lemma ow_seq {A B : Type} (size : nat) (R W1 W2 : Cells) (m : @M F G A) (k : A -> @M F G B) :
  overwrites size R W1 m ->
  (forall a, overwrites size R W2 (k a)) ->
  overwrites size R (fun x y => W1 x y \/ W2 x y) (bind m k).
Proof.
  intros Hm Hk. apply ow_bind; [exact Hm|]. intros a.
  eapply ow_conseq; [apply Hk | cbv beta; tauto | cbv beta; tauto].
Qed.

(** The first action writes nothing. *)
Lemma ow_read {A B : Type} (size : nat) (R W : Cells) (m : @M F G A) (k : A -> @M F G B) :
  overwrites size R no_cell m ->
  (forall a, overwrites size R W (k a)) ->
  overwrites size R W (bind m k).
Proof.
  intros Hm Hk. eapply ow_conseq; [apply (ow_seq _ _ _ _ _ _ Hm Hk) | tauto |].
  cbv beta. tauto.
Qed.

Lemma cell_lookup (size : nat) (g : list (list F)) (x y : nat) :
  dims size g -> x < size -> y < size -> exists row v, g !! x = Some row /\ row !! y = Some v.
Proof.
  intros [Hlen Hrows] Hx Hy.
  destruct (g !! x) as [row|] eqn:Ex.
  2:{ apply lookup_ge_None_1 in Ex. lia. }
  assert (Hrow : length row = size).
  { rewrite Forall_lookup in Hrows. exact (Hrows x row Ex). }
  destruct (row !! y) as [v|] eqn:Ey.
  2:{ apply lookup_ge_None_1 in Ey. lia. }
  exists row, v. split; [reflexivity | exact Ey].
Qed.

Lemma ow_get (size : nat) (R : Cells) (x y : nat) :
  R x y -> x < size -> y < size -> overwrites size R no_cell (get x y).
Proof.
  intros HR Hx Hy K s1 s2 HK (Hr & H1 & H2 & Hc).
  destruct (cell_lookup size _ x y H1 Hx Hy) as (row1 & v1 & Ex1 & Ey1).
  destruct (cell_lookup size _ x y H2 Hx Hy) as (row2 & v2 & Ex2 & Ey2).
  pose proof (Hc x y (HK x y HR)) as Hv. unfold cell in Hv.
  rewrite Ex1, Ex2, Ey1, Ey2 in Hv. injection Hv as <-.
  exists v1, s1, s2. unfold get. rewrite Ex1, Ex2, Ey1, Ey2.
  split; [reflexivity | split; [reflexivity|]].
  repeat split; try assumption; try apply H1; try apply H2.
  intros a b [Hk|[]]. apply Hc, Hk.
Qed.

Lemma dims_insert (size : nat) (g : list (list F)) (x y : nat) (row : list F) (v : F) :
  dims size g -> g !! x = Some row -> dims size (<[x := <[y := v]> row]> g).
Proof.
  intros [Hlen Hrows] Ex. split.
  - rewrite length_insert. exact Hlen.
  - apply Forall_insert; [exact Hrows|]. rewrite length_insert.
    rewrite Forall_lookup in Hrows. exact (Hrows x row Ex).
Qed.

Lemma cell_insert (g : list (list F)) (x y a b : nat) (row : list F) (v : F) :
  g !! x = Some row -> y < length row ->
  cell (<[x := <[y := v]> row]> g) a b
  = if decide (a = x /\ b = y) then Some v else cell g a b.
Proof.
  intros Ex Hy. unfold cell.
  assert (Hx : x < length g) by (eapply lookup_lt_Some; exact Ex).
  destruct (decide (a = x)) as [->|Hne].
  - rewrite list_lookup_insert_eq by exact Hx.
    destruct (decide (b = y)) as [->|Hne'].
    + rewrite list_lookup_insert_eq by exact Hy.
      destruct (decide (x = x /\ y = y)) as [_|Hn]; [reflexivity | tauto].
    + rewrite list_lookup_insert_ne by congruence. rewrite Ex.
      destruct (decide (x = x /\ b = y)) as [[_ Hb]|_]; [congruence | reflexivity].
  - rewrite list_lookup_insert_ne by congruence.
    destruct (decide (a = x /\ b = y)) as [[Ha _]|_]; [congruence | reflexivity].
Qed.

Lemma ow_put (size : nat) (R : Cells) (x y : nat) (v : F) :
  x < size -> y < size -> overwrites size R (single x y) (put x y v).
Proof.
  intros Hx Hy K s1 s2 HK (Hr & H1 & H2 & Hc).
  destruct (cell_lookup size _ x y H1 Hx Hy) as (row1 & v1 & Ex1 & Ey1).
  destruct (cell_lookup size _ x y H2 Hx Hy) as (row2 & v2 & Ex2 & Ey2).
  assert (Hl1 : y < length row1) by (eapply lookup_lt_Some; exact Ey1).
  assert (Hl2 : y < length row2) by (eapply lookup_lt_Some; exact Ey2).
  unfold put. rewrite Ex1, Ex2.
  destruct (Nat.ltb_spec y (length row1)) as [_|]; [|lia].
  destruct (Nat.ltb_spec y (length row2)) as [_|]; [|lia].
  eexists tt, _, _. split; [reflexivity | split; [reflexivity|]].
  cbn [st_grid st_rng]. split; [exact Hr | split; [|split]].
  - apply dims_insert; assumption.
  - apply dims_insert; assumption.
  - intros a b Hab. cbn [st_grid]. rewrite !cell_insert by assumption.
    destruct (decide (a = x /\ b = y)) as [_|Hn]; [reflexivity|].
    destruct Hab as [Hk|Hs]; [apply Hc, Hk | contradiction].
Qed.

Lemma ow_Gauss (size : nat) (R : Cells) : overwrites size R no_cell Gauss.
Proof.
  intros K s1 s2 HK (Hr & H1 & H2 & Hc). unfold Gauss. rewrite Hr.
  eexists _, _, _. split; [reflexivity | split; [reflexivity|]].
  cbn [st_grid st_rng]. repeat split; try assumption; try apply H1; try apply H2.
  intros a b [Hk|[]]. apply Hc, Hk.
Qed.


Lemma ow_pre {A : Type} (size : nat) (R W R' : Cells) (m : @M F G A) :
  overwrites size R W m -> (forall x y, R x y -> R' x y) -> overwrites size R' W m.
Proof. intros Hm HR. eapply ow_conseq; [exact Hm | exact HR | tauto]. Qed.

Lemma ow_f3 (size : nat) (R : Cells) (delta x0 x1 x2 : F) :
  overwrites size R no_cell (f3 delta x0 x1 x2).
Proof. unfold f3. apply ow_read; [apply ow_Gauss | intros g; apply ow_ret]. Qed.

Lemma ow_f4 (size : nat) (R : Cells) (delta x0 x1 x2 x3 : F) :
  overwrites size R no_cell (f4 delta x0 x1 x2 x3).
Proof. unfold f4. apply ow_read; [apply ow_Gauss | intros g; apply ow_ret]. Qed.

Ltac ow_steps :=
  repeat first
    [ apply ow_put; [lia | lia]
    | apply ow_read;
      [ first [ apply ow_Gauss | apply ow_f3 | apply ow_f4
              | apply ow_get; [assumption | lia | lia] ]
      | intros ? ]
    | apply ow_seq; [|intros _] ].

Lemma ow_jitter (size : nat) (R : Cells) (delta : F) (x y : nat) :
  R x y -> x < size -> y < size -> overwrites size R (single x y) (jitter delta x y).
Proof. intros HR Hx Hy. unfold jitter. ow_steps. Qed.

Lemma ow_diamond (size : nat) (R : Cells) (delta : F) (d x y : nat) :
  R (x + d) (y + d) -> R (x + d) (y - d) -> R (x - d) (y + d) -> R (x - d) (y - d) ->
  x + d < size -> y + d < size ->
  overwrites size R (single x y) (diamond delta d x y).
Proof. intros H1 H2 H3 H4 Hx Hy. unfold diamond. ow_steps. Qed.

Lemma ow_square (size : nat) (R : Cells) (delta : F) (d x y : nat) :
  R x (y + d) -> R x (y - d) -> R (x + d) y -> R (x - d) y ->
  x + d < size -> y + d < size ->
  overwrites size R (single x y) (square delta d x y).
Proof. intros H1 H2 H3 H4 Hx Hy. unfold square. ow_steps. Qed.

Lemma ow_edges (N : nat) (R : Cells) (delta : F) (d x : nat) :
  R (x + d) 0 -> R (x - d) 0 -> R x d ->
  R (x + d) N -> R (x - d) N -> R x (N - d) ->
  R 0 (x + d) -> R 0 (x - d) -> R d x ->
  R N (x + d) -> R N (x - d) -> R (N - d) x ->
  x + d <= N ->
  overwrites (S N) R (rim N x) (edges delta N d x).
Proof.
  intros. unfold edges, rim. ow_steps.
Qed.


Lemma ow_for_each (size : nat) (R : Cells) (W : nat -> Cells) (xs : list nat)
    (body : nat -> @M F G unit) :
  (forall x, In x xs -> overwrites size R (W x) (body x)) ->
  overwrites size R (fun a b => exists x, In x xs /\ W x a b) (for_each xs body).
Proof.
  induction xs as [|x rest IH]; intros Hbody; cbn [for_each].
  - eapply ow_conseq; [apply ow_ret | intros ? ? Hr; exact Hr |]. intros a b (x & [] & _).
  - eapply ow_conseq; [apply ow_seq | intros ? ? Hr; exact Hr |].
    + apply Hbody. left. reflexivity.
    + intros _. apply IH. intros y Hy. apply Hbody. right. exact Hy.
    + cbv beta. intros a b (x' & [<-|Hin] & Hw).
      * left. left. exact Hw.
      * left. right. exists x'. split; assumption.
Qed.

Lemma ow_for_each2 (size : nat) (R : Cells) (xs ys : list nat)
    (body : nat -> nat -> @M F G unit) :
  (forall x y, In x xs -> In y ys -> overwrites size R (single x y) (body x y)) ->
  overwrites size R (fun a b => In a xs /\ In b ys)
    (for_each xs (fun x => for_each ys (fun y => body x y))).
Proof.
  intros Hbody.
  eapply ow_conseq; [apply (ow_for_each size R (fun x a b => In b ys /\ a = x)) | intros ? ? Hr; exact Hr |].
  - intros x Hx.
    eapply ow_conseq; [apply (ow_for_each size R (fun y => single x y)) | intros ? ? Hr; exact Hr |].
    + intros y Hy. apply Hbody; assumption.
    + cbv beta. intros a b [Hb ->]. left. exists b. split; [exact Hb | split; reflexivity].
  - cbv beta. intros a b [Ha Hb]. left. exists a. split; [exact Ha | split; [exact Hb | reflexivity]].
Qed.

Lemma In_range_fuel_intro (step hi x k : nat) :
  forall fuel lo, 0 < step -> hi <= fuel + lo -> x = lo + k * step -> x < hi ->
    In x (range_fuel fuel lo hi step).
Proof.
  induction k as [|k IH]; intros fuel lo Hs Hf Hx Hlt.
  - destruct fuel as [|fuel]; [lia|]. cbn [range_fuel].
    destruct (Nat.ltb_spec lo hi) as [_|Hge]; [|lia]. left. lia.
  - destruct fuel as [|fuel]; [lia|]. cbn [range_fuel].
    destruct (Nat.ltb_spec lo hi) as [_|Hge]; [|lia]. right.
    apply IH; [exact Hs | lia | lia | exact Hlt].
Qed.

Lemma In_range_intro (lo hi step x k : nat) :
  0 < step -> x = lo + k * step -> x < hi -> In x (range lo hi step).
Proof. intros Hs Hx Hlt. apply (In_range_fuel_intro step hi x k); [exact Hs | lia | exact Hx | exact Hlt]. Qed.


Lemma lattice_intro (N D a b i j : nat) :
  a = i * D -> b = j * D -> a <= N -> b <= N -> lattice N D a b.
Proof. intros Ha Hb Hla Hlb. unfold lattice. eauto 10. Qed.

(** The offsets of the loops of one stage, for [N = m * (2 d)]. *)
Lemma centre_elim (N d m x : nat) :
  1 <= d -> N = m * (2 * d) -> In x (range d N (2 * d)) ->
  exists k, x = d + k * (2 * d) /\ k < m.
Proof.
  intros Hd HN Hin. destruct (In_range _ _ _ _ Hin) as [[_ Hhi] [k ->]].
  exists k. split; [reflexivity | nia].
Qed.

Lemma centre_intro (N d m x k : nat) :
  1 <= d -> N = m * (2 * d) -> x = d + k * (2 * d) -> k < m -> In x (range d N (2 * d)).
Proof. intros Hd HN Hx Hk. apply (In_range_intro d N (2 * d) x k); [lia | exact Hx | nia]. Qed.

Lemma inner_elim (N d m y : nat) :
  1 <= d -> N = m * (2 * d) -> In y (range (2 * d) N (2 * d)) ->
  exists k, y = S k * (2 * d) /\ S k < m.
Proof.
  intros Hd HN Hin. destruct (In_range _ _ _ _ Hin) as [[_ Hhi] [k ->]].
  exists k. split; [lia | nia].
Qed.

Lemma inner_intro (N d m y k : nat) :
  1 <= d -> N = m * (2 * d) -> y = S k * (2 * d) -> S k < m ->
  In y (range (2 * d) N (2 * d)).
Proof. intros Hd HN Hy Hk. apply (In_range_intro (2 * d) N (2 * d) y k); [lia | lia | nia]. Qed.

Lemma closed_elim (N d x : nat) :
  In x (range 0 (S N) (2 * d)) -> exists k, x = k * (2 * d) /\ x <= N.
Proof.
  intros Hin. destruct (In_range _ _ _ _ Hin) as [[_ Hhi] [k ->]].
  exists k. split; [reflexivity | lia].
Qed.


Ltac reach := cbv beta; first [ assumption | left; reach | right; assumption ].

Lemma ow_stage (Hurst : F) (N d m : nat) (delta : F) :
  1 <= d -> N = m * (2 * d) ->
  overwrites (S N) (lattice N (2 * d)) (lattice N d) (stage Hurst N (2 * d) d delta).
Proof.
  intros Hd HN. unfold stage.
  eapply ow_conseq; [| intros a b Hab; exact Hab |].
  { apply ow_bind; [apply ow_for_each2; intros x y Hx Hy | intros _].
    { destruct (centre_elim N d m x Hd HN Hx) as (k & -> & Hk).
      destruct (centre_elim N d m y Hd HN Hy) as (l & -> & Hl).
      assert (lattice N (2 * d) (d + k * (2 * d) + d) (d + l * (2 * d) + d))
        by (apply (lattice_intro _ _ _ _ (S k) (S l)); nia).
      assert (lattice N (2 * d) (d + k * (2 * d) + d) (d + l * (2 * d) - d))
        by (apply (lattice_intro _ _ _ _ (S k) l); nia).
      assert (lattice N (2 * d) (d + k * (2 * d) - d) (d + l * (2 * d) + d))
        by (apply (lattice_intro _ _ _ _ k (S l)); nia).
      assert (lattice N (2 * d) (d + k * (2 * d) - d) (d + l * (2 * d) - d))
        by (apply (lattice_intro _ _ _ _ k l); nia).
      apply ow_diamond; [reach | reach | reach | reach | nia | nia]. }
    apply ow_bind; [apply ow_for_each2; intros x y Hx Hy | intros _].
    { destruct (closed_elim N d x Hx) as (k & -> & Hk).
      destruct (closed_elim N d y Hy) as (l & -> & Hl).
      assert (lattice N (2 * d) (k * (2 * d)) (l * (2 * d)))
        by (apply (lattice_intro _ _ _ _ k l); lia).
      apply ow_jitter; [reach | lia | lia]. }
    apply ow_bind; [apply ow_for_each; intros x Hx | intros _].
    { destruct (centre_elim N d m x Hd HN Hx) as (k & Ex & Hk).
      assert (Hd0 : In d (range d N (2 * d))) by (apply (centre_intro N d m d 0); lia).
      assert (Hd1 : In (N - d) (range d N (2 * d))) by (apply (centre_intro N d m _ (m - 1)); nia).
      assert (lattice N (2 * d) (x + d) 0) by (apply (lattice_intro _ _ _ _ (S k) 0); nia).
      assert (lattice N (2 * d) (x - d) 0) by (apply (lattice_intro _ _ _ _ k 0); nia).
      assert (lattice N (2 * d) (x + d) N) by (apply (lattice_intro _ _ _ _ (S k) m); nia).
      assert (lattice N (2 * d) (x - d) N) by (apply (lattice_intro _ _ _ _ k m); nia).
      assert (lattice N (2 * d) 0 (x + d)) by (apply (lattice_intro _ _ _ _ 0 (S k)); nia).
      assert (lattice N (2 * d) 0 (x - d)) by (apply (lattice_intro _ _ _ _ 0 k); nia).
      assert (lattice N (2 * d) N (x + d)) by (apply (lattice_intro _ _ _ _ m (S k)); nia).
      assert (lattice N (2 * d) N (x - d)) by (apply (lattice_intro _ _ _ _ m k); nia).
      assert (In x (range d N (2 * d)) /\ In d (range d N (2 * d))) by (split; assumption).
      assert (In x (range d N (2 * d)) /\ In (N - d) (range d N (2 * d))) by (split; assumption).
      assert (In d (range d N (2 * d)) /\ In x (range d N (2 * d))) by (split; assumption).
      assert (In (N - d) (range d N (2 * d)) /\ In x (range d N (2 * d))) by (split; assumption).
      apply ow_edges; [reach | reach | reach | reach | reach | reach | reach | reach | reach
                      | reach | reach | reach | nia]. }
    apply ow_bind; [apply ow_for_each2; intros x y Hx Hy | intros _].
    { destruct (centre_elim N d m x Hd HN Hx) as (k & Ex & Hk).
      destruct (inner_elim N d m y Hd HN Hy) as (l & Ey & Hl).
      assert (In x (range d N (2 * d)) /\ In (y + d) (range d N (2 * d)))
        by (split; [assumption | apply (centre_intro N d m _ (S l)); nia]).
      assert (In x (range d N (2 * d)) /\ In (y - d) (range d N (2 * d)))
        by (split; [assumption | apply (centre_intro N d m _ l); nia]).
      assert (lattice N (2 * d) (x + d) y) by (apply (lattice_intro _ _ _ _ (S k) (S l)); nia).
      assert (lattice N (2 * d) (x - d) y) by (apply (lattice_intro _ _ _ _ k (S l)); nia).
      apply ow_square; [reach | reach | reach | reach | nia | nia]. }
    apply ow_bind; [apply ow_for_each2; intros x y Hx Hy | intros _].
    { destruct (inner_elim N d m x Hd HN Hx) as (k & Ex & Hk).
      destruct (centre_elim N d m y Hd HN Hy) as (l & Ey & Hl).
      assert (lattice N (2 * d) x (y + d)) by (apply (lattice_intro _ _ _ _ (S k) (S l)); nia).
      assert (lattice N (2 * d) x (y - d)) by (apply (lattice_intro _ _ _ _ (S k) l); nia).
      assert (In (x + d) (range d N (2 * d)) /\ In y (range d N (2 * d)))
        by (split; [apply (centre_intro N d m _ (S k)); nia | assumption]).
      assert (In (x - d) (range d N (2 * d)) /\ In y (range d N (2 * d)))
        by (split; [apply (centre_intro N d m _ k); nia | assumption]).
      apply ow_square; [reach | reach | reach | reach | nia | nia]. }
    apply ow_bind; [apply ow_for_each2; intros x y Hx Hy | intros _].
    { destruct (closed_elim N d x Hx) as (k & -> & Hk).
      destruct (closed_elim N d y Hy) as (l & -> & Hl).
      assert (lattice N (2 * d) (k * (2 * d)) (l * (2 * d)))
        by (apply (lattice_intro _ _ _ _ k l); lia).
      apply ow_jitter; [reach | lia | lia]. }
    apply ow_bind; [apply ow_for_each2; intros x y Hx Hy | intros _].
    { destruct (centre_elim N d m x Hd HN Hx) as (k & Ex & Hk).
      destruct (centre_elim N d m y Hd HN Hy) as (l & Ey & Hl).
      assert (In x (range d N (2 * d)) /\ In y (range d N (2 * d))) by (split; assumption).
      apply ow_jitter; [reach | nia | nia]. }
    apply ow_ret. }
  cbv beta. intros a b (Ha & Hb & [i Ei] & [j Ej]).
  destruct (Nat.Even_or_Odd i) as [[p Hp]|[p Hp]], (Nat.Even_or_Odd j) as [[q Hq]|[q Hq]].
  - right. apply (lattice_intro _ _ _ _ p q); nia.
  - assert (Hb' : In b (range d N (2 * d))) by (apply (centre_intro N d m b q); nia).
    destruct (Nat.eq_dec p 0) as [Hp0|Hp0]; [|destruct (Nat.eq_dec p m) as [Hpm|Hpm]].
    + left. right. right. left. exists b. split; [exact Hb'|].
      right. right. left. split; [nia | reflexivity].
    + left. right. right. left. exists b. split; [exact Hb'|].
      right. right. right. split; [nia | reflexivity].
    + left. right. right. right. right. left. split; [|exact Hb'].
      apply (inner_intro N d m a (p - 1)); nia.
  - assert (Ha' : In a (range d N (2 * d))) by (apply (centre_intro N d m a p); nia).
    destruct (Nat.eq_dec q 0) as [Hq0|Hq0]; [|destruct (Nat.eq_dec q m) as [Hqm|Hqm]].
    + left. right. right. left. exists a. split; [exact Ha'|].
      left. split; [reflexivity | nia].
    + left. right. right. left. exists a. split; [exact Ha'|].
      right. left. split; [reflexivity | nia].
    + left. right. right. right. left. split; [exact Ha'|].
      apply (inner_intro N d m b (q - 1)); nia.
  - left. left. split; [apply (centre_intro N d m a p) | apply (centre_intro N d m b q)]; nia.
Qed.

Lemma ow_stages (Hurst : F) (n k Dstep d : nat) (delta : F) :
  k <= n -> Dstep = 2 ^ k -> d = Dstep / 2 ->
  overwrites (S (2 ^ n)) (lattice (2 ^ n) Dstep) (lattice (2 ^ n) 1)
    (stages k Hurst (2 ^ n) Dstep d delta).
Proof.
  revert Dstep d delta. induction k as [|k IH]; intros Dstep d delta Hk HD Hd; cbn [stages].
  - eapply ow_conseq; [apply ow_ret | intros a b Hab; exact Hab |].
    intros a b Hab. right. rewrite HD. exact Hab.
  - assert (HD2 : Dstep = 2 * 2 ^ k) by (rewrite HD; apply Nat.pow_succ_r').
    assert (Hd2 : d = 2 ^ k).
    { rewrite Hd, HD2. rewrite Nat.mul_comm. apply Nat.div_mul. lia. }
    eapply ow_conseq; [apply ow_bind | intros a b Hab; exact Hab |].
    + rewrite HD2, Hd2. apply (ow_stage Hurst (2 ^ n) (2 ^ k) (2 ^ (n - S k))).
      * pose proof (Nat.pow_nonzero 2 k). lia.
      * rewrite <- Nat.pow_succ_r', <- Nat.pow_add_r. f_equal. lia.
    + intros delta'. eapply ow_pre; [apply IH; [lia | |] |].
      * rewrite HD2, Nat.mul_comm. apply Nat.div_mul. lia.
      * rewrite Hd, HD2. f_equal.
      * cbv beta. intros a b Hab. right. rewrite HD2, Nat.mul_comm, Nat.div_mul in Hab by lia.
        exact Hab.
    + cbv beta. intros a b Hab. left. right. exact Hab.
Qed.


Lemma agree_all (N : nat) (s1 s2 : @St F G) :
  agree (S N) (lattice N 1) s1 s2 -> s1 = s2.
Proof.
  intros (Hr & [Hl1 Hr1] & [Hl2 Hr2] & Hc).
  destruct s1 as [g1 r1], s2 as [g2 r2]. cbn [st_grid st_rng] in *. subst r2. f_equal.
  apply list_eq. intros x.
  destruct (g1 !! x) as [row1|] eqn:E1.
  - assert (Hx : x < S N) by (rewrite <- Hl1; eapply lookup_lt_Some; exact E1).
    destruct (g2 !! x) as [row2|] eqn:E2.
    2:{ apply lookup_ge_None_1 in E2. lia. }
    f_equal. apply list_eq. intros y.
    rewrite Forall_lookup in Hr1, Hr2.
    pose proof (Hr1 x row1 E1) as Hlen1. pose proof (Hr2 x row2 E2) as Hlen2.
    destruct (Nat.lt_ge_cases y (S N)) as [Hy|Hy].
    + assert (Hm : lattice N 1 x y) by (apply (lattice_intro _ _ _ _ x y); lia).
      pose proof (Hc x y Hm) as Hv. unfold cell in Hv. rewrite E1, E2 in Hv. exact Hv.
    + rewrite (lookup_ge_None_2 row1), (lookup_ge_None_2 row2) by lia. reflexivity.
  - apply lookup_ge_None_1 in E1. symmetry. apply lookup_ge_None_2. lia.
Qed.

(** [generateTerrain] writes every cell before it reads it: on square grids
    of side 2^n + 1 its result does not depend on the heights in the grid,
    nor on the state of the generator, at the call. *)
Lemma generate_overwrites (n : nat) (Hurst : F) (seed : Z) (sigma : F)
    (g1 g2 : list (list F)) (r1 r2 : G) :
  n <= 29 -> dims (S (2 ^ n)) g1 -> dims (S (2 ^ n)) g2 ->
  exists s, generate n Hurst seed sigma {| st_grid := g1; st_rng := r1 |} = Some (tt, s) /\
            generate n Hurst seed sigma {| st_grid := g2; st_rng := r2 |} = Some (tt, s).
Proof.
  intros Hn H1 H2. unfold generate. destruct (Nat.ltb_spec 29 n) as [Hbig|_]; [lia|].
  match goal with
  | |- context [bind (InitGauss seed) ?k] =>
      assert (Hk : overwrites (S (2 ^ n)) no_cell (lattice (2 ^ n) 1) (k tt))
  end.
  { eapply ow_conseq; [| intros a b Hab; exact Hab |].
    - apply ow_read; [apply ow_Gauss | intros ?]. apply ow_bind; [apply ow_put; lia | intros _].
      apply ow_read; [apply ow_Gauss | intros ?]. apply ow_bind; [apply ow_put; lia | intros _].
      apply ow_read; [apply ow_Gauss | intros ?]. apply ow_bind; [apply ow_put; lia | intros _].
      apply ow_read; [apply ow_Gauss | intros ?]. apply ow_bind; [apply ow_put; lia | intros _].
      eapply ow_pre; [apply (ow_stages Hurst n n); [lia | reflexivity | reflexivity] |].
      cbv beta. unfold single. intros cx cy (Hx & Hy & [i Ei] & [j Ej]).
      assert (HN : 1 <= 2 ^ n) by (pose proof (Nat.pow_nonzero 2 n); lia).
      assert (Hi : i = 0 \/ i = 1) by nia. assert (Hj : j = 0 \/ j = 1) by nia.
      destruct Hi as [-> | ->], Hj as [-> | ->]; lia.
    - cbv beta. intros a b Hab. left. tauto. }
  destruct (Hk (fun _ _ => False) {| st_grid := g1; st_rng := seed_normal seed |}
               {| st_grid := g2; st_rng := seed_normal seed |})
    as (u & s1' & s2' & E1 & E2 & Hag).
  - intros a b [].
  - repeat split; try assumption; try apply H1; try apply H2. intros a b [].
  - assert (Hs : s1' = s2').
    { apply (agree_all (2 ^ n)). eapply agree_mono; [|exact Hag]. cbv beta. tauto. }
    destruct u. rewrite <- Hs in E2. exists s1'. split; [exact E1 | exact E2].
Qed.

End TerrainOverwrite.

(** ** Fractal terrain: determinism *)

Section TerrainDeterminism.
Context {F G : Type} {SF : Scalar F} {NG : Normal F G}.
Import Terrain.

(** [generateTerrain] starts with [InitGauss(seed)]: what the generator held
    before does not matter. *)
Lemma generate_reseeds (n : nat) (Hurst : F) (seed : Z) (sigma : F)
    (g : list (list F)) (rng1 rng2 : G) :
  generate n Hurst seed sigma {| st_grid := g; st_rng := rng1 |}
  = generate n Hurst seed sigma {| st_grid := g; st_rng := rng2 |}.
Proof. unfold generate. destruct (29 <? n)%nat; reflexivity. Qed.

Lemma concat_square (size : nat) (g : list (list F)) :
  dims size g -> length (concat g) = size * size.
Proof.
  intros [Hlen Hrows]. rewrite <- Hlen at 1. clear Hlen.
  induction Hrows as [|row rest Hrow _ IH]; simpl; [reflexivity|].
  rewrite length_app, IH, Hrow. reflexivity.
Qed.

Lemma FractalTerrain_new_runs (rng0 : G) (n : Z) (D : F) (seed : Z) (sigma : F) :
  (0 <= n <= 29)%Z ->
  exists t, FractalTerrain_new rng0 n D seed sigma = Some t /\
            Terrain.n t = Z.to_nat n /\ dims (2 ^ Z.to_nat n + 1) (grid t).
Proof.
  intros Hn. unfold FractalTerrain_new.
  destruct (Z.ltb_spec n 0) as [Hneg|_]; [lia|].
  destruct (Z.ltb_spec 30 n) as [Hbig|_]; [lia|]. cbn [orb].
  unfold generateTerrain. cbn [Terrain.n H Terrain.seed Terrain.sigma grid rng].
  destruct (runs_generate (Z.to_nat n) (s_sub (of_int 3) D) seed sigma ltac:(lia)
              {| st_grid := replicate (2 ^ Z.to_nat n + 1)
                                      (replicate (2 ^ Z.to_nat n + 1) (of_int 0));
                 st_rng := rng0 |}) as (u & s' & E & Hd).
  - cbn [st_grid]. rewrite Nat.add_1_r. split.
    + apply length_replicate.
    + apply Forall_replicate. apply length_replicate.
  - rewrite E. eexists. split; [reflexivity|]. cbn [Terrain.n grid].
    split; [reflexivity|]. rewrite Nat.add_1_r. exact Hd.
Qed.

(** Outside 0 <= n <= 29 the constructor builds nothing. *)
Lemma FractalTerrain_new_fails (rng0 : G) (n : Z) (D : F) (seed : Z) (sigma : F) :
  (n < 0 \/ 29 < n)%Z -> FractalTerrain_new rng0 n D seed sigma = None.
Proof.
  intros Hn. unfold FractalTerrain_new.
  destruct (Z.ltb_spec n 0) as [Hneg|Hpos]; [reflexivity|].
  destruct (Z.ltb_spec 30 n) as [Hbig|Hle]; [reflexivity|]. cbn [orb].
  assert (n = 30%Z) as -> by lia.
  unfold generateTerrain, generate. cbn [Terrain.n].
  destruct (Nat.ltb_spec 29 (Z.to_nat 30)) as [_|Hsmall]; [reflexivity | lia].
Qed.

Lemma FractalTerrain_new_reseeds (rng1 rng2 : G) (n : Z) (D : F) (seed : Z) (sigma : F) :
  FractalTerrain_new rng1 n D seed sigma = FractalTerrain_new rng2 n D seed sigma.
Proof.
  unfold FractalTerrain_new, generateTerrain.
  destruct ((n <? 0)%Z || (30 <? n)%Z); [reflexivity|].
  cbn [Terrain.n H Terrain.seed Terrain.sigma grid rng].
  rewrite (generate_reseeds _ _ _ _ _ rng1 rng2). reflexivity.
Qed.

(** Invoked again on the terrain it has built, [generateTerrain] builds the
    same terrain. *)
Lemma generateTerrain_again (rng0 : G) (n : Z) (D : F) (seed : Z) (sigma : F)
    (t : FractalTerrain) :
  FractalTerrain_new rng0 n D seed sigma = Some t -> generateTerrain t = Some t.
Proof.
  intros Hnew.
  assert (Hn : (0 <= n <= 29)%Z).
  { destruct (Z_lt_le_dec n 0) as [Hneg|Hpos];
      [rewrite FractalTerrain_new_fails in Hnew by lia; discriminate|].
    destruct (Z_lt_le_dec 29 n) as [Hbig|Hle];
      [rewrite FractalTerrain_new_fails in Hnew by lia; discriminate|].
    lia. }
  destruct (FractalTerrain_new_runs rng0 n D seed sigma Hn) as (t' & Hnew' & _ & Hd).
  rewrite Hnew in Hnew'. injection Hnew' as <-.
  revert Hnew. unfold FractalTerrain_new.
  destruct (Z.ltb_spec n 0) as [Hneg|_]; [lia|].
  destruct (Z.ltb_spec 30 n) as [Hbig|_]; [lia|]. cbn [orb].
  unfold generateTerrain.
  cbn [Terrain.n H Terrain.seed Terrain.sigma grid rng].
  destruct (generate_overwrites (Z.to_nat n) (s_sub (of_int 3) D) seed sigma
              (replicate (2 ^ Z.to_nat n + 1) (replicate (2 ^ Z.to_nat n + 1) (of_int 0)))
              (grid t) rng0 (rng t)) as (s & E1 & E2).
  - lia.
  - rewrite Nat.add_1_r. split; [apply length_replicate|].
    apply Forall_replicate, length_replicate.
  - rewrite <- Nat.add_1_r. exact Hd.
  - rewrite E1. intros [= <-]. cbn [Terrain.n H Terrain.seed Terrain.sigma grid rng] in E2 |- *.
    rewrite E2. reflexivity.
Qed.

(** C5.  The constructor of [FractalTerrain] is a function of (n, D, seed,
    sigma) alone: whatever state the members [rng] and [gauss] are
    constructed in, two invocations give the same result.  For
    0 <= n <= 29, where the [int] computations of the code are defined, the
    invocation returns a terrain with a grid of 2^n + 1 rows of 2^n + 1
    heights, and [generateTerrain] invoked again on that terrain rebuilds
    the same heights, every cell being written before it is read; for any
    other [n] no terrain is built.  For n = 2, D = 2.5, seed = 42, sigma = 1
    the grid is 5 by 5 and a second run gives the same 25 heights. *)
Theorem terrain_deterministic (rng1 rng2 : G) (n : Z) (D : F) (seed : Z) (sigma : F) :
  FractalTerrain_new rng1 n D seed sigma = FractalTerrain_new rng2 n D seed sigma /\
  ((0 <= n <= 29)%Z ->
   exists t, FractalTerrain_new rng1 n D seed sigma = Some t /\
             length (grid t) = 2 ^ Z.to_nat n + 1 /\
             Forall (fun row => length row = 2 ^ Z.to_nat n + 1) (grid t) /\
             generateTerrain t = Some t) /\
  ((n < 0 \/ 29 < n)%Z -> FractalTerrain_new rng1 n D seed sigma = None) /\
  (exists t, FractalTerrain_new rng1 2 (dec 25 10) 42 (of_int 1) = Some t /\
             FractalTerrain_new rng2 2 (dec 25 10) 42 (of_int 1) = Some t /\
             length (grid t) = 5 /\
             Forall (fun row => length row = 5) (grid t) /\
             length (concat (grid t)) = 25).
Proof.
  pose proof (FractalTerrain_new_reseeds rng1 rng2) as Hdet.
  split; [apply Hdet | split; [|split]].
  - intros Hn.
    destruct (FractalTerrain_new_runs rng1 n D seed sigma Hn) as (t & E & _ & Hlen & Hrows).
    exists t. pose proof (generateTerrain_again _ _ _ _ _ _ E). auto.
  - apply FractalTerrain_new_fails.
  - destruct (FractalTerrain_new_runs rng1 2 (dec 25 10) 42 (of_int 1) ltac:(lia))
      as (t & E & _ & Hd).
    exists t. split; [exact E | split; [rewrite <- Hdet; exact E |]].
    pose proof (concat_square _ _ Hd) as Hc. destruct Hd as [Hlen Hrows].
    split; [exact Hlen | split; [exact Hrows | exact Hc]].
Qed.

End TerrainDeterminism.

(** The terrain of n = 3 in binary64 on the Mersenne Twister: 9 rows of 9
    heights. *)
Lemma terrain_deterministic_witness :
  exists t,
    Terrain.FractalTerrain_new (SF := IEEE.double_ref)
      (NG := MT19937.normal (SF := IEEE.double_ref))
      {| MT19937.engine := MT19937.seed 0; MT19937.saved := None |}
      3 (dec (SF := IEEE.double_ref) 25 10) 42 (IEEE.of_Z 53 1024 1) = Some t /\
    length (Terrain.grid t) = 2 ^ Z.to_nat 3 + 1 /\
    Forall (fun row => length row = 2 ^ Z.to_nat 3 + 1) (Terrain.grid t) /\
    Terrain.generateTerrain (SF := IEEE.double_ref)
      (NG := MT19937.normal (SF := IEEE.double_ref)) t = Some t.
Proof.
  apply (proj1 (proj2 (terrain_deterministic (SF := IEEE.double_ref)
                         (NG := MT19937.normal (SF := IEEE.double_ref))
                         {| MT19937.engine := MT19937.seed 0; MT19937.saved := None |}
                         {| MT19937.engine := MT19937.seed 0; MT19937.saved := None |}
                         3 (dec (SF := IEEE.double_ref) 25 10) 42 (IEEE.of_Z 53 1024 1)))).
  lia.
Defined.

(** ** Fractal terrain: the cached height range *)

Section TerrainColour.
Context {F G : Type} {SF : Scalar F}.
Local Open Scope scalar_scope.
Import Terrain.

(** C4.  The first call of [getColor] in the process scans the grid of the
    terrain it is called on and stores the minimum and maximum in the
    statics.  Every later call, on any terrain [t2], leaves the statics as
    they are and normalises the height against that first grid's minimum and
    maximum: the grid of [t2] is not read. *)
Theorem colour_cache_keeps_first_grid (t1 t2 : FractalTerrain (F := F) (G := G))
    (h1 h2 : F) (row0 : list F) (v : F) :
  grid t1 !! 0%nat = Some row0 ->
  row0 !! 0%nat = Some v ->
  let mn := fst (scan_heights (grid t1) v v) in
  let mx := snd (scan_heights (grid t1) v v) in
  let c1 := {| minHeight := mn; maxHeight := mx; heightsCalculated := true |} in
  getColor t1 h1 HeightCache_init = Some (band_color ((h1 - mn) / (mx - mn)), c1) /\
  getColor t2 h2 c1 = Some (band_color ((h2 - mn) / (mx - mn)), c1).
Proof.
  intros Hrow Hv mn mx c1. split.
  - unfold getColor. cbn [heightsCalculated HeightCache_init]. rewrite Hrow, Hv.
    subst mn mx c1. destruct (scan_heights (grid t1) v v) as [a b]. reflexivity.
  - reflexivity.
Qed.

End TerrainColour.

Lemma colour_cache_keeps_first_grid_witness :
  let one := IEEE.of_Z 53 1024 1 in
  let four := IEEE.of_Z 53 1024 4 in
  let ten := IEEE.of_Z 53 1024 10 in
  let c1 := {| Terrain.minHeight := one; Terrain.maxHeight := four;
               Terrain.heightsCalculated := true |} in
  Terrain.getColor (SF := IEEE.double_ref) low_terrain one
    (Terrain.HeightCache_init (SF := IEEE.double_ref))
  = Some (Terrain.band_color (SF := IEEE.double_ref)
            (SFdiv 53 1024 (SFsub 53 1024 one one) (SFsub 53 1024 four one)), c1) /\
  Terrain.getColor (SF := IEEE.double_ref) high_terrain ten c1
  = Some (Terrain.band_color (SF := IEEE.double_ref)
            (SFdiv 53 1024 (SFsub 53 1024 ten one) (SFsub 53 1024 four one)), c1).
Proof.
  intros one four ten c1.
  apply (colour_cache_keeps_first_grid (SF := IEEE.double_ref) low_terrain high_terrain
           one ten [one; IEEE.of_Z 53 1024 2] one).
  - reflexivity.
  - reflexivity.
Defined.

(** The lowest cell of the second terrain, height 10, is coloured as snow
    after a call on the first terrain, and as deep water in a process where
    the second terrain is the first to be coloured. *)
Lemma stale_height_range :
  let ten := IEEE.of_Z 53 1024 10 in
  let c1 := {| Terrain.minHeight := IEEE.of_Z 53 1024 1;
               Terrain.maxHeight := IEEE.of_Z 53 1024 4;
               Terrain.heightsCalculated := true |} in
  option_map fst (Terrain.getColor (SF := IEEE.double_ref) high_terrain ten c1)
  = Some (Terrain.snowColor (SF := IEEE.double_ref)) /\
  option_map fst (Terrain.getColor (SF := IEEE.double_ref) high_terrain ten
                    (Terrain.HeightCache_init (SF := IEEE.double_ref)))
  = Some (Terrain.deepWaterColor (SF := IEEE.double_ref)).
Proof.
  vm_compute. split; reflexivity.
Qed.

(** ** Superquadric sphere: a band of heights above the sphere *)

(** C9, at a parameter set that passes the validation.  For radius 2 with
    north = east = 1, zmin = 5, zmax = 7 and thetamax = 360 no test of the
    validation fires.  The clamp lowers zmax to the radius and leaves zmin
    above it, asin(zmin / radius) = asin(2.5) is NaN, and every one of the 64
    vertices sent to the pipeline has NaN for x, y and z: none satisfies
    x^2 + y^2 + z^2 = radius^2.  The call returns 0.  (binary32, reference
    libm, four divisions.) *)
Theorem band_above_sphere_not_clamped :
  let f := IEEE.of_Z 24 128 in
  let r := SuperQuadrics.rd_sqsphere (SF := IEEE.float_ref)
             (f 2%Z) (f 1%Z) (f 1%Z) (f 5%Z) (f 7%Z) (f 360%Z) four_divisions in
  ~ sphere_invalid (SF := IEEE.float_ref) (f 2%Z) (f 5%Z) (f 7%Z) (f 360%Z) /\
  fst r = 0%Z /\
  length (SuperQuadrics.pipeline (snd r)) = 64 /\
  forallb (fun e => nan_position (fst e)) (SuperQuadrics.pipeline (snd r)) = true.
Proof.
  intros f r. split.
  - intros [H|[H|[H|H]]]; discriminate H.
  - vm_compute. repeat split; reflexivity.
Qed.

(** ** Dynamic mode: why a neutron is inactive *)

Section DynamicCauses.
Context {F G : Type} {SF : Scalar F} {UG : Uniform F G}.
Local Open Scope scalar_scope.
Import Dynamic.

Variable P : Params (F := F).

Local Abbreviation Neutron := (Dynamic.Neutron (F := F)).
Local Abbreviation Sim := (Dynamic.Sim (F := F) (G := G)).
Local Abbreviation Calls := (list (nat * Sim)).

Lemma last_push_event (e : FissionEvent (F := F)) (es : list FissionEvent) :
  last (push_event e es) = Some e.
Proof.
  unfold push_event. destruct (20 <? length (es ++ [e]))%nat eqn:E.
  - apply Nat.ltb_lt in E. rewrite length_app in E. cbn [length] in E.
    destruct es as [|e0 es]; [cbn in E; lia|]. cbn [app tail]. apply last_snoc.
  - apply last_snoc.
Qed.

Lemma Neutron_init_active (n : Neutron) (g : G) : active (fst (Neutron_init P n g)) = true.
Proof.
  unfold Neutron_init, getFloat. destruct_pairs. reflexivity.
Qed.

Lemma initFromFission_active (pos : vec3 F) (n : Neutron) (g : G) :
  active (fst (Neutron_initFromFission pos n g)) = true.
Proof.
  unfold Neutron_initFromFission. destruct_pairs. reflexivity.
Qed.

Lemma advance_escaped (dt : F) (n : Neutron) :
  active n = true -> active (advance P dt n) = false ->
  (norm3 (position (advance P dt n)) >? max_distance P) = true.
Proof.
  unfold advance. intros Hact.
  destruct (s_ltb (max_distance P) _) eqn:E; cbn [active set_active set_position position].
  - intros _. exact E.
  - congruence.
Qed.

Lemma init_first_lookup (k : nat) (ns : list Neutron) (g : G) (j : nat) (n' : Neutron) :
  fst (init_first P k ns g) !! j = Some n' -> active n' = true \/ ns !! j = Some n'.
Proof.
  revert ns g j. induction k as [|k IH]; intros ns g j; simpl; [auto|].
  destruct ns as [|n rest]; [auto|].
  destruct (Neutron_init P n g) as [n1 g1] eqn:E1.
  specialize (IH rest g1).
  destruct (init_first P k rest g1) as [rest' g2]. cbn [fst] in *.
  destruct j as [|j]; simpl.
  - intros [= <-]. left. pose proof (Neutron_init_active n g) as Ha.
    rewrite E1 in Ha. exact Ha.
  - apply IH.
Qed.

Lemma init_first_length (k : nat) (ns : list Neutron) (g : G) :
  length (fst (init_first P k ns g)) = length ns.
Proof.
  revert ns g. induction k as [|k IH]; intros ns g; simpl; [reflexivity|].
  destruct ns as [|n rest]; [reflexivity|].
  destruct (Neutron_init P n g) as [n1 g1].
  specialize (IH rest g1). destruct (init_first P k rest g1) as [rest' g2].
  simpl in *. congruence.
Qed.

(** A slot after a call of [Neutron::update] on slot [i]: an active neutron,
    the neutron it held before, or, in slot [i], the neutron the call
    removed. *)
Lemma Neutron_update_slots (i : nat) (s : Sim) :
  length (neutrons (fst (Neutron_update P i (timestep P) s))) = length (neutrons s) /\
  forall j n', neutrons (fst (Neutron_update P i (timestep P) s)) !! j = Some n' ->
    active n' = true \/
    neutrons s !! j = Some n' \/
    (j = i /\ exists c, removed_by P c i s n').
Proof.
  unfold removed_by. cbv zeta.
  destruct (Neutron_update P i (timestep P) s) as [s' o] eqn:Er. cbn [fst snd].
  unfold Neutron_update in Er.
  destruct (neutrons s !! i) as [n|] eqn:Hn.
  2:{ injection Er as <- <-. split; [reflexivity|]. auto. }
  assert (Hi : i < length (neutrons s)) by (eapply lookup_lt_Some; exact Hn).
  destruct (active n) eqn:Hact; cbn [negb] in Er.
  2:{ injection Er as <- <-. split; [reflexivity|]. auto. }
  assert (Hpre : exists m, Some n = Some m /\ active m = true) by eauto.
  assert (Hstored : forall (x : Neutron) (g : G),
            (active x = false -> exists c,
               Some x = Some x /\ active x = false /\ cause_of o = Some c /\
               match c with
               | LifetimeCause => (lifetime x >? max_lifetime P) = true
               | DistanceCause => (norm3 (position x) >? max_distance P) = true
               | AbsorptionCause =>
                   (fst (getFloat (random_gen s))
                      <? interaction_probability P (timestep P) (energy_group x)) = true /\
                   (fst (getFloat (snd (getFloat (random_gen s))))
                      <? of_int 1 - absorption_probability P - fission_probability P) = false /\
                   (fst (getFloat (snd (getFloat (random_gen s))))
                      <? of_int 1 - fission_probability P) = true
               | FissionCause => False
               end) ->
            s' = set_neutron i x s g ->
            length (neutrons s') = length (neutrons s) /\
            forall j n', neutrons s' !! j = Some n' ->
              active n' = true \/ neutrons s !! j = Some n' \/
              (j = i /\ exists c,
                 (exists m, Some n = Some m /\ active m = true) /\
                 neutrons s' !! i = Some n' /\ active n' = false /\ cause_of o = Some c /\
                 match c with
                 | LifetimeCause => (lifetime n' >? max_lifetime P) = true
                 | DistanceCause => (norm3 (position n') >? max_distance P) = true
                 | AbsorptionCause =>
                     (fst (getFloat (random_gen s))
                        <? interaction_probability P (timestep P) (energy_group n')) = true /\
                     (fst (getFloat (snd (getFloat (random_gen s))))
                        <? of_int 1 - absorption_probability P - fission_probability P) = false /\
                     (fst (getFloat (snd (getFloat (random_gen s))))
                        <? of_int 1 - fission_probability P) = true
                 | FissionCause =>
                     (fst (getFloat (random_gen s))
                        <? interaction_probability P (timestep P) (energy_group n')) = true /\
                     (fst (getFloat (snd (getFloat (random_gen s))))
                        <? of_int 1 - absorption_probability P - fission_probability P) = false /\
                     (fst (getFloat (snd (getFloat (random_gen s))))
                        <? of_int 1 - fission_probability P) = false /\
                     last (fission_events s')
                     = Some {| fe_position := position n'; fe_time := simulation_time s |}
                 end)).
  { intros x g Hx ->. cbn [set_neutron neutrons]. split; [apply length_insert|].
    intros j n'. destruct (decide (i = j)) as [<-|Hne].
    - rewrite list_lookup_insert_eq by exact Hi. intros [= <-].
      destruct (active x) eqn:Ex; [left; reflexivity|].
      right. right. split; [reflexivity|].
      destruct (Hx eq_refl) as (c & _ & _ & Hc & Hev). exists c.
      split; [exact Hpre|]. split; [reflexivity|]. split; [reflexivity|].
      split; [exact Hc|]. destruct c; [exact Hev | exact Hev | exact Hev | destruct Hev].
    - rewrite list_lookup_insert_ne by exact Hne. intros Hj. right. left. exact Hj. }
  destruct (s_ltb (max_lifetime P) _) eqn:Elife in Er.
  { injection Er as Es <-. apply (fun H => Hstored _ _ H (eq_sym Es)).
    intros _. exists LifetimeCause. repeat split. exact Elife. }
  unfold getFloat in *.
  destruct (uniform_dist (random_gen s)) as [u g1] eqn:Eu. cbn [fst snd] in *.
  destruct (s_ltb u _) eqn:Eint in Er.
  2:{ injection Er as Es <-. apply (fun H => Hstored _ _ H (eq_sym Es)).
      intros Hx. exists DistanceCause.
      rewrite Hx. repeat split. apply advance_escaped; [exact Hact | exact Hx]. }
  destruct (uniform_dist g1) as [r g2] eqn:Ev. cbn [fst snd] in *.
  destruct (s_ltb r _) eqn:Escat in Er.
  { destruct (randomDirection g2) as [v g3].
    destruct (uniform_dist g3) as [scatter_r g4].
    injection Er as Es <-. apply (fun H => Hstored _ _ H (eq_sym Es)).
    intros Hx. exists DistanceCause.
    rewrite Hx. repeat split. apply advance_escaped; [exact Hact | exact Hx]. }
  destruct (s_ltb r _) eqn:Eabs in Er.
  { injection Er as Es <-. apply (fun H => Hstored _ _ H (eq_sym Es)).
    intros _. exists AbsorptionCause. repeat split; assumption. }
  destruct (uniform_dist g2) as [u3 g3].
  set (n2 := set_active false (set_lifetime (lifetime n + timestep P) n)) in *.
  set (limit := if s_ltb u3 (dec 5 10) then 3%Z else 2%Z) in *.
  pose proof (activate_loop_length (Neutron_initFromFission (position n2)) limit 0
                (<[i := n2]> (neutrons s)) g3) as Hlen.
  pose proof (activate_loop_lookup (Neutron_initFromFission (position n2)) limit 0
                (<[i := n2]> (neutrons s)) g3) as Hloop.
  destruct (activate_loop _ limit 0 _ g3) as [ns g4]. cbn [fst snd neutrons] in *.
  injection Er as <- <-. cbn [neutrons fission_events].
  rewrite length_insert in Hlen.
  split; [exact Hlen|].
  intros j n' Hj.
  assert (Hjlt : j < length (neutrons s)) by (apply lookup_lt_Some in Hj; lia).
  destruct (lookup_lt_is_Some_2 (<[i := n2]> (neutrons s)) j) as [m Hm];
    [rewrite length_insert; exact Hjlt|].
  destruct (Hloop j m Hm) as [Hsame | [_ [g' Hre]]].
  - rewrite Hsame in Hj. injection Hj as <-.
    destruct (decide (i = j)) as [<-|Hne].
    + rewrite list_lookup_insert_eq in Hm by exact Hi. injection Hm as <-.
      right. right. split; [reflexivity|]. exists FissionCause.
      split; [exact Hpre|]. split; [exact Hsame|]. split; [reflexivity|].
      split; [reflexivity|]. split; [exact Eint|]. split; [exact Escat|].
      split; [exact Eabs|]. apply last_push_event.
    + rewrite list_lookup_insert_ne in Hm by exact Hne. right. left. exact Hm.
  - rewrite Hre in Hj. injection Hj as <-. left. apply initFromFission_active.
Qed.

Lemma respawn_slots (s : Sim) :
  length (neutrons (respawn P s)) = length (neutrons s) /\
  forall j n', neutrons (respawn P s) !! j = Some n' ->
    active n' = true \/ neutrons s !! j = Some n'.
Proof.
  unfold respawn. destruct (s_ltb _ (timestep P)); [|auto].
  pose proof (activate_loop_length (Neutron_init P) (num_neutrons P ÷ 10)%Z 0
                (neutrons s) (random_gen s)) as Hlen.
  pose proof (activate_loop_lookup (Neutron_init P) (num_neutrons P ÷ 10)%Z 0
                (neutrons s) (random_gen s)) as Hloop.
  destruct (activate_loop _ _ 0 _ _) as [ns g]. cbn [fst neutrons] in *.
  split; [exact Hlen|].
  intros j n' Hj.
  destruct (lookup_lt_is_Some_2 (neutrons s) j) as [m Hm];
    [apply lookup_lt_Some in Hj; lia|].
  destruct (Hloop j m Hm) as [Hsame | [_ [g' Hre]]].
  - right. congruence.
  - rewrite Hre in Hj. injection Hj as <-. left. apply Neutron_init_active.
Qed.

Lemma accounted_call (calls : Calls) (i : nat) (s : Sim) :
  all_accounted P calls s ->
  all_accounted P (calls ++ [(i, s)]) (fst (Neutron_update P i (timestep P) s)).
Proof.
  intros Hall j n' Hj Hina.
  destruct (Neutron_update_slots i s) as [_ Hslots].
  destruct (Hslots j n' Hj) as [Ha | [Hold | [-> [c Hc]]]]; [congruence | |].
  - destruct (Hall j n' Hold Hina) as [[Hnew Hcalls] | (c & s0 & Hin & Hc)].
    + left. split; [exact Hnew|]. intros s0 Hin.
      apply in_app_or in Hin as [Hin | [[= <- <-] | []]]; [exact (Hcalls s0 Hin)|].
      rewrite Hold, Hnew. reflexivity.
    + right. exists c, s0. split; [apply in_or_app; left; exact Hin | exact Hc].
  - right. exists c, s. split; [apply in_or_app; right; left; reflexivity | exact Hc].
Qed.

Lemma accounted_calls (idx : list nat) (calls : Calls) (s : Sim) :
  all_accounted P calls s ->
  all_accounted P (calls ++ update_calls P (timestep P) s idx)
                (foldl (fun s i => fst (Neutron_update P i (timestep P) s)) s idx).
Proof.
  revert calls s. induction idx as [|i idx IH]; intros calls s Hall; cbn [update_calls foldl].
  - rewrite app_nil_r. exact Hall.
  - replace (calls ++ (i, s) :: update_calls P (timestep P) (fst (Neutron_update P i (timestep P) s)) idx)
      with ((calls ++ [(i, s)]) ++ update_calls P (timestep P) (fst (Neutron_update P i (timestep P) s)) idx)
      by (rewrite <- app_assoc; reflexivity).
    apply IH. apply accounted_call. exact Hall.
Qed.

Lemma accounted_step (calls : Calls) (s : Sim) :
  all_accounted P calls s ->
  all_accounted P (calls ++ step_calls P s) (NeutronSimulation_update P s).
Proof.
  intros Hall. unfold step_calls, NeutronSimulation_update, update_each. cbv zeta.
  apply accounted_calls.
  intros j n' Hj Hina.
  destruct (respawn_slots (tick P s)) as [_ Hslots].
  destruct (Hslots j n' Hj) as [Ha | Hold]; [congruence|].
  exact (Hall j n' Hold Hina).
Qed.

Lemma accounted_new (rd : Z) : all_accounted P [] (NeutronSimulation_new P rd).
Proof.
  intros j n Hn Hina. left. split; [|intros s0 []].
  unfold NeutronSimulation_new, RandomGenerator_new in Hn.
  pose proof (init_first_lookup (Z.to_nat (num_neutrons P ÷ 3))
                (replicate (Z.to_nat (num_neutrons P)) Neutron_new)
                (seed_engine rd) j n) as Hinit.
  destruct (init_first P _ _ _) as [ns g]. cbn [neutrons fst] in *.
  destruct (Hinit Hn) as [Ha | Hpool]; [congruence|].
  apply lookup_replicate in Hpool as [-> _]. reflexivity.
Qed.

Lemma accounted_after (k : nat) (rd : Z) :
  all_accounted P (run_calls P k rd) (simulation_after P k rd).
Proof.
  induction k as [|k IH]; cbn [run_calls simulation_after].
  - apply accounted_new.
  - apply accounted_step. exact IH.
Qed.

(** C6, as the code has it.  After the constructor and any number of calls
    of [NeutronSimulation::update], an inactive neutron is either in a slot
    that has never been initialised, still as the default constructor left
    it, or it is as a call of [Neutron::update] on its slot left it, and
    that call removed it for one of the four causes: its lifetime exceeded
    [max_lifetime], or its distance from the origin exceeded [max_distance],
    or an absorption was drawn for it, or a fission was drawn for it and the
    call recorded the fission event at its position. *)
Theorem inactive_neutron_cause (k : nat) (rd : Z) (j : nat) (n : Neutron) :
  neutrons (simulation_after P k rd) !! j = Some n ->
  active n = false ->
  never_initialised (run_calls P k rd) j n \/
  exists c s0, In (j, s0) (run_calls P k rd) /\ removed_by P c j s0 n.
Proof.
  intros Hn Hina. exact (accounted_after k rd j n Hn Hina).
Qed.


End DynamicCauses.


(** The default simulation on the Mersenne Twister seeded with 2: the
    neutron of slot 20 is absorbed in the first update and is still inactive
    when the update ends. *)
Lemma inactive_neutron_cause_witness :
  let P := Dynamic.default_params (SF := IEEE.float_ref) in
  exists n,
    Dynamic.neutrons
      (simulation_after (SF := IEEE.float_ref) (UG := MT19937.uniform (SF := IEEE.float_ref)) P 1 2)
      !! 20%nat = Some n /\
    Dynamic.active n = false /\
    Dynamic.lifetime n = Dynamic.timestep P /\
    exists c s0,
      In (20%nat, s0)
         (run_calls (SF := IEEE.float_ref) (UG := MT19937.uniform (SF := IEEE.float_ref)) P 1 2) /\
      removed_by (SF := IEEE.float_ref) (UG := MT19937.uniform (SF := IEEE.float_ref)) P c 20 s0 n.
Proof.
  intros P.
  assert (Hn : exists n,
             Dynamic.neutrons
               (simulation_after (SF := IEEE.float_ref)
                  (UG := MT19937.uniform (SF := IEEE.float_ref)) P 1 2) !! 20%nat = Some n /\
             Dynamic.active n = false /\ Dynamic.lifetime n = Dynamic.timestep P).
  { eexists. split; [vm_compute; reflexivity | split; reflexivity]. }
  destruct Hn as (n & Hn & Hina & Hlife).
  exists n. split; [exact Hn | split; [exact Hina | split; [exact Hlife|]]].
  destruct (inactive_neutron_cause (SF := IEEE.float_ref)
              (UG := MT19937.uniform (SF := IEEE.float_ref)) P 1 2 20 n Hn Hina)
    as [[Hnew _] | Hcause]; [|exact Hcause].
  rewrite Hnew in Hlife. discriminate Hlife.
Defined.

(** C6, counterexample.  Right after the constructor, with the default
    parameters, slot 249 of the pool is inactive although its lifetime is
    not above [max_lifetime], its distance from the origin is not above
    [max_distance], no fission event is recorded and no call of [update],
    hence no absorption or fission draw, has taken place. *)
Lemma never_activated_slot :
  let P := Dynamic.default_params (SF := IEEE.float_ref) in
  let s := Dynamic.NeutronSimulation_new (SF := IEEE.float_ref)
             (UG := MT19937.uniform (SF := IEEE.float_ref)) P 1 in
  option_map Dynamic.active (Dynamic.neutrons s !! 249%nat) = Some false /\
  option_map (fun n => SFltb (Dynamic.max_lifetime P) (Dynamic.lifetime n))
             (Dynamic.neutrons s !! 249%nat) = Some false /\
  option_map (fun n => SFltb (Dynamic.max_distance P)
                         (norm3 (SF := IEEE.float_ref) (Dynamic.position n)))
             (Dynamic.neutrons s !! 249%nat) = Some false /\
  Dynamic.fission_events s = [] /\
  run_calls (SF := IEEE.float_ref) (UG := MT19937.uniform (SF := IEEE.float_ref)) P 0 1 = [] /\
  ~ exists n c s0,
      Dynamic.neutrons s !! 249%nat = Some n /\
      In (249%nat, s0)
         (run_calls (SF := IEEE.float_ref) (UG := MT19937.uniform (SF := IEEE.float_ref)) P 0 1) /\
      removed_by (SF := IEEE.float_ref) (UG := MT19937.uniform (SF := IEEE.float_ref)) P c 249 s0 n.
Proof.
  intros P s.
  split; [vm_compute; reflexivity|]. split; [vm_compute; reflexivity|].
  split; [vm_compute; reflexivity|]. split; [vm_compute; reflexivity|].
  split; [reflexivity|].
  intros (n & c & s0 & _ & [] & _).
Qed.

(** ** Seeding *)

Section Seeding.
Context {F G GN : Type} {SF : Scalar F} {UG : Uniform F G} {NG : Normal F GN}.

(** C3, as the code has it.  Only the terrain synthesizer takes a seed:
    its constructor re-seeds the generator with it, and two invocations with
    the same (n, D, seed, sigma) return the same terrain whatever the
    generator held.  The static-mode and the dynamic-mode program take no
    seed: their engine is constructed from the value of
    [std::random_device], and two runs coincide when that value gives the
    same engine state. *)
Theorem seeding_support :
  (forall (rng1 rng2 : GN) (n : Z) (D : F) (seed : Z) (sigma : F),
     Terrain.FractalTerrain_new rng1 n D seed sigma
     = Terrain.FractalTerrain_new rng2 n D seed sigma) /\
  (forall rd1 rd2 : Z,
     seed_engine (Uniform := UG) rd1 = seed_engine rd2 ->
     Static.main (F := F) (G := G) rd1 = Static.main rd2) /\
  (forall (P : Dynamic.Params) (rd1 rd2 : Z),
     seed_engine (Uniform := UG) rd1 = seed_engine rd2 ->
     Dynamic.main (F := F) (G := G) P rd1 = Dynamic.main P rd2).
Proof.
  split; [|split].
  - intros. apply FractalTerrain_new_reseeds.
  - intros rd1 rd2 Hseed. unfold Static.main, Static.gen_new. rewrite Hseed. reflexivity.
  - intros P rd1 rd2 Hseed.
    unfold Dynamic.main, Dynamic.NeutronSimulation_new, Dynamic.RandomGenerator_new.
    rewrite Hseed. reflexivity.
Qed.

End Seeding.

(** The values 1 and 2^32 + 1 of the random device construct the same
    Mersenne Twister. *)
Lemma seeding_support_witness :
  (forall (rng1 rng2 : MT19937.normal_state spec_float) (n : Z) (D : spec_float) (seed : Z)
          (sigma : spec_float),
     Terrain.FractalTerrain_new (SF := IEEE.double_ref) (NG := MT19937.normal (SF := IEEE.double_ref))
       rng1 n D seed sigma
     = Terrain.FractalTerrain_new (SF := IEEE.double_ref) (NG := MT19937.normal (SF := IEEE.double_ref))
         rng2 n D seed sigma) /\
  Static.main (SF := IEEE.double_ref) (UG := MT19937.uniform (SF := IEEE.double_ref)) 1
  = Static.main (SF := IEEE.double_ref) (UG := MT19937.uniform (SF := IEEE.double_ref)) 4294967297 /\
  Dynamic.main (SF := IEEE.double_ref) (UG := MT19937.uniform (SF := IEEE.double_ref))
    (Dynamic.default_params (SF := IEEE.double_ref)) 1
  = Dynamic.main (SF := IEEE.double_ref) (UG := MT19937.uniform (SF := IEEE.double_ref))
      (Dynamic.default_params (SF := IEEE.double_ref)) 4294967297.
Proof.
  destruct (seeding_support (SF := IEEE.double_ref)
              (UG := MT19937.uniform (SF := IEEE.double_ref))
              (NG := MT19937.normal (SF := IEEE.double_ref))) as (Ht & Hs & Hd).
  split; [exact Ht | split].
  - apply Hs. vm_compute. reflexivity.
  - apply Hd. vm_compute. reflexivity.
Defined.

(** C3, counterexample.  The dynamic-mode and the static-mode program run
    twice with the same parameters, the random device delivering 1 in one
    run and 2 in the other: the frames differ, and so do the tracks.  No
    argument of either program fixes the engine. *)
Lemma unseeded_runs_differ :
  Dynamic.main (SF := IEEE.float_ref) (UG := MT19937.uniform (SF := IEEE.float_ref))
    (Dynamic.default_params (SF := IEEE.float_ref)) 1
  <> Dynamic.main (SF := IEEE.float_ref) (UG := MT19937.uniform (SF := IEEE.float_ref))
       (Dynamic.default_params (SF := IEEE.float_ref)) 2 /\
  Static.main (SF := IEEE.float_ref) (UG := MT19937.uniform (SF := IEEE.float_ref)) 1
  <> Static.main (SF := IEEE.float_ref) (UG := MT19937.uniform (SF := IEEE.float_ref)) 2.
Proof.
  split; intros Heq.
  - apply (f_equal (fun w => option_map (fun f => head (Dynamic.fr_lines f))
                                         (w ≫= head))) in Heq.
    revert Heq. vm_compute. discriminate.
  - apply (f_equal (fun l => option_map (fun t => head t) (head l))) in Heq.
    revert Heq. vm_compute. discriminate.
Qed.

(** ** Fractal terrain: the exported mesh *)

Section TerrainExport.
Context {F G : Type} {SF : Scalar F} {NG : Normal F G}.
Import Terrain.
Local Open Scope scalar_scope.

Local Abbreviation Terr := (FractalTerrain (F := F) (G := G)).

Lemma getColor_settled (t : Terr) (size : nat) (z : F) (c : HeightCache) :
  dims size (grid t) -> (0 < size)%nat ->
  getColor t z c = Some (band_color (normalized (settled t c) z), settled t c).
Proof.
  intros Hd Hs. unfold getColor, settled.
  destruct (heightsCalculated c); [reflexivity|].
  destruct (cell_lookup size (grid t) 0 0 Hd Hs Hs) as (row & v & -> & ->).
  destruct (scan_heights (grid t) v v) as [mn mx]. reflexivity.
Qed.

Lemma settled_calculated (t : Terr) (size : nat) (c : HeightCache) :
  dims size (grid t) -> (0 < size)%nat -> heightsCalculated (settled t c) = true.
Proof.
  intros Hd Hs. unfold settled.
  destruct (heightsCalculated c) eqn:Hc; [exact Hc|].
  destruct (cell_lookup size (grid t) 0 0 Hd Hs Hs) as (row & v & -> & ->).
  reflexivity.
Qed.

Lemma settled_idem (t : Terr) (size : nat) (c : HeightCache) :
  dims size (grid t) -> (0 < size)%nat -> settled t (settled t c) = settled t c.
Proof.
  intros Hd Hs. generalize (settled_calculated t size c Hd Hs).
  generalize (settled t c). intros c' Hc'. unfold settled. rewrite Hc'. reflexivity.
Qed.

(** One row of vertex records. *)
Lemma export_row_spec (t : Terr) (size : nat) (scale : F) (y : nat)
    (row : list F) (x0 : nat) (c : HeightCache) :
  dims size (grid t) -> (0 < size)%nat ->
  exists vs, export_row t scale y x0 row c
             = Some (vs, if row is [] then c else settled t c) /\
    length vs = length row /\
    forall i z, row !! i = Some z ->
      vs !! i = Some ((of_int (Z.of_nat (x0 + i)) * scale, of_int (Z.of_nat y) * scale, z),
                      band_color (normalized (settled t c) z)).
Proof.
  intros Hd Hs. revert x0 c. induction row as [|z row IH]; intros x0 c.
  - exists []. split; [reflexivity | split; [reflexivity|]]. intros i z Hi. discriminate.
  - cbn [export_row]. rewrite (getColor_settled t size) by assumption.
    destruct (IH (S x0) (settled t c)) as (vs & E & Hlen & Hlk). rewrite E.
    exists (((of_int (Z.of_nat x0) * scale, of_int (Z.of_nat y) * scale, z),
             band_color (normalized (settled t c) z)) :: vs).
    split; [|split].
    + f_equal. f_equal. destruct row; [reflexivity | apply (settled_idem t size); assumption].
    + cbn [length]. rewrite Hlen. reflexivity.
    + intros [|i] z' Hi.
      * injection Hi as ->. cbn. rewrite Nat.add_0_r. reflexivity.
      * specialize (Hlk i z' Hi). rewrite (settled_idem t size) in Hlk by assumption.
        replace (S x0 + i)%nat with (x0 + S i)%nat in Hlk by lia. exact Hlk.
Qed.

Lemma export_rows_spec (t : Terr) (size : nat) (scale : F)
    (rows : list (list F)) (y0 : nat) (c : HeightCache) :
  dims size (grid t) -> (0 < size)%nat -> Forall (fun row => length row = size) rows ->
  exists vs, export_rows t scale y0 rows c
             = Some (vs, if rows is [] then c else settled t c) /\
    length vs = (length rows * size)%nat /\
    forall j i row z, rows !! j = Some row -> row !! i = Some z ->
      vs !! (j * size + i)%nat
      = Some ((of_int (Z.of_nat i) * scale, of_int (Z.of_nat (y0 + j)) * scale, z),
              band_color (normalized (settled t c) z)).
Proof.
  intros Hd Hs. revert y0 c. induction rows as [|row rows IH]; intros y0 c Hrows.
  - exists []. split; [reflexivity | split; [reflexivity|]]. intros j i row z Hj. discriminate.
  - apply Forall_cons in Hrows as [Hrow Hrows]. cbn [export_rows].
    destruct (export_row_spec t size scale y0 row 0 c Hd Hs) as (vs & E & Hlen & Hlk).
    rewrite E.
    assert (Hne : (if row is [] then c else settled t c) = settled t c).
    { destruct row; [cbn in Hrow; lia | reflexivity]. }
    rewrite Hne.
    destruct (IH (S y0) (settled t c) Hrows) as (ws & E' & Hlen' & Hlk'). rewrite E'.
    exists (vs ++ ws). split; [|split].
    + f_equal. f_equal. destruct rows; [reflexivity | apply (settled_idem t size); assumption].
    + rewrite length_app, Hlen, Hlen', Hrow. cbn [length]. lia.
    + intros [|j] i row' z Hj Hi.
      * injection Hj as <-. cbn [Nat.mul Nat.add].
        assert (Hi' : (i < length vs)%nat) by (rewrite Hlen; eapply lookup_lt_Some; exact Hi).
        refine (eq_trans (lookup_app_l vs ws i Hi') _).
        rewrite Nat.add_0_r. exact (Hlk i z Hi).
      * cbn in Hj.
        assert (Hi' : (i < size)%nat).
        { rewrite Forall_lookup in Hrows. rewrite <- (Hrows j row' Hj).
          eapply lookup_lt_Some; exact Hi. }
        assert (Hvs : length vs = size) by (rewrite Hlen; exact Hrow).
        pose proof (lookup_app_r vs ws (S j * size + i)) as Happ.
        rewrite Hvs in Happ. refine (eq_trans (Happ _) _); [cbn [Nat.mul]; lia|].
        replace (S j * size + i - size)%nat with (j * size + i)%nat by (cbn [Nat.mul]; lia).
        specialize (Hlk' j i row' z Hj Hi).
        rewrite (settled_idem t size) in Hlk' by assumption.
        replace (S y0 + j)%nat with (y0 + S j)%nat in Hlk' by lia. exact Hlk'.
Qed.

(** Every vertex record carries the colour of its own height, under the
    statics as [getColor] leaves them. *)
Lemma export_row_colours (t : Terr) (size : nat) (scale : F) (y : nat)
    (row : list F) (x0 : nat) (c : HeightCache) (vs : list (vec3 F * vec3 F))
    (c' : HeightCache) :
  dims size (grid t) -> (0 < size)%nat ->
  export_row t scale y x0 row c = Some (vs, c') ->
  Forall (fun vert => In (vz (fst vert)) row /\
                      snd vert = band_color (normalized (settled t c) (vz (fst vert)))) vs.
Proof.
  intros Hd Hs. revert x0 c vs c'. induction row as [|z row IH]; intros x0 c vs c'.
  - cbn [export_row]. intros [= <- <-]. constructor.
  - cbn [export_row]. rewrite (getColor_settled t size) by assumption.
    destruct (export_row t scale y (S x0) row (settled t c)) as [[ws c2]|] eqn:E; [|discriminate].
    intros [= <- <-]. constructor.
    + split; [left; reflexivity | reflexivity].
    + specialize (IH _ _ _ _ E). rewrite (settled_idem t size) in IH by assumption.
      eapply Forall_impl; [exact IH|]. cbv beta. intros vert [Hin Hc].
      split; [right; exact Hin | exact Hc].
Qed.

Lemma export_rows_colours (t : Terr) (size : nat) (scale : F)
    (rows : list (list F)) (y0 : nat) (c : HeightCache) (vs : list (vec3 F * vec3 F))
    (c' : HeightCache) :
  dims size (grid t) -> (0 < size)%nat ->
  export_rows t scale y0 rows c = Some (vs, c') ->
  Forall (fun vert => In (vz (fst vert)) (concat rows) /\
                      snd vert = band_color (normalized (settled t c) (vz (fst vert)))) vs.
Proof.
  intros Hd Hs. revert y0 c vs c'. induction rows as [|row rows IH]; intros y0 c vs c'.
  - cbn [export_rows]. intros [= <- <-]. constructor.
  - cbn [export_rows].
    destruct (export_row t scale y0 0 row c) as [[us c1]|] eqn:E1; [|discriminate].
    destruct (export_rows t scale (S y0) rows c1) as [[ws c2]|] eqn:E2; [|discriminate].
    intros [= <- <-].
    pose proof (export_row_colours _ _ _ _ _ _ _ _ _ Hd Hs E1) as H1.
    pose proof (IH _ _ _ _ E2) as H2.
    destruct (export_row_spec t size scale y0 row 0 c Hd Hs) as (us' & E1' & _ & _).
    rewrite E1 in E1'. injection E1' as _ Hc1.
    apply Forall_app. split.
    + eapply Forall_impl; [exact H1|]. cbv beta. intros vert [Hin Hc].
      split; [cbn [concat]; apply in_or_app; left; exact Hin | exact Hc].
    + destruct row as [|z row].
      * subst c1. eapply Forall_impl; [exact H2|]. cbv beta. intros vert [Hin Hc].
        split; [exact Hin | exact Hc].
      * subst c1. rewrite (settled_idem t size) in H2 by assumption.
        eapply Forall_impl; [exact H2|]. cbv beta. intros vert [Hin Hc].
        split; [cbn [concat]; apply in_or_app; right; exact Hin | exact Hc].
Qed.

Lemma length_concat_map {A B : Type} (f : A -> list B) (l : list A) (k : nat) :
  (forall x, length (f x) = k) -> length (concat (map f l)) = (length l * k)%nat.
Proof.
  intros Hf. induction l as [|x l IH]; [reflexivity|].
  cbn [map concat length]. rewrite length_app, IH, Hf. lia.
Qed.

Lemma length_faces (size : nat) :
  length (concat (map (fun y => concat (map (cell_faces size y) (seq 0 (size - 1))))
                      (seq 0 (size - 1))))
  = (2 * ((size - 1) * (size - 1)))%nat.
Proof.
  rewrite (length_concat_map _ _ ((size - 1) * 2)).
  - rewrite length_seq. lia.
  - intros y. rewrite (length_concat_map _ _ 2); [rewrite length_seq; reflexivity|].
    intros x. reflexivity.
Qed.

Lemma faces_closed (size : nat) :
  Forall (face_closed (size * size))
    (concat (map (fun y => concat (map (cell_faces size y) (seq 0 (size - 1))))
                 (seq 0 (size - 1)))).
Proof.
  apply Forall_forall. intros f Hf. apply list_elem_of_In in Hf.
  apply in_concat in Hf as (l & Hl & Hf).
  apply in_map_iff in Hl as (y & <- & Hy).
  apply in_concat in Hf as (l' & Hl' & Hf).
  apply in_map_iff in Hl' as (x & <- & Hx).
  apply in_seq in Hx, Hy.
  unfold cell_faces in Hf. cbn [In] in Hf. unfold face_closed.
  destruct Hf as [<-|[<-|[]]]; cbn [fst snd]; nia.
Qed.

Lemma int32_small (z : Z) :
  (-2147483648 <= z < 2147483648)%Z -> int32 z = z.
Proof.
  intros Hz. unfold int32.
  rewrite Z.mod_small by lia. lia.
Qed.

Lemma exportToRD_runs (t : Terr) (size : nat) (c : HeightCache) :
  dims size (grid t) -> (0 < size)%nat ->
  exists vs,
    exportToRD true t c
    = Some (Some {| vertices := vs;
                    faces := concat (map (fun y => concat (map (cell_faces size y)
                                                               (seq 0 (size - 1))))
                                         (seq 0 (size - 1))) |}, settled t c) /\
    length vs = (size * size)%nat /\
    (forall j i row z, grid t !! j = Some row -> row !! i = Some z ->
       vs !! (j * size + i)%nat
       = Some ((of_int (Z.of_nat i) * (of_int 100 / of_int (Z.of_nat size - 1)),
                of_int (Z.of_nat j) * (of_int 100 / of_int (Z.of_nat size - 1)), z),
               band_color (normalized (settled t c) z))) /\
    Forall (fun vert => In (vz (fst vert)) (concat (grid t)) /\
                        snd vert = band_color (normalized (settled t c) (vz (fst vert)))) vs.
Proof.
  intros Hd Hs. pose proof Hd as [Hlen Hrows].
  destruct (export_rows_spec t size (of_int 100 / of_int (Z.of_nat size - 1)) (grid t) 0 c
              Hd Hs Hrows) as (vs & E & Hvs & Hlk).
  assert (Hne : (if grid t is [] then c else settled t c) = settled t c).
  { destruct (grid t); [cbn in Hlen; lia | reflexivity]. }
  rewrite Hne in E.
  exists vs. unfold exportToRD. cbn [negb].
  destruct (cell_lookup size (grid t) 0 0 Hd Hs Hs) as (row0 & v0 & -> & ->).
  rewrite Hlen, E.
  split; [reflexivity | split; [rewrite Hvs, Hlen; reflexivity | split]].
  - exact Hlk.
  - exact (export_rows_colours _ _ _ _ _ _ _ _ Hd Hs E).
Qed.

(** X1.  For a subdivision level [n] up to 14 the constructor builds a
    terrain, and [exportToRD], when it can open the output file, writes a
    closed mesh: (2^n + 1)^2 vertex records and 2 * 2^n * 2^n faces; the two
    [int] counts of the PolySet header line are these two numbers, without
    overflow; and every face names three vertices that exist.  When the file
    cannot be opened, nothing is written and the statics of [getColor] stay
    as they are. *)
Theorem export_mesh_closed (rng0 : G) (n : nat) (D : F) (seed : Z) (sigma : F)
    (c : HeightCache) :
  (n <= 14)%nat ->
  exists t ps c',
    FractalTerrain_new rng0 (Z.of_nat n) D seed sigma = Some t /\
    exportToRD true t c = Some (Some ps, c') /\
    exportToRD false t c = Some (None, c) /\
    length (vertices ps) = ((2 ^ n + 1) * (2 ^ n + 1))%nat /\
    length (faces ps) = (2 * (2 ^ n * 2 ^ n))%nat /\
    polyset_header t = (Z.of_nat (length (vertices ps)), Z.of_nat (length (faces ps))) /\
    Forall (face_closed (length (vertices ps))) (faces ps).
Proof.
  intros Hn.
  destruct (FractalTerrain_new_runs rng0 (Z.of_nat n) D seed sigma ltac:(lia))
    as (t & Hnew & _ & Hd).
  rewrite Nat2Z.id in Hd.
  destruct (exportToRD_runs t (2 ^ n + 1) c Hd ltac:(lia)) as (vs & E & Hvs & _ & _).
  eexists t, _, _. split; [exact Hnew | split; [exact E | split; [reflexivity|]]].
  cbn [vertices faces].
  assert (Hpow : (1 <= Z.of_nat (2 ^ n) <= 16384)%Z).
  { split; [pose proof (Nat.pow_nonzero 2 n); lia|].
    assert (H14 : (2 ^ n <= 2 ^ 14)%nat) by (apply Nat.pow_le_mono_r; lia).
    apply Nat2Z.inj_le in H14. exact H14. }
  split; [exact Hvs | split; [|split]].
  - rewrite length_faces. replace (2 ^ n + 1 - 1)%nat with (2 ^ n)%nat by lia. reflexivity.
  - unfold polyset_header. destruct Hd as [-> _]. rewrite Hvs, length_faces.
    replace (2 ^ n + 1 - 1)%nat with (2 ^ n)%nat by lia.
    revert Hpow. generalize (2 ^ n)%nat. intros k Hk.
    rewrite (int32_small (Z.of_nat (k + 1))) by lia.
    replace (Z.of_nat (k + 1) - 1)%Z with (Z.of_nat k) by lia.
    rewrite (int32_small (Z.of_nat k)) by lia.
    rewrite (int32_small (Z.of_nat k * Z.of_nat k)) by nia.
    rewrite !int32_small by nia.
    f_equal; lia.
  - rewrite Hvs. apply faces_closed.
Qed.

(** X2.  When it can open the output file, [exportToRD] writes the vertex
    of column [x] and row [y] as record number [y * size + x]: its position
    is (x * scale, y * scale, grid[y][x]) with scale = 100 / (size - 1).
    Every record carries the colour that [getColor] gives to its height
    under the height range the statics hold after the export.  When the file
    cannot be opened, no record is written. *)
Theorem export_vertex_layout (t : Terr) (size : nat) (c : HeightCache) (x y : nat)
    (row : list F) (z : F) :
  dims size (grid t) -> grid t !! y = Some row -> row !! x = Some z ->
  exportToRD false t c = Some (None, c) /\
  exists ps c',
    exportToRD true t c = Some (Some ps, c') /\
    vertices ps !! (y * size + x)%nat
    = Some ((of_int (Z.of_nat x) * (of_int 100 / of_int (Z.of_nat size - 1)),
             of_int (Z.of_nat y) * (of_int 100 / of_int (Z.of_nat size - 1)), z),
            band_color (normalized c' z)) /\
    Forall (fun vert => snd vert = band_color (normalized c' (vz (fst vert)))) (vertices ps).
Proof.
  intros Hd Hy Hx.
  assert (Hs : (0 < size)%nat).
  { destruct Hd as [<- _]. apply lookup_lt_Some in Hy. lia. }
  destruct (exportToRD_runs t size c Hd Hs) as (vs & E & _ & Hlk & Hcol).
  split; [reflexivity|].
  eexists _, _. split; [exact E|]. cbn [vertices]. split.
  - exact (Hlk y x row z Hy Hx).
  - eapply Forall_impl; [exact Hcol|]. cbv beta. tauto.
Qed.

End TerrainExport.

Lemma export_mesh_closed_witness :
  exists t ps c',
    Terrain.FractalTerrain_new (SF := IEEE.double_ref)
      (NG := MT19937.normal (SF := IEEE.double_ref))
      {| MT19937.engine := MT19937.seed 0; MT19937.saved := None |}
      (Z.of_nat 2) (dec (SF := IEEE.double_ref) 25 10) 42 (IEEE.of_Z 53 1024 1) = Some t /\
    Terrain.exportToRD (SF := IEEE.double_ref) true t
      (Terrain.HeightCache_init (SF := IEEE.double_ref)) = Some (Some ps, c') /\
    Terrain.exportToRD (SF := IEEE.double_ref) false t
      (Terrain.HeightCache_init (SF := IEEE.double_ref))
    = Some (None, Terrain.HeightCache_init (SF := IEEE.double_ref)) /\
    length (Terrain.vertices ps) = (2 ^ 2 + 1) * (2 ^ 2 + 1) /\
    length (Terrain.faces ps) = 2 * (2 ^ 2 * 2 ^ 2) /\
    Terrain.polyset_header t
    = (Z.of_nat (length (Terrain.vertices ps)), Z.of_nat (length (Terrain.faces ps))) /\
    Forall (face_closed (length (Terrain.vertices ps))) (Terrain.faces ps).
Proof.
  apply (export_mesh_closed (SF := IEEE.double_ref)
           (NG := MT19937.normal (SF := IEEE.double_ref))).
  lia.
Defined.

Lemma export_vertex_layout_witness :
  Terrain.exportToRD (SF := IEEE.double_ref) false low_terrain
    (Terrain.HeightCache_init (SF := IEEE.double_ref))
  = Some (None, Terrain.HeightCache_init (SF := IEEE.double_ref)) /\
  exists ps c',
    Terrain.exportToRD (SF := IEEE.double_ref) true low_terrain
      (Terrain.HeightCache_init (SF := IEEE.double_ref)) = Some (Some ps, c') /\
    Terrain.vertices ps !! (0 * 2 + 1)
    = Some ((SFmul 53 1024 (IEEE.of_Z 53 1024 (Z.of_nat 1))
               (SFdiv 53 1024 (IEEE.of_Z 53 1024 100)
                  (IEEE.of_Z 53 1024 (Z.of_nat 2 - 1))),
             SFmul 53 1024 (IEEE.of_Z 53 1024 (Z.of_nat 0))
               (SFdiv 53 1024 (IEEE.of_Z 53 1024 100)
                  (IEEE.of_Z 53 1024 (Z.of_nat 2 - 1))),
             IEEE.of_Z 53 1024 2),
            Terrain.band_color (SF := IEEE.double_ref)
              (Terrain.normalized (SF := IEEE.double_ref) c' (IEEE.of_Z 53 1024 2))) /\
    Forall (fun vert =>
              snd vert = Terrain.band_color (SF := IEEE.double_ref)
                           (Terrain.normalized (SF := IEEE.double_ref) c' (vz (fst vert))))
           (Terrain.vertices ps).
Proof.
  apply (export_vertex_layout (SF := IEEE.double_ref)
           low_terrain 2 _ 1 0 [IEEE.of_Z 53 1024 1; IEEE.of_Z 53 1024 2]).
  - split; [reflexivity | repeat constructor].
  - reflexivity.
  - reflexivity.
Defined.

(** ** Fractal terrain: a flat terrain *)

Section TerrainFlat.
Context {G : Type} (L : IEEE.Libm).
Import Terrain.

Let SF64 : Scalar spec_float := IEEE.binary64 L.
#[local] Existing Instance SF64.
Local Abbreviation Terr := (FractalTerrain (F := spec_float) (G := G)).

Lemma level_sub (v a b : spec_float) :
  level v a -> level v b -> is_zero (SFsub 53 1024 a b) = true.
Proof.
  intros [Hv [->|[Hz Ha]]] [_ [->|[Hz' Hb]]].
  - destruct v as [s|s| |s m e]; try discriminate.
    + cbn [SFsub]. destruct s; reflexivity.
    + cbn [SFsub]. rewrite Z.sub_diag. reflexivity.
  - destruct v as [s| | |]; try discriminate. destruct b as [s'| | |]; try discriminate.
    cbn [SFsub]. destruct s, s'; reflexivity.
  - destruct v as [s| | |]; try discriminate. destruct a as [s'| | |]; try discriminate.
    cbn [SFsub]. destruct s, s'; reflexivity.
  - destruct a as [s| | |]; try discriminate. destruct b as [s'| | |]; try discriminate.
    cbn [SFsub]. destruct s, s'; reflexivity.
Qed.

Lemma scan_level (g : list (list spec_float)) (v mn mx : spec_float) :
  Forall (Forall (level v)) g -> level v mn -> level v mx ->
  level v (fst (scan_heights g mn mx)) /\ level v (snd (scan_heights g mn mx)).
Proof.
  unfold scan_heights. intros Hg. revert mn mx.
  induction Hg as [|row g Hrow _ IH]; intros mn mx Hmn Hmx; [split; assumption|].
  cbn [foldl].
  assert (Hr : forall acc, level v (fst acc) -> level v (snd acc) ->
            level v (fst (foldl (fun acc val => (s_min (fst acc) val, s_max (snd acc) val))
                                acc row)) /\
            level v (snd (foldl (fun acc val => (s_min (fst acc) val, s_max (snd acc) val))
                                acc row))).
  { induction Hrow as [|z row Hz _ IHr]; intros acc Ha Hb; [split; assumption|].
    cbn [foldl]. apply IHr; cbn [fst snd]; unfold s_min, s_max.
    - destruct (s_ltb z (fst acc)); assumption.
    - destruct (s_ltb (snd acc) z); assumption. }
  destruct (Hr (mn, mx) Hmn Hmx) as [H1 H2].
  destruct (foldl _ (mn, mx) row) as [mn' mx']. apply IH; assumption.
Qed.

Lemma band_color_nan : band_color S754_nan = snowColor.
Proof. reflexivity. Qed.

(** X3.  A flat terrain is exported white.  When every height is the same
    finite number (zeros of either sign count as the same), the height range
    has not been computed yet and the output file can be opened, max - min is
    zero, the normalised height of every vertex is 0 / 0 = NaN, every
    comparison of the colour ladder fails, and each vertex is written with
    [snowColor]. *)
Theorem flat_terrain_exports_snow (t : Terr) (size : nat) (v : spec_float)
    (c : HeightCache) :
  dims size (grid t) -> (0 < size)%nat ->
  Forall (Forall (level v)) (grid t) ->
  heightsCalculated c = false ->
  exists ps c',
    exportToRD true t c = Some (Some ps, c') /\
    Forall (fun vert => normalized c' (vz (fst vert)) = S754_nan /\ snd vert = snowColor)
           (vertices ps).
Proof.
  intros Hd Hs Hflat Hc.
  destruct (exportToRD_runs t size c Hd Hs) as (vs & E & _ & _ & Hcol).
  assert (Hset : level v (minHeight (settled t c)) /\ level v (maxHeight (settled t c))).
  { unfold settled. rewrite Hc.
    destruct (cell_lookup size (grid t) 0 0 Hd Hs Hs) as (row & z & Hr & Hz).
    rewrite Hr, Hz. cbn [minHeight maxHeight].
    assert (Hl : level v z).
    { rewrite Forall_lookup in Hflat. pose proof (Hflat 0%nat row Hr) as Hrow.
      rewrite Forall_lookup in Hrow. exact (Hrow 0%nat z Hz). }
    apply scan_level; assumption. }
  destruct Hset as [Hmn Hmx].
  assert (Hnan : forall z, level v z -> normalized (settled t c) z = S754_nan).
  { intros z Hz. unfold normalized.
    change (SFdiv 53 1024 (SFsub 53 1024 z (minHeight (settled t c)))
              (SFsub 53 1024 (maxHeight (settled t c)) (minHeight (settled t c))) = S754_nan).
    pose proof (level_sub v _ _ Hz Hmn) as H1. pose proof (level_sub v _ _ Hmx Hmn) as H2.
    destruct (SFsub 53 1024 z _); try discriminate.
    destruct (SFsub 53 1024 (maxHeight _) _); try discriminate. reflexivity. }
  eexists _, _. split; [exact E|]. cbn [vertices].
  eapply Forall_impl; [exact Hcol|]. cbv beta. intros vert [Hin ->].
  assert (Hl : level v (vz (fst vert))).
  { apply in_concat in Hin as (row & Hrow & Hin).
    rewrite Forall_forall in Hflat. apply list_elem_of_In in Hrow.
    pose proof (Hflat row Hrow) as Hr. rewrite Forall_forall in Hr.
    apply Hr. apply list_elem_of_In. exact Hin. }
  rewrite (Hnan _ Hl). split; [reflexivity | apply band_color_nan].
Qed.

End TerrainFlat.

Lemma flat_terrain_exports_snow_witness :
  exists ps c',
    Terrain.exportToRD (SF := IEEE.double_ref) true flat_terrain
      (Terrain.HeightCache_init (SF := IEEE.double_ref)) = Some (Some ps, c') /\
    Forall (fun vert =>
              Terrain.normalized (SF := IEEE.double_ref) c' (vz (fst vert)) = S754_nan /\
              snd vert = Terrain.snowColor (SF := IEEE.double_ref))
           (Terrain.vertices ps).
Proof.
  apply (flat_terrain_exports_snow (IEEE.libm_ref 53 1024) flat_terrain 2 (S754_zero false)).
  - split; [reflexivity | repeat constructor].
  - lia.
  - repeat (first [apply List.Forall_nil | apply List.Forall_cons]);
      (split; [reflexivity | right; split; reflexivity]).
  - reflexivity.
Defined.

(** ** Fractal terrain: regeneration *)

Section TerrainRegeneration.
Context {F G : Type} {SF : Scalar F} {NG : Normal F G}.
Import Terrain.

Local Abbreviation Terr := (FractalTerrain (F := F) (G := G)).

(** X4.  [generateTerrain] depends on the parameters only.  Run on two
    objects with the same [n], [H], [seed] and [sigma] and a grid of side
    2^n + 1 each, whatever heights their grids hold and whatever state their
    generators are in, it returns the same heights and leaves the same
    generator state, for every level n <= 29 that the [int] loop variables
    can serve; above that level neither run returns. *)
Theorem generateTerrain_ignores_old_heights (t1 t2 : Terr) :
  n t1 = n t2 -> H t1 = H t2 -> seed t1 = seed t2 -> sigma t1 = sigma t2 ->
  dims (2 ^ n t1 + 1) (grid t1) -> dims (2 ^ n t2 + 1) (grid t2) ->
  ((n t1 <= 29)%nat ->
   exists t1' t2',
     generateTerrain t1 = Some t1' /\ generateTerrain t2 = Some t2' /\
     grid t1' = grid t2' /\ rng t1' = rng t2' /\
     dims (2 ^ n t1 + 1) (grid t1')) /\
  ((29 < n t1)%nat -> generateTerrain t1 = None /\ generateTerrain t2 = None).
Proof.
  intros Hn HH Hseed Hsigma Hd1 Hd2. split; [intros Hsmall | intros Hbig].
  2:{ unfold generateTerrain, generate. rewrite <- Hn.
      destruct (Nat.ltb_spec 29 (n t1)) as [_|Hle]; [split; reflexivity | lia]. }
  unfold generateTerrain.
  rewrite <- Hn in Hd2 |- *. rewrite <- HH, <- Hseed, <- Hsigma.
  rewrite Nat.add_1_r in Hd1, Hd2.
  destruct (generate_overwrites (n t1) (H t1) (seed t1) (sigma t1)
              (grid t1) (grid t2) (rng t1) (rng t2) Hsmall Hd1 Hd2) as (s & E1 & E2).
  rewrite E1, E2. eexists _, _. split; [reflexivity | split; [reflexivity|]].
  cbn [grid rng]. split; [reflexivity | split; [reflexivity|]].
  destruct (runs_generate (n t1) (H t1) (seed t1) (sigma t1) Hsmall
              {| st_grid := grid t1; st_rng := rng t1 |} Hd1) as (u & s' & E & Hd).
  rewrite E1 in E. injection E as _ <-. rewrite Nat.add_1_r. exact Hd.
Qed.

End TerrainRegeneration.

Lemma generateTerrain_ignores_old_heights_witness :
  exists t1' t2',
    Terrain.generateTerrain (SF := IEEE.double_ref)
      (NG := MT19937.normal (SF := IEEE.double_ref)) (used_terrain 1 7) = Some t1' /\
    Terrain.generateTerrain (SF := IEEE.double_ref)
      (NG := MT19937.normal (SF := IEEE.double_ref)) (used_terrain 10 8) = Some t2' /\
    Terrain.grid t1' = Terrain.grid t2' /\ Terrain.rng t1' = Terrain.rng t2' /\
    dims (2 ^ 0 + 1) (Terrain.grid t1').
Proof.
  refine (proj1 (generateTerrain_ignores_old_heights (SF := IEEE.double_ref)
                   (NG := MT19937.normal (SF := IEEE.double_ref))
                   (used_terrain 1 7) (used_terrain 10 8) _ _ _ _ _ _) _).
  - reflexivity.
  - reflexivity.
  - reflexivity.
  - reflexivity.
  - split; [reflexivity | repeat constructor].
  - split; [reflexivity | repeat constructor].
  - cbn. lia.
Defined.

(** ** Static mode: the scene *)

Section StaticScene.
Context {F G : Type} {SF : Scalar F} {UG : Uniform F G}.
Import Static.

Local Abbreviation Point := (TrackPoint (F := F)).

Lemma count_points_tubes (points : list Point) (has_prev : bool) (prev : option Point)
    (totals : Z * Z) :
  (has_prev = true <-> prev <> None) ->
  count_points has_prev points totals
  = ((fst totals + Z.of_nat (length (filter (fun p => active p = true) points)))%Z,
     (snd totals + Z.of_nat (length (tubes prev points)))%Z).
Proof.
  revert has_prev prev totals.
  induction points as [|p rest IH]; intros has_prev prev [a s] Hprev.
  - cbn. f_equal; lia.
  - cbn [count_points tubes]. rewrite filter_cons.
    destruct (active p) eqn:Ep.
    + destruct (decide (true = true)) as [_|Hn]; [|congruence].
      rewrite (IH true (Some p)) by (split; [discriminate | reflexivity]).
      cbn [fst snd length]. destruct prev as [q|].
      * assert (has_prev = true) as -> by (apply Hprev; discriminate).
        cbn [length]. f_equal; lia.
      * assert (has_prev = false) as ->.
        { destruct has_prev; [|reflexivity]. exfalso. apply Hprev; reflexivity. }
        f_equal; lia.
    + destruct (decide (false = true)) as [Hn|_]; [discriminate|].
      rewrite (IH false None) by (split; [discriminate | congruence]). reflexivity.
Qed.

Lemma scene_counts (tracks : list (list Point)) :
  announced_segments (generateRDScene tracks)
  = Z.of_nat (length (concat (track_tubes (generateRDScene tracks)))) /\
  fst (count_tracks tracks)
  = Z.of_nat (length (filter (fun p => active p = true) (concat tracks))).
Proof.
  unfold generateRDScene, count_tracks. cbn [announced_segments track_tubes].
  assert (Hgen : forall totals,
            foldl (fun totals track => count_points false track totals) totals tracks
            = ((fst totals
                + Z.of_nat (length (filter (fun p => active p = true) (concat tracks))))%Z,
               (snd totals
                + Z.of_nat (length (concat (map (tubes None) tracks))))%Z)).
  { induction tracks as [|t tracks IH]; intros [a s].
    - cbn. f_equal; lia.
    - cbn [foldl map concat].
      rewrite (count_points_tubes t false None) by (split; [discriminate | congruence]).
      rewrite IH. cbn [fst snd]. rewrite filter_app, !length_app. f_equal; lia. }
  rewrite Hgen. cbn [fst snd]. split; lia.
Qed.

(** *** The tubes of a generated track *)

Lemma generate_prefix (points : list Point) (g : G) :
  length points = POINTS_PER_TRACK ->
  length (fst (generate points g)) = POINTS_PER_TRACK /\
  active_at 0 (fst (generate points g)) = true /\
  prefix_active POINTS_PER_TRACK (fst (generate points g)).
Proof.
  intros Hlen. unfold generate.
  destruct_pairs.
  destruct (points !! 0) as [p0|] eqn:E0.
  2:{ apply lookup_ge_None_1 in E0. unfold POINTS_PER_TRACK in Hlen. lia. }
  match goal with
  | |- context [generate_loop ?k ?i ?pos ?dir ?pts ?gg] =>
      destruct (generate_loop_prefix k i pos dir pts gg) as (H1 & H2 & H3)
  end.
  - rewrite length_insert. exact Hlen.
  - lia.
  - reflexivity.
  - intros x y Hxy Hy. lia.
  - split; [exact H1 | split; [|exact H2]].
    rewrite H3. rewrite active_at_insert by (unfold POINTS_PER_TRACK in Hlen; lia).
    reflexivity.
Qed.

Lemma tubes_inactive (points : list Point) (prev : option Point) :
  (forall j, active_at j points = false) -> tubes prev points = [].
Proof.
  revert prev. induction points as [|p rest IH]; intros prev Hall; [reflexivity|].
  cbn [tubes]. pose proof (Hall 0) as H0. cbn in H0. rewrite H0.
  apply IH. intros j. exact (Hall (S j)).
Qed.

Lemma active_at_leading (points : list Point) (j : nat) :
  prefix_active (length points) points ->
  active_at j points = true <-> j < leading points.
Proof.
  revert j. induction points as [|p rest IH]; intros j Hpre.
  - cbn. split; [discriminate | lia].
  - assert (Hrest : prefix_active (length rest) rest).
    { intros a b Hab Hb Ha. apply (Hpre (S a) (S b)); [lia | cbn; lia | exact Ha]. }
    cbn [leading]. destruct (active p) eqn:Ep.
    + destruct j as [|j]; [cbn; rewrite Ep; split; [lia | reflexivity]|].
      change (active_at (S j) (p :: rest)) with (active_at j rest).
      rewrite (IH j Hrest). lia.
    + split; [|lia]. intros Hj. exfalso.
      destruct j as [|j]; [cbn in Hj; congruence|].
      destruct (Nat.lt_ge_cases (S j) (length (p :: rest))) as [Hlt|Hge].
      * rewrite (Hpre 0 (S j)) in Hj; [discriminate | lia | exact Hlt | cbn; exact Ep].
      * rewrite active_at_beyond in Hj by exact Hge. discriminate.
Qed.

(** After the point [q], the tubes of a track whose active points are a
    prefix join each active point to the one before. *)
Lemma tubes_chain (points : list Point) (q : Point) :
  prefix_active (length points) points ->
  length (tubes (Some q) points) = leading points /\
  forall k a b, (q :: points) !! k = Some a -> points !! k = Some b -> k < leading points ->
    tubes (Some q) points !! k = Some (position a, position b, color b).
Proof.
  revert q. induction points as [|p rest IH]; intros q Hpre.
  - split; [reflexivity|]. intros k a b _ Hb. discriminate.
  - assert (Hrest : prefix_active (length rest) rest).
    { intros a b Hab Hb Ha. apply (Hpre (S a) (S b)); [lia | cbn; lia | exact Ha]. }
    cbn [tubes leading]. destruct (active p) eqn:Ep.
    + destruct (IH p Hrest) as [Hlen Hlk]. split; [cbn [length]; rewrite Hlen; reflexivity|].
      intros [|k] a b Ha Hb Hk.
      * injection Ha as <-. injection Hb as <-. reflexivity.
      * apply (Hlk k a b); [exact Ha | exact Hb | lia].
    + split; [|intros k a b _ _ Hk; lia].
      rewrite tubes_inactive; [reflexivity|].
      intros j. destruct (Nat.lt_ge_cases j (length rest)) as [Hlt|Hge].
      * apply (Hpre 0 (S j)); [lia | cbn; lia | cbn; exact Ep].
      * apply active_at_beyond. exact Hge.
Qed.

Lemma generated_track_shape (points : list Point) (g : G) :
  length points = POINTS_PER_TRACK ->
  let track := fst (generate points g) in
  let m := leading track in
  1 <= m <= POINTS_PER_TRACK /\
  (forall j, active_at j track = true <-> j < m) /\
  length (tubes None track) = m - 1 /\
  forall k a b, track !! k = Some a -> track !! S k = Some b -> S k < m ->
    tubes None track !! k = Some (position a, position b, color b).
Proof.
  intros Hlen track m.
  destruct (generate_prefix points g Hlen) as (Hl & H0 & Hpre). fold track in Hl, H0, Hpre.
  rewrite <- Hl in Hpre.
  pose proof (fun j => active_at_leading track j Hpre) as Hact. fold m in Hact.
  assert (Hm : 1 <= m <= POINTS_PER_TRACK).
  { split; [apply Hact in H0; lia|].
    destruct (Nat.le_gt_cases m POINTS_PER_TRACK) as [|Hgt]; [assumption|].
    assert (Hb : active_at POINTS_PER_TRACK track = true) by (apply Hact; lia).
    rewrite active_at_beyond in Hb by lia. discriminate. }
  split; [exact Hm | split; [exact Hact|]].
  unfold m in *. clear Hact. destruct track as [|p rest]; [cbn in Hm; lia|].
  cbn [leading] in *. cbn in H0. rewrite H0 in *. cbn [tubes]. rewrite H0.
  assert (Hrest : prefix_active (length rest) rest).
  { intros a b Hab Hb Ha. apply (Hpre (S a) (S b)); [lia | cbn; lia | exact Ha]. }
  destruct (tubes_chain rest p Hrest) as [Hlen' Hlk].
  split; [rewrite Hlen'; lia|].
  intros k a b Ha Hb Hk. apply (Hlk k a b); [exact Ha | exact Hb | lia].
Qed.

(** *** The colour of an active point *)

Lemma deactivate_from_lookup (k from a : nat) (points : list Point) (p : Point) :
  deactivate_from k from points !! a = Some p -> active p = true ->
  points !! a = Some p.
Proof.
  revert from points. induction k as [|k IH]; intros from points; cbn [deactivate_from].
  - auto.
  - intros Hp Hact. specialize (IH _ _ Hp Hact).
    destruct (points !! from) as [q|] eqn:Eq; [|exact IH].
    destruct (decide (a = from)) as [->|Hne].
    + rewrite list_lookup_insert_eq in IH by (eapply lookup_lt_Some; exact Eq).
      injection IH as <-. cbn in Hact. discriminate.
    + rewrite list_lookup_insert_ne in IH by congruence. exact IH.
Qed.

Lemma generate_loop_coloured (k i : nat) (pos dir : vec3 F) (points : list Point) (g : G) :
  length points = POINTS_PER_TRACK -> i + k = POINTS_PER_TRACK ->
  (forall a p, a < i -> points !! a = Some p -> active p = true ->
     color p = fst (region (norm3 (position p)))) ->
  forall a p, fst (generate_loop k i pos dir points g) !! a = Some p -> active p = true ->
    color p = fst (region (norm3 (position p))).
Proof.
  revert i pos dir points g.
  induction k as [|k IH]; intros i pos dir points g Hlen Hik Hcol a p.
  - cbn [generate_loop fst]. intros Hp. apply (Hcol a p); [|exact Hp].
    apply lookup_lt_Some in Hp. lia.
  - cbn [generate_loop].
    destruct (points !! i) as [pi|] eqn:Ei.
    2:{ apply lookup_ge_None_1 in Ei. lia. }
    assert (Hlt : i < length points) by (eapply lookup_lt_Some; exact Ei).
    destruct (active_at (i - 1) points); cbn [negb].
    + destruct (perturb_direction dir g) as [dir1 g1].
      destruct (region (norm3 (step_position pos dir1))) as [col absorption_prob] eqn:Er.
      destruct (uniform_dist g1) as [u g2].
      set (points1 := <[i := {| position := step_position pos dir1; color := col;
                                active := true |}]> points).
      assert (Hcol1 : forall a p, a < S i -> points1 !! a = Some p -> active p = true ->
                color p = fst (region (norm3 (position p)))).
      { intros b q Hb Hq Hact. unfold points1 in Hq.
        destruct (decide (b = i)) as [->|Hne].
        - rewrite list_lookup_insert_eq in Hq by exact Hlt. injection Hq as <-.
          cbn [color position]. rewrite Er. reflexivity.
        - rewrite list_lookup_insert_ne in Hq by congruence.
          apply (Hcol b q); [lia | exact Hq | exact Hact]. }
      destruct (s_ltb u absorption_prob); cbn [fst].
      * intros Hp Hact. pose proof (deactivate_from_lookup _ _ _ _ _ Hp Hact) as Hp1.
        destruct (Nat.lt_ge_cases a (S i)) as [Ha|Ha]; [exact (Hcol1 a p Ha Hp1 Hact)|].
        exfalso.
        assert (Hd : active_at a (deactivate_from (POINTS_PER_TRACK - S i) (S i) points1)
                     = true) by (unfold active_at; rewrite Hp; exact Hact).
        rewrite deactivate_from_active in Hd.
        destruct (decide (S i <= a < S i + (POINTS_PER_TRACK - S i))) as [|Hout];
          [discriminate|].
        apply lookup_lt_Some in Hp1. unfold points1 in Hp1. rewrite length_insert in Hp1.
        lia.
      * apply IH; [unfold points1; rewrite length_insert; exact Hlen | lia | exact Hcol1].
    + set (points1 := <[i := set_active false pi]> points).
      apply IH; [unfold points1; rewrite length_insert; exact Hlen | lia |].
      intros b q Hb Hq Hact. unfold points1 in Hq.
      destruct (decide (b = i)) as [->|Hne].
      * rewrite list_lookup_insert_eq in Hq by exact Hlt. injection Hq as <-.
        cbn in Hact. discriminate.
      * rewrite list_lookup_insert_ne in Hq by congruence.
        apply (Hcol b q); [lia | exact Hq | exact Hact].
Qed.

(** X7.  Every active point of a generated track has the colour of the
    region its position lies in, by the distance of the position from the
    origin: core, moderator or reflector. *)
Theorem active_points_coloured_by_region (points : list Point) (g : G) :
  length points = POINTS_PER_TRACK ->
  Forall (fun p => active p = true -> color p = fst (region (norm3 (position p))))
         (fst (generate points g)).
Proof.
  intros Hlen. apply Forall_lookup. intros a p. revert a p. unfold generate.
  destruct_pairs.
  destruct (points !! 0) as [p0|] eqn:E0.
  2:{ apply lookup_ge_None_1 in E0. unfold POINTS_PER_TRACK in Hlen. lia. }
  apply generate_loop_coloured.
  - rewrite length_insert. exact Hlen.
  - reflexivity.
  - intros idx q Hidx Hq Hact. assert (idx = 0) as -> by lia.
    rewrite list_lookup_insert_eq in Hq by (unfold POINTS_PER_TRACK in Hlen; lia).
    injection Hq as <-. reflexivity.
Qed.

(** *** The scene of the program *)

Lemma filter_active_leading (points : list Point) :
  prefix_active (length points) points ->
  length (filter (fun p => active p = true) points) = leading points.
Proof.
  induction points as [|p rest IH]; intros Hpre; [reflexivity|].
  assert (Hrest : prefix_active (length rest) rest).
  { intros a b Hab Hb Ha. apply (Hpre (S a) (S b)); [lia | cbn; lia | exact Ha]. }
  rewrite filter_cons. cbn [leading]. destruct (active p) eqn:Ep.
  - destruct (decide (true = true)) as [_|Hn]; [|congruence].
    cbn [length]. rewrite (IH Hrest). reflexivity.
  - destruct (decide (false = true)) as [Hn|_]; [discriminate|].
    assert (Hall : Forall (fun q => active q = false) rest).
    { apply Forall_lookup. intros j q Hq.
      assert (Hj : active_at (S j) (p :: rest) = false).
      { apply (Hpre 0 (S j)); [lia | cbn; apply lookup_lt_Some in Hq; lia | cbn; exact Ep]. }
      change (active_at j rest = false) in Hj. unfold active_at in Hj.
      rewrite Hq in Hj. exact Hj. }
    clear -Hall. induction Hall as [|q rest Hq _ IHr]; [reflexivity|].
    rewrite filter_cons. destruct (decide (active q = true)) as [Hn|_]; [congruence|].
    exact IHr.
Qed.

Lemma generate_all_each (Q : list Point -> Prop) (tracks : list (list Point)) (g : G) :
  (forall t g', length t = POINTS_PER_TRACK -> Q (fst (generate t g'))) ->
  Forall (fun t => length t = POINTS_PER_TRACK) tracks ->
  length (fst (generate_all tracks g)) = length tracks /\
  Forall Q (fst (generate_all tracks g)).
Proof.
  intros HQ Hall. revert g. induction Hall as [|t tracks Ht _ IH]; intros g.
  - split; [reflexivity | constructor].
  - cbn [generate_all]. pose proof (HQ t g Ht) as Hq.
    destruct (generate t g) as [t' g1]. specialize (IH g1).
    destruct (generate_all tracks g1) as [rest' g2]. cbn [fst] in *.
    destruct IH as [IH1 IH2]. split; [cbn [length]; rewrite IH1; reflexivity|].
    constructor; assumption.
Qed.

(** X8.  The scene of the program: 250 tracks of 20 points, each beginning
    with an active point.  The number of tube segments announced is the
    number of active points minus the number of tracks; it lies between 0
    and 4750. *)
Theorem scene_of_the_program (g : G) :
  let tracks := fst (NeutronTracks_new g) in
  let scene := generateRDScene tracks in
  length tracks = NUM_TRACKS /\
  Forall (fun t => length t = POINTS_PER_TRACK /\ active_at 0 t = true) tracks /\
  announced_segments scene = (fst (count_tracks tracks) - Z.of_nat NUM_TRACKS)%Z /\
  (0 <= announced_segments scene <= 4750)%Z.
Proof.
  intros tracks scene.
  set (Q := fun t : list Point =>
              length t = POINTS_PER_TRACK /\ active_at 0 t = true /\
              length (tubes None t) + 1 = length (filter (fun p => active p = true) t) /\
              length (tubes None t) <= 19).
  destruct (generate_all_each Q (replicate NUM_TRACKS NeutronTrack_new) g) as [Hlen HQ].
  - intros t g' Ht. unfold Q.
    destruct (generate_prefix t g' Ht) as (Hl & H0 & Hpre).
    destruct (generated_track_shape t g' Ht) as (Hm & _ & Htubes).
    rewrite <- Hl in Hpre. rewrite (filter_active_leading _ Hpre).
    unfold POINTS_PER_TRACK in Hm.
    split; [exact Hl | split; [exact H0 | split; lia]].
  - apply Forall_replicate. apply length_replicate.
  - rewrite length_replicate in Hlen. fold (NeutronTracks_new g) in Hlen, HQ. fold tracks in Hlen, HQ.
    destruct (scene_counts tracks) as [Hseg Hact]. fold scene in Hseg.
    assert (Hsum : length (concat (map (tubes None) tracks)) + length tracks
                   = length (filter (fun p => active p = true) (concat tracks)) /\
                   length (concat (map (tubes None) tracks)) <= 19 * length tracks).
    { clear -HQ. induction HQ as [|t ts (_ & _ & Ht & Hb) _ [IH1 IH2]]; [split; reflexivity|].
      cbn [map concat length]. rewrite filter_app, !length_app. lia. }
    destruct Hsum as [Hsum Hbound].
    split; [exact Hlen | split; [|split]].
    + eapply Forall_impl; [exact HQ|]. unfold Q. cbv beta. tauto.
    + rewrite Hseg, Hact. unfold scene. cbn [track_tubes generateRDScene]. lia.
    + rewrite Hseg. unfold scene. cbn [track_tubes generateRDScene]. rewrite Hlen in Hbound.
      unfold NUM_TRACKS in Hbound. lia.
Qed.

(** X5.  For any list of tracks, the number of tube segments that
    [generateRDScene] announces in its comment line is the number of tubes it
    writes, and the number of active points it counts is the number of
    active points. *)
Theorem scene_announces_its_tubes (tracks : list (list Point)) :
  announced_segments (generateRDScene tracks)
  = Z.of_nat (length (concat (track_tubes (generateRDScene tracks)))) /\
  fst (count_tracks tracks)
  = Z.of_nat (length (filter (fun p => active p = true) (concat tracks))).
Proof. apply scene_counts. Qed.

(** X6.  A generated track is drawn as one chain.  Its active points are
    the first [m] points, with 1 <= m <= 20; [generateRDScene] writes m - 1
    tubes for it, and tube [k] runs from the position of point [k] to the
    position of point [k + 1] in the colour of point [k + 1]. *)
Theorem generated_track_tubes (points : list Point) (g : G) :
  length points = POINTS_PER_TRACK ->
  let track := fst (generate points g) in
  let m := leading track in
  1 <= m <= POINTS_PER_TRACK /\
  (forall j, active_at j track = true <-> j < m) /\
  length (tubes None track) = m - 1 /\
  forall k a b, track !! k = Some a -> track !! S k = Some b -> S k < m ->
    tubes None track !! k = Some (position a, position b, color b).
Proof. apply generated_track_shape. Qed.

End StaticScene.

Lemma generated_track_tubes_witness :
  let track := fst (Static.generate (SF := IEEE.float_ref)
                      (UG := MT19937.uniform (SF := IEEE.float_ref))
                      (Static.NeutronTrack_new (SF := IEEE.float_ref)) (MT19937.seed 7)) in
  let m := leading track in
  1 <= m <= Static.POINTS_PER_TRACK /\
  (forall j, Static.active_at j track = true <-> j < m) /\
  length (Static.tubes None track) = m - 1 /\
  forall k a b, track !! k = Some a -> track !! S k = Some b -> S k < m ->
    Static.tubes None track !! k
    = Some (Static.position a, Static.position b, Static.color b).
Proof.
  apply (generated_track_tubes (SF := IEEE.float_ref)
           (UG := MT19937.uniform (SF := IEEE.float_ref))
           (Static.NeutronTrack_new (SF := IEEE.float_ref)) (MT19937.seed 7)).
  reflexivity.
Defined.

Lemma active_points_coloured_by_region_witness :
  Forall (fun p => Static.active p = true ->
                   Static.color p
                   = fst (Static.region (SF := IEEE.float_ref)
                            (norm3 (SF := IEEE.float_ref) (Static.position p))))
         (fst (Static.generate (SF := IEEE.float_ref)
                 (UG := MT19937.uniform (SF := IEEE.float_ref))
                 (Static.NeutronTrack_new (SF := IEEE.float_ref)) (MT19937.seed 7))).
Proof.
  apply (active_points_coloured_by_region (SF := IEEE.float_ref)
           (UG := MT19937.uniform (SF := IEEE.float_ref))
           (Static.NeutronTrack_new (SF := IEEE.float_ref)) (MT19937.seed 7)).
  reflexivity.
Defined.

(** ** Dynamic mode: the pool through a run *)

Section DynamicPool.
Context {F G : Type} {SF : Scalar F} {UG : Uniform F G}.
Import Dynamic.
Local Open Scope scalar_scope.

Variable P : Params (F := F).

Local Abbreviation Neutron := (Dynamic.Neutron (F := F)).
Local Abbreviation Sim := (Dynamic.Sim (F := F) (G := G)).

Lemma activate_loop_Forall (Q : Neutron -> Prop)
    (init : Neutron -> G -> Neutron * G) (limit count : Z) (ns : list Neutron) (g : G) :
  (forall n g', Q (fst (init n g'))) -> Forall Q ns ->
  Forall Q (fst (activate_loop init limit count ns g)).
Proof.
  intros Hinit Hns. revert count g.
  induction Hns as [|n rest Hn Hrest IH]; intros count g; cbn [activate_loop]; [constructor|].
  destruct (active n); cbn [negb].
  - specialize (IH count g). destruct (activate_loop init limit count rest g) as [rest' g1].
    cbn [fst] in *. constructor; assumption.
  - pose proof (Hinit n g) as Hq. destruct (init n g) as [n' g1]. cbn [fst] in Hq.
    destruct (limit <=? count + 1)%Z; cbn [fst].
    + constructor; [exact Hq|]. assumption.
    + specialize (IH (count + 1)%Z g1).
      destruct (activate_loop init limit (count + 1) rest g1) as [rest' g2].
      cbn [fst] in *. constructor; assumption.
Qed.

Lemma Neutron_init_group (n : Neutron) (g : G) :
  energy_group (fst (Neutron_init P n g)) = 0%nat.
Proof. unfold Neutron_init, getFloat. destruct_pairs. reflexivity. Qed.

Lemma initFromFission_group (pos : vec3 F) (n : Neutron) (g : G) :
  energy_group (fst (Neutron_initFromFission pos n g)) = 0%nat.
Proof. unfold Neutron_initFromFission. destruct_pairs. reflexivity. Qed.

Lemma scatter_loop_range (row : list F) (target : nat) (c r : F) (current : nat) :
  scatter_loop row target c r current = current \/
  (target <= scatter_loop row target c r current < target + length row)%nat.
Proof.
  revert target c. induction row as [|p row IH]; intros target c; cbn [scatter_loop].
  - left. reflexivity.
  - destruct (s_ltb r (c + p)).
    + right. cbn [length]. lia.
    + destruct (IH (S target) (c + p)) as [->|Hr]; [left; reflexivity|].
      right. cbn [length]. lia.
Qed.

Lemma scatter_group_range (g : nat) (r : F) :
  (g < NUM_ENERGY_GROUPS)%nat -> (scatter_group g r < NUM_ENERGY_GROUPS)%nat.
Proof.
  intros Hg. unfold scatter_group.
  destruct (scatter_loop_range (nth g SCATTERING_PROBABILITIES []) 0 (of_int 0) r g)
    as [->|Hr]; [exact Hg|].
  assert (Hlen : (length (nth g (SCATTERING_PROBABILITIES (F := F)) []) <= 3)%nat).
  { unfold NUM_ENERGY_GROUPS in Hg. unfold SCATTERING_PROBABILITIES.
    destruct g as [|[|[|g]]]; [cbn [nth length]; lia .. | lia]. }
  unfold NUM_ENERGY_GROUPS. lia.
Qed.

Lemma advance_group_in_range (dt : F) (n : Neutron) :
  group_in_range n -> group_in_range (advance P dt n).
Proof. unfold group_in_range. rewrite advance_group. auto. Qed.

Lemma length_push_event (e : FissionEvent (F := F)) (es : list FissionEvent) :
  (length es <= 20)%nat -> (length (push_event e es) <= 20)%nat.
Proof.
  intros Hes. unfold push_event.
  destruct (Nat.ltb_spec 20 (length (es ++ [e]))) as [Hlt|Hge]; [|exact Hge].
  rewrite length_app in Hlt. cbn [length] in Hlt.
  destruct es as [|e0 es]; cbn [app tail]; [cbn; lia|].
  rewrite length_app. cbn [length] in *. lia.
Qed.

Lemma Neutron_update_invariant (size i : nat) (dt : F) (s : Sim) :
  pool_invariant size s -> pool_invariant size (fst (Neutron_update P i dt s)).
Proof.
  intros (Hlen & Hgrp & Hev). unfold Neutron_update.
  destruct (neutrons s !! i) as [n|] eqn:Hn; [|repeat split; assumption].
  assert (Hng : group_in_range n).
  { rewrite Forall_lookup in Hgrp. exact (Hgrp i n Hn). }
  assert (Hset : forall x g, group_in_range x ->
            pool_invariant size (set_neutron i x s g)).
  { intros x g Hx. unfold set_neutron. repeat split; cbn [neutrons fission_events].
    - rewrite length_insert. exact Hlen.
    - apply Forall_insert; assumption.
    - exact Hev. }
  destruct (active n); cbn [negb]; [|repeat split; assumption].
  destruct (s_ltb (max_lifetime P) _); cbn [fst]; [apply Hset; exact Hng|].
  destruct (getFloat (random_gen s)) as [u g1].
  destruct (s_ltb u _).
  - destruct (getFloat g1) as [r g2].
    destruct (s_ltb r _).
    + destruct (randomDirection g2) as [v g3]. destruct (getFloat g3) as [scatter_r g4].
      cbn [fst]. apply Hset. apply advance_group_in_range.
      unfold group_in_range. cbn [set_scatter energy_group set_lifetime].
      apply scatter_group_range. exact Hng.
    + destruct (s_ltb r _); cbn [fst]; [apply Hset; exact Hng|].
      destruct (getFloat g2) as [u3 g3].
      match goal with
      | |- context [activate_loop ?init ?lim ?cnt ?ns ?gg] =>
          pose proof (activate_loop_length init lim cnt ns gg) as HL;
          pose proof (activate_loop_Forall group_in_range init lim cnt ns gg) as HF;
          destruct (activate_loop init lim cnt ns gg) as [ns' g4]
      end.
      cbn [fst] in *. repeat split; cbn [neutrons fission_events].
      * rewrite HL, length_insert. exact Hlen.
      * apply HF.
        -- intros m g'. unfold group_in_range. rewrite initFromFission_group.
           unfold NUM_ENERGY_GROUPS. lia.
        -- apply Forall_insert; [exact Hgrp | exact Hng].
      * apply length_push_event. exact Hev.
  - cbn [fst]. apply Hset. apply advance_group_in_range. exact Hng.
Qed.

Lemma update_each_invariant (size : nat) (s : Sim) :
  pool_invariant size s -> pool_invariant size (update_each P s).
Proof.
  unfold update_each. generalize (seq 0 (length (neutrons s))). intros idx. revert s.
  induction idx as [|i idx IH]; intros s Hs; cbn [foldl]; [exact Hs|].
  apply IH. apply Neutron_update_invariant. exact Hs.
Qed.

Lemma respawn_invariant (size : nat) (s : Sim) :
  pool_invariant size s -> pool_invariant size (respawn P s).
Proof.
  intros (Hlen & Hgrp & Hev). unfold respawn.
  destruct (s_ltb _ (timestep P)); [|repeat split; assumption].
  match goal with
  | |- context [activate_loop ?init ?lim ?cnt ?ns ?gg] =>
      pose proof (activate_loop_length init lim cnt ns gg) as HL;
      pose proof (activate_loop_Forall group_in_range init lim cnt ns gg) as HF;
      destruct (activate_loop init lim cnt ns gg) as [ns' g4]
  end.
  cbn [fst] in *. repeat split; cbn [neutrons fission_events].
  - rewrite HL. exact Hlen.
  - apply HF; [|exact Hgrp]. intros m g'. unfold group_in_range.
    rewrite Neutron_init_group. unfold NUM_ENERGY_GROUPS. lia.
  - exact Hev.
Qed.

Lemma init_first_Forall (Q : Neutron -> Prop) (k : nat) (ns : list Neutron) (g : G) :
  (forall n g', Q (fst (Neutron_init P n g'))) -> Forall Q ns ->
  Forall Q (fst (init_first P k ns g)).
Proof.
  intros Hinit. revert ns g. induction k as [|k IH]; intros ns g Hns; cbn [init_first].
  - exact Hns.
  - destruct ns as [|n rest]; [exact Hns|].
    apply Forall_cons in Hns as [_ Hrest].
    pose proof (Hinit n g) as Hq. destruct (Neutron_init P n g) as [n1 g1].
    specialize (IH rest g1 Hrest). destruct (init_first P k rest g1) as [rest' g2].
    cbn [fst] in *. constructor; assumption.
Qed.

Lemma simulation_invariant (k : nat) (rd : Z) :
  pool_invariant (Z.to_nat (num_neutrons P)) (simulation_after P k rd).
Proof.
  induction k as [|k IH]; cbn [simulation_after].
  - unfold NeutronSimulation_new.
    match goal with
    | |- context [init_first P ?k ?ns ?gg] =>
        pose proof (init_first_length P k ns gg) as HL;
        pose proof (init_first_Forall group_in_range k ns gg) as HF;
        destruct (init_first P k ns gg) as [ns' g']
    end.
    cbn [fst] in *. repeat split; cbn [neutrons fission_events].
    + rewrite HL. apply length_replicate.
    + apply HF.
      * intros m g''. unfold group_in_range. rewrite Neutron_init_group.
        unfold NUM_ENERGY_GROUPS. lia.
      * apply Forall_replicate. unfold group_in_range, NUM_ENERGY_GROUPS. cbn. lia.
    + cbn. lia.
  - unfold NeutronSimulation_update. apply update_each_invariant, respawn_invariant.
    destruct IH as (H1 & H2 & H3). repeat split; assumption.
Qed.

(** *** How many neutrons the spawn loops activate *)

Lemma actives_cons (n : Neutron) (ns : list Neutron) :
  actives (n :: ns) = ((if active n then 1 else 0) + actives ns)%nat.
Proof.
  unfold actives. rewrite filter_cons.
  destruct (active n); [destruct (decide (true = true)); [reflexivity | congruence]|].
  destruct (decide (false = true)); [discriminate | reflexivity].
Qed.

Lemma actives_le (ns : list Neutron) : (actives ns <= length ns)%nat.
Proof.
  induction ns as [|n ns IH]; [cbn; lia|].
  rewrite actives_cons. cbn [length]. destruct (active n); lia.
Qed.

Lemma activate_loop_actives (init : Neutron -> G -> Neutron * G) (limit count : Z)
    (ns : list Neutron) (g : G) :
  (forall n g', active (fst (init n g')) = true) ->
  Z.of_nat (actives (fst (activate_loop init limit count ns g)))
  = (Z.of_nat (actives ns)
     + Z.min (Z.max (limit - count) 1) (Z.of_nat (length ns - actives ns)))%Z.
Proof.
  intros Hinit. revert count g.
  induction ns as [|n rest IH]; intros count g; cbn [activate_loop].
  - cbn. lia.
  - pose proof (actives_le rest) as Hle. rewrite (actives_cons n rest).
    destruct (active n) eqn:En; cbn [negb].
    + specialize (IH count g). destruct (activate_loop init limit count rest g) as [rest' g1].
      cbn [fst] in *. rewrite actives_cons, En. cbn [length].
      replace (S (length rest) - (1 + actives rest))%nat with (length rest - actives rest)%nat
        by lia.
      lia.
    + pose proof (Hinit n g) as Hact. destruct (init n g) as [n' g1]. cbn [fst] in Hact.
      cbn [length].
      replace (S (length rest) - (0 + actives rest))%nat
        with (S (length rest - actives rest)) by lia.
      destruct (Z.leb_spec limit (count + 1)) as [Hlim|Hlim]; cbn [fst].
      * rewrite actives_cons, Hact. lia.
      * specialize (IH (count + 1)%Z g1).
        destruct (activate_loop init limit (count + 1) rest g1) as [rest' g2].
        cbn [fst] in *. rewrite actives_cons, Hact. lia.
Qed.

Lemma actives_insert (ns : list Neutron) (i : nat) (n x : Neutron) :
  ns !! i = Some n ->
  (actives (<[i := x]> ns) + (if active n then 1 else 0)
   = actives ns + (if active x then 1 else 0))%nat.
Proof.
  revert i. induction ns as [|m ns IH]; intros i Hi; [discriminate|].
  destruct i as [|i].
  - injection Hi as ->. cbn [insert list_insert]. rewrite !actives_cons. lia.
  - cbn in Hi. specialize (IH i Hi).
    change (<[S i := x]> (m :: ns)) with (m :: <[i := x]> ns).
    rewrite !actives_cons. lia.
Qed.

(** The source fires: the first inactive neutrons of the pool are
    re-initialised, [spawn_count] of them and at least one. *)
Lemma respawn_count (s : Sim) :
  s_ltb (s_fmod (simulation_time s) (of_int 10)) (timestep P) = true ->
  Z.of_nat (actives (neutrons (respawn P s)))
  = (Z.of_nat (actives (neutrons s))
     + Z.min (Z.max (num_neutrons P ÷ 10) 1)
             (Z.of_nat (length (neutrons s) - actives (neutrons s))))%Z /\
  forall j n, neutrons s !! j = Some n -> active n = true ->
    neutrons (respawn P s) !! j = Some n.
Proof.
  intros Hfire. unfold respawn. rewrite Hfire.
  pose proof (activate_loop_actives (Neutron_init P) (num_neutrons P ÷ 10)%Z 0
                (neutrons s) (random_gen s) (Neutron_init_active P)) as Hcount.
  pose proof (activate_loop_lookup (Neutron_init P) (num_neutrons P ÷ 10)%Z 0
                (neutrons s) (random_gen s)) as Hlk.
  destruct (activate_loop _ _ 0 _ _) as [ns g]. cbn [fst neutrons] in *.
  split; [rewrite Hcount; rewrite Z.sub_0_r; reflexivity|].
  intros j n Hj Hact. destruct (Hlk j n Hj) as [H|[Hina _]]; [exact H | congruence].
Qed.

(** A fission: the parent leaves, and two or three neutrons are born in the
    first inactive slots, as far as there are any; the parent's own slot is
    one of them. *)
Lemma fission_count (i : nat) (dt : F) (s : Sim) (k : Z) :
  snd (Neutron_update P i dt s) = Fission k ->
  (k = 2 \/ k = 3)%Z /\
  (Z.of_nat (actives (neutrons (fst (Neutron_update P i dt s)))) + 1
   = Z.of_nat (actives (neutrons s))
     + Z.min k (Z.of_nat (length (neutrons s) - actives (neutrons s)) + 1))%Z.
Proof.
  unfold Neutron_update.
  destruct (neutrons s !! i) as [n|] eqn:Hn; [|discriminate].
  destruct (active n) eqn:En; cbn [negb]; [|discriminate].
  destruct (s_ltb (max_lifetime P) _); [discriminate|].
  destruct (getFloat (random_gen s)) as [u g1].
  destruct (s_ltb u _); [|discriminate].
  destruct (getFloat g1) as [r g2].
  destruct (s_ltb r _).
  { destruct (randomDirection g2) as [v g3]. destruct (getFloat g3) as [scatter_r g4].
    discriminate. }
  destruct (s_ltb r _); [discriminate|].
  destruct (getFloat g2) as [u3 g3].
  match goal with
  | |- context [activate_loop ?init ?lim ?cnt ?ns ?gg] =>
      pose proof (activate_loop_actives init lim cnt ns gg) as Hcount;
      destruct (activate_loop init lim cnt ns gg) as [ns' g4]
  end.
  cbn [fst snd neutrons] in *. intros [= <-].
  split; [destruct (s_ltb u3 _); auto|].
  rewrite Hcount by (intros m g'; apply initFromFission_active).
  pose proof (actives_insert (neutrons s) i n
                (set_active false (set_lifetime (lifetime n + dt) n)) Hn) as Hins.
  rewrite En in Hins. cbn [set_active active] in Hins.
  rewrite length_insert.
  pose proof (actives_le (neutrons s)) as Hle.
  assert (Hk : (Z.max ((if s_ltb u3 (dec 5 10) then 3 else 2) - 0) 1
                = (if s_ltb u3 (dec 5 10) then 3 else 2))%Z)
    by (destruct (s_ltb u3 _); lia).
  rewrite Hk.
  replace (Z.of_nat (length (neutrons s)
                     - actives (<[i := set_active false (set_lifetime (lifetime n + dt) n)]>
                                  (neutrons s))))
    with (Z.of_nat (length (neutrons s) - actives (neutrons s)) + 1)%Z by lia.
  lia.
Qed.

(** *** The direction segments of a frame *)

Lemma count_directions_min (ns : list Neutron) (c : Z) :
  (c < MAX_DIRECTIONS)%Z ->
  count_directions ns c = Z.min MAX_DIRECTIONS (c + Z.of_nat (actives ns)).
Proof.
  revert c. induction ns as [|n ns IH]; intros c Hc; cbn [count_directions].
  - cbn. lia.
  - rewrite actives_cons. unfold MAX_DIRECTIONS in *.
    destruct (active n).
    + destruct (Z.leb_spec 30 (c + 1)) as [Hle|Hlt]; [lia|].
      rewrite IH by exact Hlt. lia.
    + destruct (Z.leb_spec 30 c) as [Hle|Hlt]; [lia|].
      rewrite IH by exact Hlt. lia.
Qed.

Lemma direction_vertices_spec (ns : list Neutron) (c : Z) :
  (0 <= c < MAX_DIRECTIONS)%Z ->
  snd (direction_vertices ns c) = Z.min MAX_DIRECTIONS (c + Z.of_nat (actives ns)) /\
  fst (direction_vertices ns c)
  = flat_map (fun n => [(fst (direction_line n), group_color (energy_group n));
                        (snd (direction_line n), group_color (energy_group n))])
             (take (Z.to_nat (MAX_DIRECTIONS - c)) (filter (fun n => active n = true) ns)).
Proof.
  revert c. induction ns as [|n ns IH]; intros c Hc; cbn [direction_vertices].
  - cbn [fst snd]. rewrite filter_nil, take_nil. cbn. split; [lia | reflexivity].
  - rewrite actives_cons, filter_cons. unfold MAX_DIRECTIONS in *.
    destruct (active n).
    + destruct (decide (true = true)) as [_|Hn]; [|congruence].
      replace (Z.to_nat (30 - c)) with (S (Z.to_nat (30 - (c + 1)))) by lia.
      cbn [take flat_map].
      destruct (Z.leb_spec 30 (c + 1)) as [Hle|Hlt]; cbn [fst snd].
      * replace (Z.to_nat (30 - (c + 1))) with 0%nat by lia.
        rewrite take_0. cbn [flat_map]. split; [lia | reflexivity].
      * destruct (IH (c + 1)%Z ltac:(lia)) as [IH1 IH2].
        destruct (direction_vertices ns (c + 1)) as [ws k]. cbn [fst snd] in *.
        split; [lia|]. rewrite IH2. reflexivity.
    + destruct (decide (false = true)) as [Hn|_]; [discriminate|].
      destruct (IH c Hc) as [IH1 IH2]. split; [lia | exact IH2].
Qed.

Lemma length_flat_pairs {A B : Type} (f g : A -> B) (l : list A) :
  length (flat_map (fun x => [f x; g x]) l) = (2 * length l)%nat.
Proof. induction l as [|x l IH]; [reflexivity|]. cbn [flat_map app length]. lia. Qed.

Lemma renderDirections_spec (s : Sim) :
  let ls := renderDirections s in
  let shown := take 30 (filter (fun n => active n = true) (neutrons s)) in
  ls_header ls = (Z.of_nat (length (ls_vertices ls)), Z.of_nat (length (ls_segments ls))) /\
  length (ls_segments ls) = length shown /\
  ls_vertices ls
  = flat_map (fun n => [(fst (direction_line n), group_color (energy_group n));
                        (snd (direction_line n), group_color (energy_group n))]) shown /\
  Forall (fun seg => (0 <= fst seg < snd seg)%Z /\
                     (snd seg < Z.of_nat (length (ls_vertices ls)))%Z)
         (ls_segments ls).
Proof.
  intros ls shown. unfold ls, renderDirections.
  rewrite (count_directions_min (neutrons s) 0) by (unfold MAX_DIRECTIONS; lia).
  destruct (direction_vertices_spec (neutrons s) 0 ltac:(unfold MAX_DIRECTIONS; lia))
    as [Hc Hv].
  change (Z.to_nat (MAX_DIRECTIONS - 0)) with 30%nat in Hv. fold shown in Hv.
  assert (Hshown : Z.of_nat (length shown)
                   = Z.min MAX_DIRECTIONS (0 + Z.of_nat (actives (neutrons s)))).
  { unfold shown, actives, MAX_DIRECTIONS. rewrite length_take. lia. }
  rewrite <- Hshown in *.
  destruct (Z.eqb_spec (Z.of_nat (length shown)) 0) as [H0|H0].
  - assert (shown = []) as Hnil by (destruct shown; [reflexivity | cbn in H0; lia]).
    rewrite Hnil. cbn. repeat split; constructor.
  - destruct (direction_vertices (neutrons s) 0) as [vs count]. cbn [fst snd] in *.
    cbn [ls_header ls_vertices ls_segments]. subst vs count.
    rewrite Nat2Z.id, length_map, length_seq, length_flat_pairs.
    split; [f_equal; lia | split; [reflexivity | split; [reflexivity|]]].
    apply Forall_forall. intros seg Hseg. apply list_elem_of_In in Hseg.
    apply in_map_iff in Hseg as (i & <- & Hi). apply in_seq in Hi. cbn [fst snd]. lia.
Qed.

(** *** The neutrons of a frame, by energy group *)

Lemma groups_partition (ns : list Neutron) :
  Forall group_in_range ns ->
  length (concat (map (fun g => map position
                         (filter (fun n => active n = true /\ energy_group n = g) ns))
                      (seq 0 NUM_ENERGY_GROUPS)))
  = actives ns.
Proof.
  unfold NUM_ENERGY_GROUPS. cbn [seq map concat]. rewrite app_nil_r, !length_app, !length_map.
  induction 1 as [|n ns Hn _ IH]; [reflexivity|].
  rewrite actives_cons, !filter_cons. unfold group_in_range, NUM_ENERGY_GROUPS in Hn.
  destruct (active n).
  - destruct (decide (true = true /\ energy_group n = 0%nat)) as [[_ H0]|H0],
             (decide (true = true /\ energy_group n = 1%nat)) as [[_ H1]|H1],
             (decide (true = true /\ energy_group n = 2%nat)) as [[_ H2]|H2];
      cbn [length]; lia.
  - destruct (decide (false = true /\ energy_group n = 0%nat)) as [[H _]|_]; [discriminate|].
    destruct (decide (false = true /\ energy_group n = 1%nat)) as [[H _]|_]; [discriminate|].
    destruct (decide (false = true /\ energy_group n = 2%nat)) as [[H _]|_]; [discriminate|].
    cbn [length]. lia.
Qed.

End DynamicPool.

Section DynamicPopulation.
Context {F G : Type} {SF : Scalar F} {UG : Uniform F G}.
Import Dynamic.
Local Open Scope scalar_scope.

Variable P : Params (F := F).

Local Abbreviation Neutron := (Dynamic.Neutron (F := F)).
Local Abbreviation Sim := (Dynamic.Sim (F := F) (G := G)).

(** X9.  Throughout a run the pool keeps the size [num_neutrons] that the
    constructor gave it (the source and a fission only re-use inactive
    slots), and the queue of fission events never holds more than 20
    events. *)
Theorem pool_size_and_event_queue (k : nat) (rd : Z) :
  (0 <= num_neutrons P)%Z ->
  Z.of_nat (length (neutrons (simulation_after P k rd))) = num_neutrons P /\
  (length (fission_events (simulation_after P k rd)) <= 20)%nat.
Proof.
  intros Hn. destruct (simulation_invariant P k rd) as (Hlen & _ & Hev).
  split; [rewrite Hlen; lia | exact Hev].
Qed.

(** X10.  Throughout a run the energy group of every neutron of the pool
    is 0, 1 or 2: every access to [GROUP_ENERGIES],
    [SCATTERING_PROBABILITIES] and [GROUP_COLORS] is in range. *)
Theorem energy_group_stays_in_range (k : nat) (rd : Z) :
  Forall (fun n => (energy_group n < NUM_ENERGY_GROUPS)%nat /\
                   (energy_group n < length (GROUP_ENERGIES (F := F)))%nat /\
                   (energy_group n < length (SCATTERING_PROBABILITIES (F := F)))%nat /\
                   (energy_group n < length (GROUP_COLORS (F := F)))%nat)
         (neutrons (simulation_after P k rd)).
Proof.
  destruct (simulation_invariant P k rd) as (_ & Hgrp & _).
  eapply Forall_impl; [exact Hgrp|]. cbv beta. unfold group_in_range. intros n Hn.
  repeat split; exact Hn.
Qed.

(** X11.  When the source fires in [NeutronSimulation::update], the active
    neutrons stay as they are and inactive slots are re-initialised:
    num_neutrons / 10 of them, but at least one, since the loop tests the
    count after it has created a neutron, and no more than there are. *)
Theorem respawn_activates (s : Sim) :
  s_ltb (s_fmod (simulation_time s) (of_int 10)) (timestep P) = true ->
  Z.of_nat (actives (neutrons (respawn P s)))
  = (Z.of_nat (actives (neutrons s))
     + Z.min (Z.max (num_neutrons P ÷ 10) 1)
             (Z.of_nat (length (neutrons s) - actives (neutrons s))))%Z /\
  forall j n, neutrons s !! j = Some n -> active n = true ->
    neutrons (respawn P s) !! j = Some n.
Proof. apply respawn_count. Qed.

(** X12.  A fission creates 2 or 3 neutrons.  The parent is deactivated
    first and the new neutrons take the first inactive slots, the parent's
    among them: the number of active neutrons changes by
    min(k, free + 1) - 1 for [free] inactive slots before the call, so it
    never drops and it rises by at most 2. *)
Theorem fission_raises_population (i : nat) (dt : F) (s : Sim) (k : Z) :
  snd (Neutron_update P i dt s) = Fission k ->
  (k = 2 \/ k = 3)%Z /\
  (Z.of_nat (actives (neutrons (fst (Neutron_update P i dt s)))) + 1
   = Z.of_nat (actives (neutrons s))
     + Z.min k (Z.of_nat (length (neutrons s) - actives (neutrons s)) + 1))%Z /\
  (actives (neutrons s) <= actives (neutrons (fst (Neutron_update P i dt s)))
   <= actives (neutrons s) + 2)%nat.
Proof.
  intros Hf. destruct (fission_count P i dt s k Hf) as [Hk Hc].
  split; [exact Hk | split; [exact Hc|]].
  pose proof (actives_le (neutrons s)). lia.
Qed.

(** X13.  The LineSet of [renderDirections] is consistent.  Its header
    gives the numbers of vertex and of index records that follow; there is
    one segment for each of the first 30 active neutrons and none for the
    others; the vertex records are, in order, the two ends of the direction
    lines of the frame; and every index record [2i 2i+1] names two vertices
    that exist. *)
Theorem direction_lineset_closed (s : Sim) :
  let ls := renderDirections s in
  let shown := take 30 (filter (fun n => active n = true) (neutrons s)) in
  ls_header ls = (Z.of_nat (length (ls_vertices ls)), Z.of_nat (length (ls_segments ls))) /\
  length (ls_segments ls) = length shown /\
  map fst (ls_vertices ls) = flat_map (fun l => [fst l; snd l]) (fr_lines (generateFrame s)) /\
  Forall (fun seg => (0 <= fst seg < snd seg)%Z /\
                     (snd seg < Z.of_nat (length (ls_vertices ls)))%Z)
         (ls_segments ls).
Proof.
  intros ls shown. destruct (renderDirections_spec s) as (Hh & Hl & Hv & Hs).
  fold ls in Hh, Hl, Hv, Hs. fold shown in Hl, Hv.
  split; [exact Hh | split; [exact Hl | split; [|exact Hs]]].
  rewrite Hv. cbn [generateFrame fr_lines]. fold shown.
  clear. induction shown as [|n l IH]; [reflexivity|].
  cbn [flat_map map app fst snd]. rewrite IH. reflexivity.
Qed.

Lemma init_first_shape (k : nat) (ns : list Neutron) (g : G) (j : nat) (n' : Neutron) :
  fst (init_first P k ns g) !! j = Some n' ->
  ((j < k)%nat -> active n' = true) /\ ((k <= j)%nat -> ns !! j = Some n').
Proof.
  revert ns g j. induction k as [|k IH]; intros ns g j; cbn [init_first].
  - cbn [fst]. intros Hj. split; [lia | auto].
  - destruct ns as [|n rest]; [cbn [fst]; intros Hj; discriminate|].
    pose proof (Neutron_init_active P n g) as Ha.
    destruct (Neutron_init P n g) as [n1 g1]. specialize (IH rest g1).
    destruct (init_first P k rest g1) as [rest' g2]. cbn [fst] in *.
    destruct j as [|j].
    + intros [= <-]. split; [auto | lia].
    + intros Hj. destruct (IH j Hj) as [H1 H2].
      split; [intros; apply H1; lia | intros; apply H2; lia].
Qed.

(** X16.  The constructor of the simulation, for a count that is not
    negative, makes a pool of [num_neutrons] slots: the first
    num_neutrons / 3 hold active neutrons and the others are as the default
    constructor leaves them.  There is no fission event and the simulation
    time is 0. *)
Theorem constructor_population (rd : Z) :
  (0 <= num_neutrons P)%Z ->
  let s := NeutronSimulation_new P rd in
  Z.of_nat (length (neutrons s)) = num_neutrons P /\
  (forall j n, neutrons s !! j = Some n ->
     if (Z.of_nat j <? num_neutrons P ÷ 3)%Z then active n = true else n = Neutron_new) /\
  fission_events s = [] /\ simulation_time s = of_int 0.
Proof.
  intros Hn s. unfold s, NeutronSimulation_new.
  match goal with
  | |- context [init_first P ?k ?ns ?gg] =>
      pose proof (init_first_length P k ns gg) as HL;
      pose proof (init_first_shape k ns gg) as HS;
      destruct (init_first P k ns gg) as [ns' g']
  end.
  cbn [fst neutrons fission_events simulation_time] in *.
  split; [rewrite HL, length_replicate; lia | split; [|split; reflexivity]].
  intros j n Hj. destruct (HS j n Hj) as [H1 H2].
  destruct (Z.ltb_spec (Z.of_nat j) (num_neutrons P ÷ 3)) as [Hlt|Hge].
  - apply H1. lia.
  - assert (Hk : (Z.to_nat (num_neutrons P ÷ 3) <= j)%nat).
    { assert (0 <= num_neutrons P ÷ 3)%Z by (apply Z.quot_pos; lia). lia. }
    apply H2 in Hk. apply lookup_replicate in Hk as [-> _]. reflexivity.
Qed.

End DynamicPopulation.

Section DynamicFrames.
Context {F G : Type} {SF : Scalar F} {UG : Uniform F G}.
Import Dynamic.
Local Open Scope scalar_scope.

Variable P : Params (F := F).

Lemma frames_simulation_after (k j : nat) (rd : Z) :
  frames P k (simulation_after P j rd)
  = map (fun i => generateFrame (simulation_after P (S (j + i)) rd)) (seq 0 k).
Proof.
  revert j. induction k as [|k IH]; intros j; [reflexivity|].
  cbn [frames seq map]. rewrite Nat.add_0_r. f_equal.
  change (NeutronSimulation_update P (simulation_after P j rd))
    with (simulation_after P (S j) rd).
  rewrite IH, <- seq_shift, map_map. apply map_ext. intros i.
  replace (S j + i)%nat with (j + S i)%nat by lia. reflexivity.
Qed.

(** X14.  For a count of neutrons that is not negative, [main] writes
    [num_frames] frames, the i-th after i calls of [update].  In a frame the
    three per-group point sets together hold as many points as the pool has
    active neutrons. *)
Theorem every_active_neutron_drawn_once (rd : Z) :
  (0 <= num_neutrons P)%Z ->
  main P rd
  = Some (map (fun i => generateFrame (simulation_after P (S i) rd))
              (seq 0 (Z.to_nat (num_frames P)))) /\
  forall k, let s := simulation_after P k rd in
    length (concat (fr_groups (generateFrame s))) = actives (neutrons s).
Proof.
  intros Hn. split.
  - unfold main. destruct (Z.ltb_spec (num_neutrons P) 0) as [Hneg|_]; [lia|].
    f_equal. exact (frames_simulation_after (Z.to_nat (num_frames P)) 0 rd).
  - intros k s. cbn [generateFrame fr_groups]. apply groups_partition.
    exact (proj1 (proj2 (simulation_invariant P k rd))).
Qed.

End DynamicFrames.

Lemma every_active_neutron_drawn_once_witness :
  let P := Dynamic.default_params (SF := IEEE.float_ref) in
  Dynamic.main (SF := IEEE.float_ref) (UG := MT19937.uniform (SF := IEEE.float_ref)) P 1
  = Some (map (fun i => Dynamic.generateFrame (SF := IEEE.float_ref)
                          (simulation_after (SF := IEEE.float_ref)
                             (UG := MT19937.uniform (SF := IEEE.float_ref)) P (S i) 1))
              (seq 0 (Z.to_nat (Dynamic.num_frames P)))) /\
  forall k,
    let s := simulation_after (SF := IEEE.float_ref)
               (UG := MT19937.uniform (SF := IEEE.float_ref)) P k 1 in
    length (concat (Dynamic.fr_groups (Dynamic.generateFrame (SF := IEEE.float_ref) s)))
    = actives (Dynamic.neutrons s).
Proof.
  intros P.
  apply (every_active_neutron_drawn_once (SF := IEEE.float_ref)
           (UG := MT19937.uniform (SF := IEEE.float_ref)) P 1).
  cbn. lia.
Defined.

Lemma pool_size_and_event_queue_witness :
  let P := Dynamic.default_params (SF := IEEE.float_ref) in
  let s := simulation_after (SF := IEEE.float_ref)
             (UG := MT19937.uniform (SF := IEEE.float_ref)) P 3 1 in
  Z.of_nat (length (Dynamic.neutrons s)) = Dynamic.num_neutrons P /\
  length (Dynamic.fission_events s) <= 20.
Proof.
  intros P s.
  apply (pool_size_and_event_queue (SF := IEEE.float_ref)
           (UG := MT19937.uniform (SF := IEEE.float_ref)) P 3 1).
  cbn. lia.
Defined.

Lemma respawn_activates_witness :
  let P := Dynamic.default_params (SF := IEEE.float_ref) in
  Z.of_nat (actives (Dynamic.neutrons
                       (Dynamic.respawn (SF := IEEE.float_ref)
                          (UG := Replay.uniform (SF := IEEE.float_ref)) P fission_pool)))
  = (Z.of_nat (actives (Dynamic.neutrons fission_pool))
     + Z.min (Z.max (Dynamic.num_neutrons P ÷ 10) 1)
             (Z.of_nat (length (Dynamic.neutrons fission_pool)
                        - actives (Dynamic.neutrons fission_pool))))%Z /\
  forall j n, Dynamic.neutrons fission_pool !! j = Some n -> Dynamic.active n = true ->
    Dynamic.neutrons (Dynamic.respawn (SF := IEEE.float_ref)
                        (UG := Replay.uniform (SF := IEEE.float_ref)) P fission_pool) !! j
    = Some n.
Proof.
  intros P.
  apply (respawn_activates (SF := IEEE.float_ref)
           (UG := Replay.uniform (SF := IEEE.float_ref)) P fission_pool).
  vm_compute. reflexivity.
Defined.

Lemma fission_raises_population_witness :
  let P := Dynamic.default_params (SF := IEEE.float_ref) in
  let r := Dynamic.Neutron_update (SF := IEEE.float_ref)
             (UG := Replay.uniform (SF := IEEE.float_ref)) P 0
             (dec (SF := IEEE.float_ref) 1 2) fission_pool in
  (3 = 2 \/ 3 = 3)%Z /\
  (Z.of_nat (actives (Dynamic.neutrons (fst r))) + 1
   = Z.of_nat (actives (Dynamic.neutrons fission_pool))
     + Z.min 3 (Z.of_nat (length (Dynamic.neutrons fission_pool)
                          - actives (Dynamic.neutrons fission_pool)) + 1))%Z /\
  actives (Dynamic.neutrons fission_pool) <= actives (Dynamic.neutrons (fst r))
  <= actives (Dynamic.neutrons fission_pool) + 2.
Proof.
  intros P r.
  apply (fission_raises_population (SF := IEEE.float_ref)
           (UG := Replay.uniform (SF := IEEE.float_ref)) P 0
           (dec (SF := IEEE.float_ref) 1 2) fission_pool 3).
  vm_compute. reflexivity.
Defined.

Lemma constructor_population_witness :
  let P := Dynamic.default_params (SF := IEEE.float_ref) in
  let s := Dynamic.NeutronSimulation_new (SF := IEEE.float_ref)
             (UG := MT19937.uniform (SF := IEEE.float_ref)) P 1 in
  Z.of_nat (length (Dynamic.neutrons s)) = Dynamic.num_neutrons P /\
  (forall j n, Dynamic.neutrons s !! j = Some n ->
     if (Z.of_nat j <? Dynamic.num_neutrons P ÷ 3)%Z then Dynamic.active n = true
     else n = Dynamic.Neutron_new (SF := IEEE.float_ref)) /\
  Dynamic.fission_events s = [] /\
  Dynamic.simulation_time s = IEEE.of_Z 24 128 0.
Proof.
  intros P.
  apply (constructor_population (SF := IEEE.float_ref)
           (UG := MT19937.uniform (SF := IEEE.float_ref)) P 1).
  cbn. lia.
Defined.

Section DynamicFrame.
Context {F G : Type} {SF : Scalar F} {UG : Uniform F G}.
Import Dynamic.
Local Open Scope scalar_scope.

Variable P : Params (F := F).

Local Abbreviation Neutron := (Dynamic.Neutron (F := F)).
Local Abbreviation Sim := (Dynamic.Sim (F := F) (G := G)).

(** X20.  [Neutron::update] on the neutron [i] leaves every other active
    neutron of the pool as it is: a fission writes to inactive slots only. *)
Theorem update_leaves_other_active_neutrons (i j : nat) (dt : F) (s : Sim) (n : Neutron) :
  i <> j -> neutrons s !! j = Some n -> active n = true ->
  neutrons (fst (Neutron_update P i dt s)) !! j = Some n.
Proof.
  intros Hij Hj Hact. unfold Neutron_update.
  destruct (neutrons s !! i) as [m|] eqn:Hm; [|exact Hj].
  assert (Hset : forall x g, neutrons (set_neutron i x s g) !! j = Some n).
  { intros x g. cbn [set_neutron neutrons]. rewrite list_lookup_insert_ne by exact Hij.
    exact Hj. }
  destruct (active m); cbn [negb]; [|exact Hj].
  destruct (s_ltb (max_lifetime P) _); cbn [fst]; [apply Hset|].
  destruct (getFloat (random_gen s)) as [u g1].
  destruct (s_ltb u _); [|apply Hset].
  destruct (getFloat g1) as [r g2].
  destruct (s_ltb r _).
  { destruct (randomDirection g2) as [v g3]. destruct (getFloat g3) as [scatter_r g4].
    apply Hset. }
  destruct (s_ltb r _); cbn [fst]; [apply Hset|].
  destruct (getFloat g2) as [u3 g3].
  match goal with
  | |- context [activate_loop ?init ?lim ?cnt ?ns ?gg] =>
      pose proof (activate_loop_lookup init lim cnt ns gg j n) as Hlk;
      destruct (activate_loop init lim cnt ns gg) as [ns' g4]
  end.
  cbn [fst neutrons] in *.
  destruct Hlk as [H|[Hina _]]; [|exact H | congruence].
  rewrite list_lookup_insert_ne by exact Hij. exact Hj.
Qed.

(** X21.  After a fission every slot of the pool is unchanged, or is the
    parent's slot with the parent deactivated, or holds a new neutron:
    active, in group 0, with lifetime 0, at the position of the parent.  The
    last event of the queue records the parent's position and the simulation
    time. *)
Theorem fission_children (i : nat) (dt : F) (s : Sim) (k : Z) (parent : Neutron) :
  snd (Neutron_update P i dt s) = Fission k ->
  neutrons s !! i = Some parent ->
  let s' := fst (Neutron_update P i dt s) in
  last (fission_events s')
  = Some {| fe_position := position parent; fe_time := simulation_time s |} /\
  forall j n', neutrons s' !! j = Some n' ->
    (j <> i /\ neutrons s !! j = Some n') \/
    (j = i /\ n' = set_active false (set_lifetime (lifetime parent + dt) parent)) \/
    (active n' = true /\ position n' = position parent /\
     energy_group n' = 0%nat /\ lifetime n' = of_int 0).
Proof.
  intros Hf Hp s'. revert Hf. unfold s', Neutron_update. rewrite Hp.
  destruct (active parent) eqn:Ep; cbn [negb]; [|discriminate].
  destruct (s_ltb (max_lifetime P) _); [discriminate|].
  destruct (getFloat (random_gen s)) as [u g1].
  destruct (s_ltb u _); [|discriminate].
  destruct (getFloat g1) as [r g2].
  destruct (s_ltb r _).
  { destruct (randomDirection g2) as [v g3]. destruct (getFloat g3) as [scatter_r g4].
    discriminate. }
  destruct (s_ltb r _); [discriminate|].
  destruct (getFloat g2) as [u3 g3].
  match goal with
  | |- context [activate_loop ?init ?lim ?cnt ?ns ?gg] =>
      pose proof (activate_loop_length init lim cnt ns gg) as HL;
      pose proof (fun j n => activate_loop_lookup init lim cnt ns gg j n) as Hlk;
      destruct (activate_loop init lim cnt ns gg) as [ns' g4]
  end.
  cbn [fst snd neutrons fission_events] in *. intros _.
  split; [apply last_push_event|].
  intros j n' Hj.
  assert (Hlt : (j < length (neutrons s))%nat).
  { apply lookup_lt_Some in Hj. rewrite HL, length_insert in Hj. exact Hj. }
  destruct (lookup_lt_is_Some_2
              (<[i := set_active false (set_lifetime (lifetime parent + dt) parent)]>
                 (neutrons s)) j ltac:(rewrite length_insert; exact Hlt)) as [m Hm].
  destruct (Hlk j m Hm) as [H|[Hina [g' H]]]; rewrite H in Hj; injection Hj as <-.
  - destruct (decide (j = i)) as [->|Hne].
    + rewrite list_lookup_insert_eq in Hm by (eapply lookup_lt_Some; exact Hp).
      injection Hm as <-. right. left. split; reflexivity.
    + rewrite list_lookup_insert_ne in Hm by congruence. left. split; assumption.
  - right. right. unfold Neutron_initFromFission. destruct (randomDirection g') as [v g''].
    cbn [fst active position energy_group lifetime set_active set_lifetime].
    repeat split; reflexivity.
Qed.

End DynamicFrame.

Lemma update_leaves_other_active_neutrons_witness :
  let P := Dynamic.default_params (SF := IEEE.float_ref) in
  Dynamic.neutrons
    (fst (Dynamic.Neutron_update (SF := IEEE.float_ref)
            (UG := Replay.uniform (SF := IEEE.float_ref)) P 0
            (dec (SF := IEEE.float_ref) 1 2) crowded_pool)) !! 1
  = Some fast_neutron.
Proof.
  intros P.
  apply (update_leaves_other_active_neutrons (SF := IEEE.float_ref)
           (UG := Replay.uniform (SF := IEEE.float_ref)) P 0 1
           (dec (SF := IEEE.float_ref) 1 2) crowded_pool fast_neutron).
  - lia.
  - reflexivity.
  - reflexivity.
Defined.

Lemma fission_children_witness :
  let P := Dynamic.default_params (SF := IEEE.float_ref) in
  let s' := fst (Dynamic.Neutron_update (SF := IEEE.float_ref)
                   (UG := Replay.uniform (SF := IEEE.float_ref)) P 0
                   (dec (SF := IEEE.float_ref) 1 2) crowded_pool) in
  last (Dynamic.fission_events s')
  = Some {| Dynamic.fe_position := Dynamic.position fast_neutron;
            Dynamic.fe_time := Dynamic.simulation_time crowded_pool |} /\
  forall j n', Dynamic.neutrons s' !! j = Some n' ->
    (j <> 0 /\ Dynamic.neutrons crowded_pool !! j = Some n') \/
    (j = 0 /\
     n' = Dynamic.set_active false
            (Dynamic.set_lifetime
               (s_add (Scalar := IEEE.float_ref) (Dynamic.lifetime fast_neutron)
                  (dec (SF := IEEE.float_ref) 1 2))
               fast_neutron)) \/
    (Dynamic.active n' = true /\ Dynamic.position n' = Dynamic.position fast_neutron /\
     Dynamic.energy_group n' = 0%nat /\ Dynamic.lifetime n' = IEEE.of_Z 24 128 0).
Proof.
  intros P.
  apply (fission_children (SF := IEEE.float_ref)
           (UG := Replay.uniform (SF := IEEE.float_ref)) P 0
           (dec (SF := IEEE.float_ref) 1 2) crowded_pool 3 fast_neutron).
  - vm_compute. reflexivity.
  - reflexivity.
Defined.

(** ** Dynamic mode: the command line *)

Section DynamicCommandLine.
Context {F G : Type} {SF : Scalar F} {UG : Uniform F G}.
Import Dynamic.
Import String.
Local Open Scope string_scope.

Variable stoi : String.string -> option Z.
Variable stof : String.string -> option F.

Local Abbreviation Params := (Dynamic.Params (F := F)).
Local Abbreviation parse := (parse_args stoi stof).

Lemma parse_single (opt : String.string) (P : Params) (pnm : bool) :
  opt = "--frames"%string \/ opt = "--neutrons"%string \/ opt = "--time"%string ->
  parse [opt] P pnm = Usage 1.
Proof. intros [H|[H|H]]; subst opt; reflexivity. Qed.

Lemma parse_then_option (opt : String.string) (len : nat) :
  opt = "--frames"%string \/ opt = "--neutrons"%string \/ opt = "--time"%string ->
  forall (pre : list String.string) (P P' : Params) (pnm pnm' : bool),
    List.length pre <= len ->
    parse pre P pnm = Proceed P' pnm' ->
    parse (pre ++ [opt]) P pnm = Usage 1.
Proof.
  intros Hopt. induction len as [|len IH]; intros pre P P' pnm pnm' Hlen Hpre.
  - destruct pre; [|cbn in Hlen; lia]. apply parse_single. exact Hopt.
  - destruct pre as [|a [|v rest]].
    + apply parse_single. exact Hopt.
    + cbn [parse_args] in Hpre.
      destruct (String.eqb a "--pnm") eqn:Ea.
      * apply String.eqb_eq in Ea. subst a. cbn [app].
        change (parse ["--pnm"%string; opt] P pnm) with (parse [opt] P true).
        apply parse_single. exact Hopt.
      * destruct (String.eqb a "--help" || String.eqb a "-h"); discriminate.
    + cbn [app]. cbn [List.length] in Hlen.
      change (parse (a :: v :: rest) P pnm = Proceed P' pnm') in Hpre.
      cbn [parse_args] in Hpre |- *.
      destruct (String.eqb a "--frames").
      { destruct (stoi v) as [k|]; [|discriminate].
        apply (IH rest _ P' _ pnm'); [lia | exact Hpre]. }
      destruct (String.eqb a "--neutrons").
      { destruct (stoi v) as [k|]; [|discriminate].
        apply (IH rest _ P' _ pnm'); [lia | exact Hpre]. }
      destruct (String.eqb a "--time").
      { destruct (stof v) as [dt|]; [|discriminate].
        apply (IH rest _ P' _ pnm'); [lia | exact Hpre]. }
      destruct (String.eqb a "--pnm").
      { apply (IH (v :: rest) P P' true pnm'); [cbn [List.length]; lia | exact Hpre]. }
      destruct (String.eqb a "--help" || String.eqb a "-h"); discriminate.
Qed.

(** X15.  An option that takes a value is rejected when it is the last
    argument.  If the arguments before it are accepted, then [--frames],
    [--neutrons] or [--time] at the end of the command line makes [main]
    report an unknown option, write no frame and return 1. *)
Theorem option_without_value_rejected (pre : list string) (opt prog : string)
    (P' : Params) (pnm' : bool) (rd : Z) :
  opt = "--frames" \/ opt = "--neutrons" \/ opt = "--time" ->
  parse pre default_params false = Proceed P' pnm' ->
  parse (pre ++ [opt]) default_params false = Usage 1 /\
  main_argv stoi stof (prog :: pre ++ [opt]) rd = ([], false, Some 1%Z).
Proof.
  intros Hopt Hpre.
  assert (E : parse (pre ++ [opt]) default_params false = Usage 1).
  { exact (parse_then_option opt (List.length pre) Hopt pre _ P' _ pnm' (le_n _) Hpre). }
  split; [exact E|]. unfold main_argv. cbn [tail]. rewrite E. reflexivity.
Qed.

End DynamicCommandLine.

Section DynamicCommandLineRun.
Import String.
Local Open Scope string_scope.

Lemma option_without_value_rejected_witness :
  Dynamic.parse_args (F := spec_float) (fun _ => Some 5%Z) (fun _ => None)
    (["--pnm"; "--frames"; "5"] ++ ["--neutrons"])
    (Dynamic.default_params (SF := IEEE.float_ref)) false
  = Dynamic.Usage 1 /\
  Dynamic.main_argv (SF := IEEE.float_ref) (UG := MT19937.uniform (SF := IEEE.float_ref))
    (fun _ => Some 5%Z) (fun _ => None)
    ("neutrons" :: ["--pnm"; "--frames"; "5"] ++ ["--neutrons"]) 1
  = ([], false, Some 1%Z).
Proof.
  apply (option_without_value_rejected (SF := IEEE.float_ref)
           (UG := MT19937.uniform (SF := IEEE.float_ref))
           (fun _ => Some 5%Z) (fun _ => None)
           ["--pnm"; "--frames"; "5"] "--neutrons" "neutrons"
           (Dynamic.set_num_frames 5 (Dynamic.default_params (SF := IEEE.float_ref))) true 1).
  - right. left. reflexivity.
  - reflexivity.
Defined.

End DynamicCommandLineRun.

(** ** Superquadric evaluator: the output of an accepted call *)

Section SuperQuadricsOutput.
Context {F : Type} {SF : Scalar F}.
Import SuperQuadrics.
Local Open Scope scalar_scope.

Local Abbreviation Point := (attr_point F).
Local Abbreviation State := (REDirect F).

Lemma lookup_map_gen {A B : Type} (f : A -> B) (l : list A) (i : nat) :
  map f l !! i = option_map f (l !! i).
Proof. revert i. induction l as [|x l IH]; intros [|i]; simpl; auto. Qed.

Lemma grid_at_build_grid (n u v : nat) (point : nat -> nat -> Point) :
  (u <= n)%nat -> (v <= n)%nat -> grid_at (build_grid n point) u v = point u v.
Proof.
  intros Hu Hv. unfold grid_at, build_grid.
  rewrite lookup_map_gen, lookup_seq_lt by lia. cbn [option_map].
  rewrite lookup_map_gen, lookup_seq_lt by lia. reflexivity.
Qed.

(** Storing the normals leaves the five coordinates. *)
Lemma store_normals_coords (a : accumulator) (g : list (list Point)) (u v : nat) :
  coord3 (grid_at (store_normals a g) u v) = coord3 (grid_at g u v) /\
  coord4 (grid_at (store_normals a g) u v) = coord4 (grid_at g u v).
Proof.
  unfold grid_at, store_normals. rewrite list_lookup_imap.
  destruct (g !! u) as [row|]; cbn [fmap option_fmap option_map]; [|auto].
  rewrite list_lookup_imap.
  destruct (row !! v) as [p|]; cbn [fmap option_fmap option_map]; [|auto].
  destruct (a !! u) as [arow|]; [|auto].
  destruct (arow !! v) as [[s c]|]; [|auto].
  destruct (0 <? c)%Z; auto.
Qed.

Lemma emit_quads_records (g : list (list Point)) (qs : list (nat * nat)) (st : State) :
  pipeline (foldl (emit_quad g) st qs) = pipeline st ++ flat_map (quad_records g) qs /\
  n_divisions (foldl (emit_quad g) st qs) = n_divisions st /\
  obj_normal_flag (foldl (emit_quad g) st qs) = obj_normal_flag st /\
  render_m_attr (foldl (emit_quad g) st qs) = render_m_attr st.
Proof.
  revert st. induction qs as [|[ui vi] qs IH]; intros st; cbn [foldl flat_map].
  - rewrite app_nil_r. auto.
  - destruct (IH (emit_quad g st (ui, vi))) as (-> & -> & -> & ->).
    cbn [emit_quad pipeline n_divisions obj_normal_flag render_m_attr quad_records fst snd].
    rewrite <- app_assoc. auto.
Qed.

Lemma length_quad_records (g : list (list Point)) (qs : list (nat * nat)) :
  length (flat_map (quad_records g) qs) = (4 * length qs)%nat.
Proof. induction qs as [|q qs IH]; [reflexivity|]. cbn [flat_map quad_records app length]. lia. Qed.

Lemma quad_flags (g : list (list Point)) (qs : list (nat * nat)) (k : nat) :
  (k < length qs)%nat ->
  map snd (take 4 (drop (4 * k) (flat_map (quad_records g) qs))) = [MOVE; MOVE; MOVE; DRAW].
Proof.
  revert k. induction qs as [|q qs IH]; intros k Hk; [cbn in Hk; lia|].
  destruct k as [|k].
  - reflexivity.
  - cbn [length] in Hk. replace (4 * S k)%nat with (4 + 4 * k)%nat by lia.
    cbn [flat_map quad_records app]. cbn [Nat.add drop]. apply IH. lia.
Qed.

Lemma length_quads (n : nat) : length (quads n) = (n * n)%nat.
Proof.
  unfold quads.
  assert (Hgen : forall l : list nat,
            length (flat_map (fun ui => map (pair ui) (seq 0 n)) l) = (length l * n)%nat).
  { induction l as [|x l IH]; simpl; [reflexivity|].
    rewrite length_app, IH, length_map, length_seq. reflexivity. }
  rewrite Hgen, length_seq. reflexivity.
Qed.

Lemma In_quads_gen (n ui vi : nat) : In (ui, vi) (quads n) -> (ui < n)%nat /\ (vi < n)%nat.
Proof.
  unfold quads. rewrite in_flat_map. intros (u & Hu & Hin).
  apply in_map_iff in Hin as (v & Heq & Hv). injection Heq as <- <-.
  apply in_seq in Hu, Hv. lia.
Qed.

(** The output of the rendering loops on a grid built by [build_grid]. *)
Lemma render_grid_records (point : nat -> nat -> Point) (st : State) :
  (forall u v, coord3 (point u v) = of_int 1 /\ coord4 (point u v) = of_int 1) ->
  let n := n_divisions st in
  exists emitted,
    pipeline (render_grid (build_grid n point) st) = pipeline st ++ emitted /\
    length emitted = (4 * (n * n))%nat /\
    (forall k, (k < n * n)%nat ->
       map snd (take 4 (drop (4 * k) emitted)) = [MOVE; MOVE; MOVE; DRAW]) /\
    Forall (fun e => coord3 (fst e) = of_int 1 /\ coord4 (fst e) = of_int 1) emitted /\
    n_divisions (render_grid (build_grid n point) st) = n /\
    obj_normal_flag (render_grid (build_grid n point) st) = obj_normal_flag st.
Proof.
  intros Hpoint n. unfold render_grid. fold n.
  set (g1 := store_normals (accumulate n (build_grid n point)) (build_grid n point)).
  destruct (emit_quads_records g1 (quads n) st) as (Hp & Hn & Hf & _).
  exists (flat_map (quad_records g1) (quads n)).
  assert (Hlen : length (quads n) = (n * n)%nat) by apply length_quads.
  split; [exact Hp | split; [|split; [|split; [|split]]]].
  - rewrite length_quad_records. lia.
  - intros k Hk. apply quad_flags. lia.
  - apply Forall_forall. intros e He. apply list_elem_of_In in He.
    apply in_flat_map in He as ([ui vi] & Hq & He).
    apply In_quads_gen in Hq as [Hu Hv].
    assert (Hc : forall u v, (u <= n)%nat -> (v <= n)%nat ->
              coord3 (grid_at g1 u v) = of_int 1 /\ coord4 (grid_at g1 u v) = of_int 1).
    { intros u v Hu' Hv'. unfold g1.
      destruct (store_normals_coords (accumulate n (build_grid n point))
                  (build_grid n point) u v) as [-> ->].
      rewrite grid_at_build_grid by assumption. apply Hpoint. }
    cbn [quad_records fst snd] in He.
    destruct He as [<-|[<-|[<-|[<-|[]]]]]; cbn [fst]; apply Hc; cbn [fst snd]; lia.
  - exact Hn.
  - exact Hf.
Qed.

(** X17.  A call of the sphere or the torus evaluator that returns 0
    appends 4 * n^2 vertices to the pipeline, for n = [n_divisions], in
    groups with the flags MOVE, MOVE, MOVE, DRAW; every vertex has the
    homogeneous coordinate 1 and the constant 1 after it.  The call leaves
    [n_divisions] and sets [obj_normal_flag]. *)
Theorem accepted_surface_quads (st : State) (p1 p2 p3 p4 p5 p6 p7 : F) (r : Z * State) :
  r = rd_sqsphere p1 p2 p3 p4 p5 p6 st \/ r = rd_sqtorus p1 p2 p3 p4 p5 p6 p7 st ->
  fst r = 0%Z ->
  let n := n_divisions st in
  exists emitted,
    pipeline (snd r) = pipeline st ++ emitted /\
    length emitted = (4 * (n * n))%nat /\
    (forall k, (k < n * n)%nat ->
       map snd (take 4 (drop (4 * k) emitted)) = [MOVE; MOVE; MOVE; DRAW]) /\
    Forall (fun e => coord3 (fst e) = of_int 1 /\ coord4 (fst e) = of_int 1) emitted /\
    n_divisions (snd r) = n /\
    obj_normal_flag (snd r) = true.
Proof.
  intros Hr H0 n.
  assert (Hrun : exists point,
            (forall u v, coord3 (point u v) = of_int 1 /\ coord4 (point u v) = of_int 1) /\
            snd r = render_grid (build_grid (n_divisions (enable_normals st)) point)
                                (enable_normals st)).
  { destruct Hr as [-> | ->].
    - revert H0. unfold rd_sqsphere.
      destruct (s_ltb p5 p4); [discriminate|].
      destruct (s_leb p1 (of_int 0)); [discriminate|].
      destruct (s_leb p6 (of_int 0) || s_ltb (of_int 360) p6); [discriminate|].
      destruct (s_eqb p4 p5); [discriminate|].
      intros _. cbn [snd]. unfold sqsphere_grid. eexists. split; [|reflexivity].
      intros u v. split; reflexivity.
    - revert H0. unfold rd_sqtorus.
      destruct (s_leb p1 (of_int 0) || s_leb p2 (of_int 0)); [discriminate|].
      destruct (s_leb p7 (of_int 0) || s_ltb (of_int 360) p7); [discriminate|].
      destruct (s_leb p6 p5); [discriminate|].
      intros _. cbn [snd]. unfold sqtorus_grid. eexists. split; [|reflexivity].
      intros u v. split; reflexivity. }
  destruct Hrun as (point & Hpoint & ->).
  destruct (render_grid_records point (enable_normals st) Hpoint)
    as (emitted & Hp & Hlen & Hflags & Hcoords & Hn & Hf).
  exists emitted. repeat split; assumption.
Qed.

(** *** The number of faces averaged at a vertex *)

Lemma acc_add_count (size : nat) (nrm : vec3 F) (a : accumulator) (u' v' u v : nat) :
  acc_dims size a -> (u' < size)%nat -> (v' < size)%nat ->
  acc_dims size (acc_add nrm a u' v') /\
  count_at (acc_add nrm a u' v') u v
  = (count_at a u v + (if decide (u = u' /\ v = v') then 1 else 0))%Z.
Proof.
  intros [Hlen Hrows] Hu Hv. unfold acc_add, acc_dims, count_at, accumulator in *.
  destruct (a !! u') as [row|] eqn:Er.
  2:{ apply lookup_ge_None_1 in Er. lia. }
  assert (Hrow : length row = size).
  { rewrite Forall_lookup in Hrows. exact (Hrows u' row Er). }
  destruct (row !! v') as [[s c]|] eqn:Ec.
  2:{ apply lookup_ge_None_1 in Ec. lia. }
  split.
  - split; [rewrite length_insert; exact Hlen|].
    apply Forall_insert; [exact Hrows|]. rewrite length_insert. exact Hrow.
  - unfold count_at. destruct (decide (u = u')) as [->|Hne].
    + rewrite list_lookup_insert_eq by lia. rewrite Er.
      destruct (decide (v = v')) as [->|Hne'].
      * rewrite list_lookup_insert_eq by lia. rewrite Ec.
        destruct (decide (u' = u' /\ v' = v')) as [_|Hn]; [reflexivity | tauto].
      * rewrite list_lookup_insert_ne by congruence.
        destruct (decide (u' = u' /\ v = v')) as [[_ Hv']|_]; [congruence|].
        destruct (row !! v) as [[s' c']|]; lia.
    + rewrite list_lookup_insert_ne by congruence.
      destruct (decide (u = u' /\ v = v')) as [[Hu' _]|_]; [congruence|].
      destruct (a !! u) as [row'|]; [destruct (row' !! v) as [[s' c']|]|]; lia.
Qed.

Lemma accumulate_face_count (size : nat) (g : list (list Point)) (a : accumulator)
    (ui vi u v : nat) :
  acc_dims size a -> (ui + 1 < size)%nat -> (vi + 1 < size)%nat ->
  acc_dims size (accumulate_face g a ui vi) /\
  count_at (accumulate_face g a ui vi) u v
  = (count_at a u v + (if touches u v (ui, vi) then 1 else 0))%Z.
Proof.
  intros Ha Hu Hv. unfold accumulate_face. cbn [foldl].
  set (nrm := normalize_guarded (face_cross g ui vi)).
  destruct (acc_add_count size nrm a (ui + 0) (vi + 0) u v Ha) as [H1 E1]; [lia | lia |].
  destruct (acc_add_count size nrm _ (ui + 0) (vi + 1) u v H1) as [H2 E2]; [lia | lia |].
  destruct (acc_add_count size nrm _ (ui + 1) (vi + 0) u v H2) as [H3 E3]; [lia | lia |].
  destruct (acc_add_count size nrm _ (ui + 1) (vi + 1) u v H3) as [H4 E4]; [lia | lia |].
  split; [exact H4|]. rewrite E4, E3, E2, E1. unfold touches. cbn [fst snd].
  repeat match goal with |- context [decide ?Q] => destruct (decide Q) end;
    repeat match goal with |- context [Nat.eqb ?x ?y] => destruct (Nat.eqb_spec x y) end;
    cbn [orb andb]; lia.
Qed.

Lemma accumulate_count (size : nat) (g : list (list Point)) (qs : list (nat * nat))
    (a : accumulator) (u v : nat) :
  acc_dims size a ->
  Forall (fun q => (fst q + 1 < size)%nat /\ (snd q + 1 < size)%nat) qs ->
  count_at (foldl (fun a '(ui, vi) => accumulate_face g a ui vi) a qs) u v
  = (count_at a u v + Z.of_nat (length (List.filter (touches u v) qs)))%Z.
Proof.
  intros Ha Hqs. revert a Ha.
  induction Hqs as [|[ui vi] qs [Hu Hv] _ IH]; intros a Ha; cbn [foldl List.filter].
  - cbn. lia.
  - cbn [fst snd] in Hu, Hv.
    destruct (accumulate_face_count size g a ui vi u v Ha Hu Hv) as [Ha' E].
    rewrite (IH _ Ha'), E.
    destruct (touches u v (ui, vi)); cbn [length]; lia.
Qed.

Lemma filter_seq_sides (n u : nat) :
  Z.of_nat (length (List.filter (fun x => (x =? u)%nat || (x + 1 =? u)%nat) (seq 0 n)))
  = ((if (u <? n)%nat then 1 else 0) + (if (0 <? u)%nat && (u <=? n)%nat then 1 else 0))%Z.
Proof.
  induction n as [|n IH].
  - cbn [seq List.filter length]. destruct u; reflexivity.
  - rewrite seq_S, List.filter_app, length_app, Nat2Z.inj_add, IH. cbn [Nat.add List.filter].
    destruct (Nat.eqb_spec n u), (Nat.eqb_spec (n + 1) u), (Nat.ltb_spec u n),
      (Nat.ltb_spec u (S n)), (Nat.ltb_spec 0 u), (Nat.leb_spec u n), (Nat.leb_spec u (S n));
      cbn [orb andb length]; lia.
Qed.

Lemma filter_pairs (u v : nat) (us vs : list nat) :
  length (List.filter (touches u v) (flat_map (fun ui => map (pair ui) vs) us))
  = (length (List.filter (fun x => (x =? u)%nat || (x + 1 =? u)%nat) us)
     * length (List.filter (fun x => (x =? v)%nat || (x + 1 =? v)%nat) vs))%nat.
Proof.
  assert (Hrow : forall ui ws,
            length (List.filter (touches u v) (map (pair ui) ws))
            = if (ui =? u)%nat || (ui + 1 =? u)%nat
              then length (List.filter (fun x => (x =? v)%nat || (x + 1 =? v)%nat) ws)
              else 0%nat).
  { intros ui ws. induction ws as [|vi ws IHv]; [destruct (_ || _); reflexivity|].
    cbn [map List.filter]. unfold touches at 1. cbn [fst snd].
    destruct ((ui =? u)%nat || (ui + 1 =? u)%nat); cbn [andb].
    - destruct ((vi =? v)%nat || (vi + 1 =? v)%nat); cbn [length]; rewrite IHv; reflexivity.
    - exact IHv. }
  induction us as [|ui us IH]; [reflexivity|].
  cbn [flat_map List.filter]. rewrite List.filter_app, length_app, IH, Hrow.
  destruct ((ui =? u)%nat || (ui + 1 =? u)%nat); cbn [length]; lia.
Qed.

Lemma accumulate_dims (n : nat) :
  acc_dims (S n) (replicate (S n) (replicate (S n) (vec3_zero (F := F), 0%Z))).
Proof.
  split; [apply length_replicate|]. apply Forall_replicate. apply length_replicate.
Qed.

Lemma count_at_zero (n u v : nat) :
  count_at (replicate (S n) (replicate (S n) (vec3_zero (F := F), 0%Z))) u v = 0%Z.
Proof.
  unfold count_at, accumulator.
  destruct (replicate (S n) (replicate (S n) (vec3_zero (F := F), 0%Z)) !! u)
    as [row|] eqn:Er; [|reflexivity].
  apply lookup_replicate in Er as [-> _].
  destruct (replicate (S n) (vec3_zero (F := F), 0%Z) !! v) as [[s c]|] eqn:Ec; [|reflexivity].
  apply lookup_replicate in Ec as [Ec _]. injection Ec as _ <-. reflexivity.
Qed.

Lemma accumulate_counts (n : nat) (g : list (list Point)) (u v : nat) :
  (u <= n)%nat -> (v <= n)%nat ->
  count_at (accumulate n g) u v = (sides n u * sides n v)%Z.
Proof.
  intros Hu Hv. unfold accumulate.
  rewrite (accumulate_count (S n)).
  - unfold quads. rewrite count_at_zero, filter_pairs, Nat2Z.inj_mul, !filter_seq_sides.
    unfold sides.
    destruct (Nat.ltb_spec u n), (Nat.ltb_spec 0 u), (Nat.leb_spec u n),
      (Nat.ltb_spec v n), (Nat.ltb_spec 0 v), (Nat.leb_spec v n); cbn [andb]; lia.
  - apply accumulate_dims.
  - apply Forall_forall. intros [ui vi] Hq. apply list_elem_of_In in Hq.
    apply In_quads_gen in Hq. cbn [fst snd]. lia.
Qed.

Lemma accumulate_fold_dims (size : nat) (g : list (list Point)) (qs : list (nat * nat))
    (a : accumulator) :
  acc_dims size a ->
  Forall (fun q => (fst q + 1 < size)%nat /\ (snd q + 1 < size)%nat) qs ->
  acc_dims size (foldl (fun a '(ui, vi) => accumulate_face g a ui vi) a qs).
Proof.
  intros Ha Hqs. revert a Ha.
  induction Hqs as [|[ui vi] qs [Hu Hv] _ IH]; intros a Ha; cbn [foldl]; [exact Ha|].
  cbn [fst snd] in Hu, Hv. apply IH.
  exact (proj1 (accumulate_face_count size g a ui vi 0 0 Ha Hu Hv)).
Qed.

Lemma accumulate_acc_dims (n : nat) (g : list (list Point)) : acc_dims (S n) (accumulate n g).
Proof.
  unfold accumulate. apply accumulate_fold_dims; [apply accumulate_dims|].
  apply Forall_forall. intros [ui vi] Hq. apply list_elem_of_In in Hq.
  apply In_quads_gen in Hq. cbn [fst snd]. lia.
Qed.

Lemma count_at_lookup (a : accumulator) (u v : nat) (arow : list (vec3 F * Z))
    (s : vec3 F) (c : Z) :
  a !! u = Some arow -> arow !! v = Some (s, c) -> count_at a u v = c.
Proof. intros Ea Ec. unfold count_at. rewrite Ea, Ec. reflexivity. Qed.

Lemma store_normals_normal (a : accumulator) (g : list (list Point)) (u v : nat)
    (row : list Point) (p : Point) (arow : list (vec3 F * Z)) (s : vec3 F) (c : Z) :
  g !! u = Some row -> row !! v = Some p ->
  a !! u = Some arow -> arow !! v = Some (s, c) -> (0 < c)%Z ->
  grid_at (store_normals a g) u v = set_normal (average_normal s c) p.
Proof.
  intros Er Ep Ea Ec Hc. unfold grid_at, store_normals.
  rewrite list_lookup_imap, Er. cbn [fmap option_fmap option_map].
  rewrite list_lookup_imap, Ep. cbn [fmap option_fmap option_map].
  rewrite Ea, Ec. destruct (Z.ltb_spec 0 c) as [_|Hle]; [reflexivity | lia].
Qed.

Lemma sum_at_lookup (a : accumulator) (u v : nat) (arow : list (vec3 F * Z))
    (s : vec3 F) (c : Z) :
  a !! u = Some arow -> arow !! v = Some (s, c) -> sum_at a u v = s.
Proof. intros Ea Ec. unfold sum_at. rewrite Ea, Ec. reflexivity. Qed.

(** X18.  On a grid of n >= 1 divisions the normal of a vertex averages the
    faces that have it as a corner: 1 at a corner of the grid, 2 on a border,
    4 inside; the seam and the poles are not joined.  The count is never 0,
    so every vertex gets the averaged normal. *)
Theorem vertex_normal_counts (n : nat) (g : list (list Point)) (u v : nat) :
  (1 <= n)%nat -> (u <= n)%nat -> (v <= n)%nat ->
  length g = S n -> Forall (fun row => length row = S n) g ->
  let a := accumulate n g in
  count_at a u v = (sides n u * sides n v)%Z /\
  (1 <= count_at a u v <= 4)%Z /\
  normal (grid_at (store_normals a g) u v) = average_normal (sum_at a u v) (count_at a u v).
Proof.
  intros Hn Hu Hv Hlen Hrows a.
  pose proof (accumulate_counts n g u v Hu Hv) as Hcount. fold a in Hcount.
  assert (Hrange : (1 <= count_at a u v <= 4)%Z).
  { rewrite Hcount. unfold sides.
    destruct (Nat.ltb_spec u n), (Nat.ltb_spec 0 u), (Nat.ltb_spec v n), (Nat.ltb_spec 0 v);
      lia. }
  split; [exact Hcount | split; [exact Hrange|]].
  destruct (accumulate_acc_dims n g) as [Halen Harows]. fold a in Halen, Harows.
  destruct (lookup_lt_is_Some_2 a u ltac:(lia)) as [arow Ea].
  assert (Harow : length arow = S n).
  { rewrite Forall_lookup in Harows. exact (Harows u arow Ea). }
  destruct (lookup_lt_is_Some_2 arow v ltac:(lia)) as [[s c] Ec].
  destruct (lookup_lt_is_Some_2 g u ltac:(lia)) as [row Er].
  assert (Hrow : length row = S n).
  { rewrite Forall_lookup in Hrows. exact (Hrows u row Er). }
  destruct (lookup_lt_is_Some_2 row v ltac:(lia)) as [p Ep].
  rewrite (count_at_lookup a u v arow s c Ea Ec) in *.
  rewrite (sum_at_lookup a u v arow s c Ea Ec).
  rewrite (store_normals_normal a g u v row p arow s c Er Ep Ea Ec) by lia.
  reflexivity.
Qed.

End SuperQuadricsOutput.

Lemma accepted_surface_quads_witness :
  let r := SuperQuadrics.rd_sqsphere (SF := IEEE.float_ref)
             (IEEE.of_Z 24 128 2) (IEEE.of_Z 24 128 1) (IEEE.of_Z 24 128 1)
             (IEEE.of_Z 24 128 (-2)) (IEEE.of_Z 24 128 2) (IEEE.of_Z 24 128 360)
             one_division in
  let n := SuperQuadrics.n_divisions one_division in
  exists emitted,
    SuperQuadrics.pipeline (snd r) = SuperQuadrics.pipeline one_division ++ emitted /\
    length emitted = 4 * (n * n) /\
    (forall k, k < n * n ->
       map snd (take 4 (drop (4 * k) emitted))
       = [SuperQuadrics.MOVE; SuperQuadrics.MOVE; SuperQuadrics.MOVE; SuperQuadrics.DRAW]) /\
    Forall (fun e => SuperQuadrics.coord3 (fst e) = IEEE.of_Z 24 128 1 /\
                     SuperQuadrics.coord4 (fst e) = IEEE.of_Z 24 128 1) emitted /\
    SuperQuadrics.n_divisions (snd r) = n /\
    SuperQuadrics.obj_normal_flag (snd r) = true.
Proof.
  intros r.
  apply (accepted_surface_quads (SF := IEEE.float_ref) one_division
           (IEEE.of_Z 24 128 2) (IEEE.of_Z 24 128 1) (IEEE.of_Z 24 128 1)
           (IEEE.of_Z 24 128 (-2)) (IEEE.of_Z 24 128 2) (IEEE.of_Z 24 128 360)
           (IEEE.of_Z 24 128 0) r).
  - left. reflexivity.
  - vm_compute. reflexivity.
Defined.

Lemma vertex_normal_counts_witness :
  let g := SuperQuadrics.sqsphere_grid (SF := IEEE.float_ref) 2
             (IEEE.of_Z 24 128 2) (IEEE.of_Z 24 128 1) (IEEE.of_Z 24 128 1)
             (IEEE.of_Z 24 128 (-2)) (IEEE.of_Z 24 128 2) (IEEE.of_Z 24 128 360) in
  let a := SuperQuadrics.accumulate (SF := IEEE.float_ref) 2 g in
  count_at a 1 0 = (sides 2 1 * sides 2 0)%Z /\
  (1 <= count_at a 1 0 <= 4)%Z /\
  SuperQuadrics.normal
    (SuperQuadrics.grid_at (SF := IEEE.float_ref)
       (SuperQuadrics.store_normals (SF := IEEE.float_ref) a g) 1 0)
  = SuperQuadrics.average_normal (SF := IEEE.float_ref) (sum_at (SF := IEEE.float_ref) a 1 0) (count_at a 1 0).
Proof.
  intros g.
  apply (vertex_normal_counts (SF := IEEE.float_ref) 2 g 1 0).
  - lia.
  - lia.
  - lia.
  - reflexivity.
  - repeat constructor.
Defined.

(** ** Superquadric sphere with both exponents 1, in exact arithmetic *)

Section SuperQuadricsRound.
Import SuperQuadrics.
Local Open Scope R_scope.

Lemma pow_term_one (c : R) : pow_term (Some c) (of_int 1) = Some c.
Proof.
  unfold pow_term, sgn.
  cbn [s_leb s_mul s_pow s_fabs of_int exact_scalar Exact.compare Exact.lift1 Exact.pow].
  unfold Exact.leb.
  destruct (Req_EM_T 1 0) as [H10|_]; [lra|].
  assert (Hpow : (if Rlt_dec 0 (Rabs c) then Some (Rpower (Rabs c) 1)
                  else if Req_EM_T (Rabs c) 0 then (if Rlt_dec 0 1 then Some 0 else None)
                  else if Req_EM_T 1 (IZR (Int_part 1)) then Some (powerRZ (Rabs c) (Int_part 1))
                  else None) = Some (Rabs c)).
  { destruct (Rlt_dec 0 (Rabs c)) as [Hpos|Hnpos].
    - rewrite Rpower_1 by exact Hpos. reflexivity.
    - pose proof (Rabs_pos c) as Hge.
      destruct (Req_EM_T (Rabs c) 0) as [H0|H0]; [|lra].
      destruct (Rlt_dec 0 1); [|lra]. rewrite H0. reflexivity. }
  rewrite Hpow.
  destruct (Rle_dec 0 c) as [Hc|Hc]; cbn [Exact.lift2]; f_equal.
  - rewrite (Rabs_pos_eq c Hc). lra.
  - rewrite (Rabs_left c) by lra. lra.
Qed.

Lemma round_identity (r ct st cp sp : R) :
  st * st + ct * ct = 1 -> sp * sp + cp * cp = 1 ->
  r * ct * cp * (r * ct * cp) + r * st * cp * (r * st * cp) + r * sp * (r * sp) = r * r.
Proof.
  intros Ht Hp.
  replace (r * ct * cp * (r * ct * cp) + r * st * cp * (r * st * cp) + r * sp * (r * sp))
    with (r * r * ((st * st + ct * ct) * (cp * cp) + sp * sp)) by ring.
  rewrite Ht. replace (1 * (cp * cp) + sp * sp) with (sp * sp + cp * cp) by ring.
  rewrite Hp. ring.
Qed.

Lemma fraction_value (i n : nat) :
  (1 <= n)%nat -> fraction (SF := exact_scalar) i n = Some (INR i / INR n).
Proof.
  intros Hn. unfold fraction. cbn [s_div of_int exact_scalar Exact.div].
  destruct (Req_EM_T (IZR (Z.of_nat n)) 0) as [H0|_].
  - apply eq_IZR_R0 in H0. lia.
  - rewrite <- !INR_IZR_INZ. reflexivity.
Qed.

Lemma sphere_point_on_sphere (radius phimin phimax thetamax : R) (n ui vi : nat) :
  (1 <= n)%nat ->
  on_sphere radius
    (sphere_point (Some radius) (of_int 1) (of_int 1) (Some phimin) (Some phimax)
                  (Some thetamax) n ui vi).
Proof.
  intros Hn. unfold on_sphere, sphere_point. cbn [coord0 coord1 coord2].
  rewrite !fraction_value by exact Hn.
  cbn [s_mul s_add s_sub s_cos s_sin s_radians exact_scalar Exact.lift1 Exact.lift2].
  rewrite !pow_term_one.
  cbn [s_mul exact_scalar Exact.lift2].
  eexists _, _, _. split; [reflexivity | split; [reflexivity | split; [reflexivity|]]].
  apply round_identity; apply sin2_cos2.
Qed.

(** The clamp and the conversion to latitudes, where the band
    [zmin, zmax] meets the sphere. *)
Lemma latitudes_defined (radius zmin zmax : R) :
  0 < radius -> zmin <= radius -> - radius <= zmax ->
  exists phimin phimax,
    s_asin_degrees (s_div (if s_ltb (Some zmin) (s_neg (Some radius))
                           then s_neg (Some radius) else Some zmin) (Some radius))
    = Some phimin /\
    s_asin_degrees (s_div (if s_ltb (Some radius) (Some zmax)
                           then Some radius else Some zmax) (Some radius))
    = Some phimax.
Proof.
  intros Hr Hlo Hhi.
  cbn [s_asin_degrees s_div s_ltb s_neg exact_scalar Exact.compare Exact.lift1].
  unfold Exact.ltb.
  assert (Hq : forall z, - radius <= z <= radius ->
            exists phi, Exact.asin_degrees (Exact.div (Some z) (Some radius)) = Some phi).
  { intros z Hz. unfold Exact.div, Exact.asin_degrees.
    destruct (Req_EM_T radius 0) as [H0|_]; [lra|].
    assert (Habs : Rabs (z / radius) <= 1).
    { apply Rabs_le. split.
      - apply (Rmult_le_reg_r radius); [exact Hr|]. unfold Rdiv.
        rewrite Rmult_assoc, Rinv_l by lra. lra.
      - apply (Rmult_le_reg_r radius); [exact Hr|]. unfold Rdiv.
        rewrite Rmult_assoc, Rinv_l by lra. lra. }
    destruct (Rlt_dec 1 (Rabs (z / radius))); [lra|]. eexists. reflexivity. }
  destruct (Rlt_dec zmin (- radius)) as [Hc1|Hc1];
    destruct (Rlt_dec radius zmax) as [Hc2|Hc2].
  - destruct (Hq (- radius)) as [a Ha]; [lra|]. destruct (Hq radius) as [b Hb]; [lra|].
    exists a, b. split; assumption.
  - destruct (Hq (- radius)) as [a Ha]; [lra|]. destruct (Hq zmax) as [b Hb]; [lra|].
    exists a, b. split; assumption.
  - destruct (Hq zmin) as [a Ha]; [lra|]. destruct (Hq radius) as [b Hb]; [lra|].
    exists a, b. split; assumption.
  - destruct (Hq zmin) as [a Ha]; [lra|]. destruct (Hq zmax) as [b Hb]; [lra|].
    exists a, b. split; assumption.
Qed.

(** Storing the normals leaves the positions. *)
Lemma store_normals_position (a : accumulator) (g : list (list (attr_point (option R))))
    (u v : nat) :
  coord0 (grid_at (store_normals a g) u v) = coord0 (grid_at g u v) /\
  coord1 (grid_at (store_normals a g) u v) = coord1 (grid_at g u v) /\
  coord2 (grid_at (store_normals a g) u v) = coord2 (grid_at g u v).
Proof.
  unfold grid_at, store_normals. rewrite list_lookup_imap.
  destruct (g !! u) as [row|]; cbn [fmap option_fmap option_map]; [|auto].
  rewrite list_lookup_imap.
  destruct (row !! v) as [p|]; cbn [fmap option_fmap option_map]; [|auto].
  destruct (a !! u) as [arow|]; [|auto].
  destruct (arow !! v) as [[s c]|]; [|auto].
  destruct (0 <? c)%Z; auto.
Qed.

(** X22.  In exact arithmetic the sphere with north = east = 1 is round
    wherever the clamp of [rd_sqsphere] suffices.  For radius > 0,
    zmin < zmax, 0 < thetamax <= 360, a band [zmin, zmax] that meets the
    sphere (zmin <= radius and zmax >= -radius) and at least one division,
    the call returns 0, every coordinate of every grid vertex has a real
    value with x^2 + y^2 + z^2 = radius^2, and so has every one of the
    4 n^2 vertices sent to the pipeline. *)
Theorem round_sphere_in_exact_arithmetic (st : REDirect (option R))
    (radius zmin zmax thetamax : R) :
  0 < radius -> zmin < zmax -> 0 < thetamax <= 360 ->
  zmin <= radius -> - radius <= zmax -> (1 <= n_divisions st)%nat ->
  let n := n_divisions st in
  let g := sqsphere_grid n (Some radius) (of_int 1) (of_int 1)
             (Some zmin) (Some zmax) (Some thetamax) in
  let r := rd_sqsphere (Some radius) (of_int 1) (of_int 1)
             (Some zmin) (Some zmax) (Some thetamax) st in
  fst r = 0%Z /\
  (forall ui vi, (ui <= n)%nat -> (vi <= n)%nat -> on_sphere radius (grid_at g ui vi)) /\
  exists emitted,
    pipeline (snd r) = pipeline st ++ emitted /\
    length emitted = (4 * (n * n))%nat /\
    Forall (fun e => on_sphere radius (fst e)) emitted.
Proof.
  intros Hr Hz Ht Hlo Hhi Hn n g r.
  assert (Hgrid : forall ui vi, (ui <= n)%nat -> (vi <= n)%nat ->
                    on_sphere radius (grid_at g ui vi)).
  { intros ui vi Hu Hv. unfold g, sqsphere_grid. cbv zeta.
    rewrite grid_at_build_grid by assumption.
    destruct (latitudes_defined radius zmin zmax Hr Hlo Hhi) as (a & b & -> & ->).
    apply sphere_point_on_sphere. exact Hn. }
  assert (Hrun : r = (0%Z, render_grid g (enable_normals st))).
  { unfold r, rd_sqsphere. cbn [s_ltb s_leb s_eqb of_int exact_scalar Exact.compare].
    unfold Exact.ltb, Exact.leb, Exact.eqb.
    destruct (Rlt_dec zmax zmin); [lra|].
    destruct (Rle_dec radius 0); [lra|].
    destruct (Rle_dec thetamax 0); [lra|].
    destruct (Rlt_dec 360 thetamax); [lra|].
    destruct (Req_EM_T zmin zmax); [lra|].
    reflexivity. }
  rewrite Hrun. cbn [fst snd].
  split; [reflexivity | split; [exact Hgrid|]].
  unfold render_grid. cbn [n_divisions enable_normals]. fold n.
  set (g1 := store_normals (accumulate n g) g).
  destruct (emit_quads_records g1 (quads n) (enable_normals st)) as (Hp & _).
  exists (flat_map (quad_records g1) (quads n)).
  split; [exact Hp | split].
  - rewrite length_quad_records, length_quads. reflexivity.
  - apply Forall_forall. intros e He. apply list_elem_of_In in He.
    apply in_flat_map in He as ([ui vi] & Hq & He).
    apply In_quads_gen in Hq as [Hu Hv].
    assert (Hpos : forall u v, (u <= n)%nat -> (v <= n)%nat ->
                     on_sphere radius (grid_at g1 u v)).
    { intros u v Hu' Hv'. unfold on_sphere, g1.
      destruct (store_normals_position (accumulate n g) g u v) as (-> & -> & ->).
      apply Hgrid; assumption. }
    cbn [quad_records fst snd] in He.
    destruct He as [<-|[<-|[<-|[<-|[]]]]]; cbn [fst]; apply Hpos; cbn [fst snd]; lia.
Qed.

End SuperQuadricsRound.

(** The sphere of scenario B: radius 2, zmin = -2, zmax = 2, thetamax = 360,
    four divisions. *)
Lemma round_sphere_in_exact_arithmetic_witness :
  let st : SuperQuadrics.REDirect (option R) :=
    {| SuperQuadrics.n_divisions := 4;
       SuperQuadrics.obj_normal_flag := false;
       SuperQuadrics.render_m_attr :=
         {| SuperQuadrics.has_geometry := false; SuperQuadrics.has_normal := false;
            SuperQuadrics.has_shading_offset := false |};
       SuperQuadrics.poly_normal := (Some 0%R, Some 0%R, Some 0%R);
       SuperQuadrics.pipeline := [] |} in
  let g := SuperQuadrics.sqsphere_grid 4 (Some 2%R) (Some 1%R) (Some 1%R)
             (Some (-2)%R) (Some 2%R) (Some 360%R) in
  let r := SuperQuadrics.rd_sqsphere (Some 2%R) (Some 1%R) (Some 1%R)
             (Some (-2)%R) (Some 2%R) (Some 360%R) st in
  fst r = 0%Z /\
  (forall ui vi, ui <= 4 -> vi <= 4 -> on_sphere 2%R (SuperQuadrics.grid_at g ui vi)) /\
  exists emitted,
    SuperQuadrics.pipeline (snd r) = [] ++ emitted /\
    length emitted = 4 * (4 * 4) /\
    Forall (fun e => on_sphere 2%R (fst e)) emitted.
Proof.
  intros st g r.
  apply (round_sphere_in_exact_arithmetic st 2%R (-2)%R 2%R 360%R); cbn; lra || lia.
Defined.

Section SuperQuadricsNaN.
Context (L : IEEE.Libm).
Import SuperQuadrics.
Local Open Scope scalar_scope.

Let SF32 : Scalar spec_float := IEEE.binary32 L.
#[local] Existing Instance SF32.

(** X19.  A NaN for [thetamax] passes the parameter validation: both tests
    on [thetamax] are comparisons, which are false on NaN, so with a valid
    radius and range the sphere and the torus evaluator return 0. *)
Theorem nan_angle_passes_validation (st : REDirect spec_float)
    (radius radius2 north east lo hi thetamax : spec_float) :
  IEEE.is_nan thetamax = true ->
  (radius <=? of_int 0) = false -> (radius2 <=? of_int 0) = false ->
  (lo >? hi) = false -> (lo =? hi) = false -> (lo >=? hi) = false ->
  fst (rd_sqsphere radius north east lo hi thetamax st) = 0%Z /\
  fst (rd_sqtorus radius radius2 north east lo hi thetamax st) = 0%Z.
Proof.
  intros Hnan Hr Hr2 Hz He Hp. destruct thetamax; try discriminate. split.
  - unfold rd_sqsphere. rewrite Hz, Hr, He. reflexivity.
  - unfold rd_sqtorus. rewrite Hr, Hr2, Hp. reflexivity.
Qed.

End SuperQuadricsNaN.

Lemma nan_angle_passes_validation_witness :
  fst (SuperQuadrics.rd_sqsphere (SF := IEEE.float_ref)
         (IEEE.of_Z 24 128 2) (IEEE.of_Z 24 128 1) (IEEE.of_Z 24 128 1)
         (IEEE.of_Z 24 128 (-2)) (IEEE.of_Z 24 128 2) S754_nan one_division) = 0%Z /\
  fst (SuperQuadrics.rd_sqtorus (SF := IEEE.float_ref)
         (IEEE.of_Z 24 128 2) (IEEE.of_Z 24 128 1) (IEEE.of_Z 24 128 1) (IEEE.of_Z 24 128 1)
         (IEEE.of_Z 24 128 (-2)) (IEEE.of_Z 24 128 2) S754_nan one_division) = 0%Z.
Proof.
  apply (nan_angle_passes_validation (IEEE.libm_ref 24 128) one_division
           (IEEE.of_Z 24 128 2) (IEEE.of_Z 24 128 1) (IEEE.of_Z 24 128 1) (IEEE.of_Z 24 128 1)
           (IEEE.of_Z 24 128 (-2)) (IEEE.of_Z 24 128 2) S754_nan); reflexivity.
Defined.

(** ** Reference runs *)

(** The engine on the default seed 5489: its first output, and its 10000th,
    the value the C++ standard requires of [std::mt19937]. *)
Example mt19937_outputs :
  fst (MT19937.next (MT19937.seed 5489)) = 3499211612%Z /\
  fst (MT19937.next (Nat.iter (Z.to_nat 9999) (fun g => snd (MT19937.next g)) (MT19937.seed 5489)))
  = 4123659995%Z.
Proof. split; vm_compute; reflexivity. Qed.

(** The sphere of radius 2 with both exponents 1 on a 4 by 4 grid, in
    binary32: the point at u = 0, v = 2 is (2, 0, 0), and the 25 grid points
    satisfy x^2 + y^2 + z^2 = 4 within 2^-20. *)
Example sphere_radius_two_binary32 :
  let g := SuperQuadrics.sqsphere_grid (SF := IEEE.float_ref) 4
             (IEEE.of_Z 24 128 2) (IEEE.of_Z 24 128 1) (IEEE.of_Z 24 128 1)
             (IEEE.of_Z 24 128 (-2)) (IEEE.of_Z 24 128 2) (IEEE.of_Z 24 128 360) in
  option_map (fun p => (SuperQuadrics.coord0 p, SuperQuadrics.coord1 p, SuperQuadrics.coord2 p))
    (g !! 0%nat ≫= (.!! 2%nat))
  = Some (IEEE.of_Z 24 128 2, S754_zero false, S754_zero false) /\
  length (concat g) = 25%nat /\
  forallb (fun p =>
             SFleb (SFabs (SFsub 24 128
                             (SFadd 24 128
                                (SFadd 24 128
                                   (SFmul 24 128 (SuperQuadrics.coord0 p) (SuperQuadrics.coord0 p))
                                   (SFmul 24 128 (SuperQuadrics.coord1 p) (SuperQuadrics.coord1 p)))
                                (SFmul 24 128 (SuperQuadrics.coord2 p) (SuperQuadrics.coord2 p)))
                             (IEEE.of_Z 24 128 4)))
                   (SFldexp 24 128 (IEEE.of_Z 24 128 1) (-20)))
    (concat g) = true.
Proof. vm_compute. repeat split. Qed.

(** A simulation of no neutrons can be stepped: every frame is empty. *)
Example empty_simulation :
  let P := {| Dynamic.num_neutrons := 0;
              Dynamic.max_lifetime := IEEE.of_Z 24 128 100;
              Dynamic.absorption_probability := dec (SF := IEEE.float_ref) 1 10;
              Dynamic.fission_probability := dec (SF := IEEE.float_ref) 15 100;
              Dynamic.mean_free_path := IEEE.of_Z 24 128 2;
              Dynamic.source_radius := dec (SF := IEEE.float_ref) 5 10;
              Dynamic.max_distance := IEEE.of_Z 24 128 10;
              Dynamic.timestep := dec (SF := IEEE.float_ref) 5 10;
              Dynamic.num_frames := 3 |} in
  exists written,
    Dynamic.main (SF := IEEE.float_ref) (UG := MT19937.uniform (SF := IEEE.float_ref)) P 1
    = Some written /\
    Forall (fun f => concat (Dynamic.fr_groups f) = [] /\ Dynamic.fr_fission f = [] /\
                     Dynamic.fr_lines f = []) written /\
    length written = 3%nat.
Proof. eexists. split; [vm_compute; reflexivity|]. repeat constructor. Qed.

(** The call that removes the neutron of slot 20 in that run: the first
    draw is below the interaction probability and the second lies in the absorption band. *)
Example absorbed_in_first_update :
  let P := Dynamic.default_params (SF := IEEE.float_ref) in
  let new := Dynamic.NeutronSimulation_new (SF := IEEE.float_ref)
               (UG := MT19937.uniform (SF := IEEE.float_ref)) P 2 in
  let s0 := foldl (fun s i => fst (Dynamic.Neutron_update (SF := IEEE.float_ref)
                                     (UG := MT19937.uniform (SF := IEEE.float_ref))
                                     P i (Dynamic.timestep P) s))
                  (Dynamic.respawn (SF := IEEE.float_ref)
                     (UG := MT19937.uniform (SF := IEEE.float_ref))
                     P (Dynamic.tick (SF := IEEE.float_ref) P new)) (seq 0 20) in
  exists n,
    Dynamic.neutrons
      (simulation_after (SF := IEEE.float_ref) (UG := MT19937.uniform (SF := IEEE.float_ref)) P 1 2)
      !! 20%nat = Some n /\
    removed_by (SF := IEEE.float_ref) (UG := MT19937.uniform (SF := IEEE.float_ref))
      P AbsorptionCause 20 s0 n.
Proof.
  intros P new s0. eexists. split; [vm_compute; reflexivity|].
  unfold removed_by. cbv zeta.
  split; [eexists; split; [vm_compute; reflexivity | reflexivity]|].
  split; [vm_compute; reflexivity|]. split; [reflexivity|].
  split; [vm_compute; reflexivity|].
  split; [vm_compute; reflexivity|]. split; vm_compute; reflexivity.
Qed.
